(** * ImpactRadar: the static-analysis core

  A shallow embedding of the three core files of the repository

  - [src/callerSafetyScanner.js]  (caller-safety analysis),
  - [src/impactAnalysis.js]       (blast-radius traversal),
  - [src/graphParser.js]          (code-graph builder),

  followed by the properties the specification states about them.

  JavaScript numbers are IEEE-754 binary64 values: they are modelled by
  Rocq's primitive floats, so that [0.7 + 0.2] is the double the
  program computes, not the rational 9/10.  Insertion-ordered [Set]s
  are duplicate-free lists, [Map]s whose order is never observed are
  [gmap]s. *)

From Stdlib Require Import ZArith Floats String Ascii List Lia.
From stdpp Require Import gmap strings list.

#[local] Set Warnings "-inexact-float".
#[local] Open Scope string_scope.

(* ===================================================================== *)
(** ** JavaScript built-ins used by the sources *)
(* ===================================================================== *)

Module Js.

(** [s.startsWith(p)] *)
Definition startsWith (p s : string) : bool := String.prefix p s.

(** [s.includes(sub)] *)
Fixpoint includes (sub s : string) : bool :=
  if String.prefix sub s then true
  else match s with
       | EmptyString => false
       | String _ s' => includes sub s'
       end.

(** [s.endsWith(suf)] *)
Definition endsWith (suf s : string) : bool :=
  let n := String.length s in
  let k := String.length suf in
  (k <=? n)%nat && String.eqb (String.substring (n - k) k s) suf.

Fixpoint drop (n : nat) (s : string) : string :=
  match n, s with
  | O, _ => s
  | S _, EmptyString => EmptyString
  | S n', String _ s' => drop n' s'
  end.

(** The text before and after the first occurrence of [sep] in [s]. *)
Fixpoint cut (sep s : string) : option (string * string) :=
  if String.prefix sep s then Some (EmptyString, drop (String.length sep) s)
  else match s with
       | EmptyString => None
       | String c s' =>
           match cut sep s' with
           | Some (before, after) => Some (String c before, after)
           | None => None
           end
       end.

(** [s.split(sep)[1]] for a non-empty separator: [None] is [undefined]. *)
Definition split_1 (sep s : string) : option string :=
  match cut sep s with
  | None => None
  | Some (_, rest) =>
      match cut sep rest with
      | Some (piece, _) => Some piece
      | None => Some rest
      end
  end.

(** Truthiness of a string value. *)
Definition truthy (s : string) : bool := negb (String.eqb s "").

(** Strings hold the UTF-8 bytes of the text.  [starts code s]: [s]
    begins with the bytes [code]. *)
Definition starts (code : list nat) (s : string) : bool :=
  String.prefix (string_of_list_ascii (List.map ascii_of_nat code)) s.

Definition upper_ascii (c : ascii) : ascii :=
  let n := nat_of_ascii c in
  if ((97 <=? n) && (n <=? 122))%nat then ascii_of_nat (n - 32) else c.

(** The characters beyond ASCII whose upper case is made of ASCII
    letters, each with its UTF-8 bytes: dotless i, long s, sharp s and
    the ligatures U+FB00 to U+FB06. *)
Definition UPPER_SPECIAL : list (list nat * string) :=
  ((196 :: 177 :: nil, "I") :: (197 :: 191 :: nil, "S") :: (195 :: 159 :: nil, "SS")
   :: (239 :: 172 :: 128 :: nil, "FF") :: (239 :: 172 :: 129 :: nil, "FI")
   :: (239 :: 172 :: 130 :: nil, "FL") :: (239 :: 172 :: 131 :: nil, "FFI")
   :: (239 :: 172 :: 132 :: nil, "FFL") :: (239 :: 172 :: 133 :: nil, "ST")
   :: (239 :: 172 :: 134 :: nil, "ST") :: nil)%list.

Definition upper_special (s : string) : option (list nat * string) :=
  List.find (fun entry => starts (fst entry) s) UPPER_SPECIAL.

(** [s.toUpperCase()] wherever the result is made of ASCII letters,
    which is where the sources look at it (they compare it with the
    names of the HTTP methods); other characters beyond ASCII are left
    as they are.  [skip] bytes belong to the character before. *)
Fixpoint upper_from (skip : nat) (s : string) : string :=
  match s with
  | EmptyString => EmptyString
  | String c s' =>
      match skip with
      | S k => upper_from k s'
      | O =>
          match upper_special s with
          | Some (code, u) => String.append u (upper_from (List.length code - 1) s')
          | None => String (upper_ascii c) (upper_from 0 s')
          end
      end
  end.

Definition toUpperCase (s : string) : string := upper_from 0 s.

(** The white space of [\s] and of [trim()] beyond ASCII, in UTF-8:
    U+00A0, U+1680, U+2000 to U+200A, U+2028, U+2029, U+202F, U+205F,
    U+3000 and U+FEFF. *)
Definition WIDE_SPACES : list (list nat) :=
  ((194 :: 160 :: nil) :: (225 :: 154 :: 128 :: nil)
   :: List.map (fun c => 226 :: 128 :: c :: nil) (List.seq 128 11)
   ++ (226 :: 128 :: 168 :: nil) :: (226 :: 128 :: 169 :: nil)
   :: (226 :: 128 :: 175 :: nil) :: (226 :: 129 :: 159 :: nil)
   :: (227 :: 128 :: 128 :: nil) :: (239 :: 187 :: 191 :: nil) :: nil)%list.

Definition is_space (c : ascii) : bool :=
  let n := nat_of_ascii c in
  ((n =? 32) || ((9 <=? n) && (n <=? 13)))%nat.

(** The white space at the head of [s]: the number of bytes it takes
    ([None]: no white space there). *)
Definition space_width (s : string) : option nat :=
  match s with
  | String c _ =>
      if is_space c then Some 1
      else option_map (@List.length nat) (List.find (fun code => starts code s) WIDE_SPACES)
  | EmptyString => None
  end.

(** [!s.trim()]: the string holds white space only. *)
Fixpoint blank_from (skip : nat) (s : string) : bool :=
  match s with
  | EmptyString => true
  | String _ s' =>
      match skip with
      | S k => blank_from k s'
      | O =>
          match space_width s with
          | Some w => blank_from (w - 1) s'
          | None => false
          end
      end
  end.

Definition blank (s : string) : bool := blank_from 0 s.

(** [s.replace(/\\/g, '/')] *)
Fixpoint slashes (s : string) : string :=
  match s with
  | EmptyString => EmptyString
  | String c s' =>
      String (if Ascii.eqb c "\"%char then "/"%char else c) (slashes s')
  end.

(** [s.replace(/suffix$/, '')] for one literal suffix. *)
Definition strip_suffix (suf s : string) : option string :=
  if endsWith suf s
  then Some (String.substring 0 (String.length s - String.length suf) s)
  else None.

(** First suffix of the list that [s] ends with, stripped; [s] itself
    when none matches. *)
Fixpoint strip_first_suffix (sufs : list string) (s : string) : string :=
  match sufs with
  | [] => s
  | suf :: rest =>
      match strip_suffix suf s with
      | Some s' => s'
      | None => strip_first_suffix rest s
      end
  end.

(** [arr.join(sep)] *)
Fixpoint join (sep : string) (l : list string) : string :=
  match l with
  | [] => ""
  | [x] => x
  | x :: rest => x +:+ sep +:+ join sep rest
  end.

(** *** Numbers *)

#[local] Open Scope float_scope.

(** [Math.max(a, b)] and [Math.min(a, b)] *)
Definition Math_max (a b : float) : float :=
  if is_nan a || is_nan b then nan
  else if a <? b then b
  else if b <? a then a
  else if get_sign a then b else a.

Definition Math_min (a b : float) : float :=
  if is_nan a || is_nan b then nan
  else if a <? b then a
  else if b <? a then b
  else if get_sign a then a else b.

(** [x.toFixed(2)] picks the integer [n] for which [n / 100 - x] is
    closest to zero, the larger one on a tie, and prints [n / 100] with
    two decimals.  [hundredths x] is that [n], computed exactly from the
    mantissa and exponent of [x], for a finite [x >= 0]. *)
Definition hundredths (x : float) : Z :=
  match Prim2SF x with
  | S754_finite false m e =>
      if (0 <=? e)%Z then (100 * Z.pos m * 2 ^ e)%Z
      else ((200 * Z.pos m + 2 ^ (- e)) / 2 ^ (1 - e))%Z
  | _ => 0%Z
  end.

(** [parseFloat(x.toFixed(2))].  [parseFloat] returns the double nearest
    to the decimal it reads, which is the correctly rounded quotient of
    the two exactly representable integers [n] and [100].  The source
    applies it to clamped values only, [0 <= x <= 1]; outside that
    range the model leaves [x] as it is. *)
Definition round2 (x : float) : float :=
  if (0 <=? x) && (x <=? 1)
  then of_uint63 (Uint63.of_Z (hundredths x)) / 100
  else x.

End Js.

(* ===================================================================== *)
(** ** Syntax trees and paths (what [@babel/parser] and
       [@babel/traverse] hand to the sources) *)
(* ===================================================================== *)

#[local] Set Warnings "-register-all".
#[local] Open Scope list_scope.

Record Position := { line : nat; column : nat }.
Record SourceLocation := { loc_start : Position; loc_end : Position }.

(** The node types the sources test for, with the fields they read, in
    Babel's visiting order.  Type annotations and decorators are left
    out; [Other] is any node type the sources never test for (Program,
    BlockStatement, ExpressionStatement, ReturnStatement, ObjectExpression,
    ClassMethod, ...), with its children in visiting order.  [source] of
    an import or export is the [value] of its string literal. *)
Inductive node : Type :=
| Identifier (name : string)
| NullLiteral
| StringLiteral (value : string)
| CallExpression (loc : option SourceLocation) (callee : node) (arguments : list node)
| OptionalCallExpression (callee : node) (arguments : list node)
| MemberExpression (object property : node)
| OptionalMemberExpression (object property : node)
| AwaitExpression (argument : node)
| VariableDeclarator (id : node) (init : option node)
| ObjectPattern (properties : list node)
| ArrayPattern (elements : list node)
| AssignmentPattern (left right : node)
| RestElement (argument : node)
| AssignmentExpression (left right : node)
| BinaryExpression (operator : string) (left right : node)
| LogicalExpression (operator : string) (left right : node)
| UnaryExpression (operator : string) (argument : node)
| ConditionalExpression (test consequent alternate : node)
| IfStatement (test consequent : node) (alternate : option node)
| TryStatement (block : node) (handler finalizer : option node)
| FunctionDeclaration (async : bool) (id : option node) (params : list node) (body : node)
| FunctionExpression (async : bool) (id : option node) (params : list node) (body : node)
| ArrowFunctionExpression (async : bool) (params : list node) (body : node)
| ObjectMethod (async : bool) (key : node) (params : list node) (body : node)
| ObjectProperty (key value : node)
| ImportDeclaration (specifiers : list node) (source : string)
| ExportNamedDeclaration (declaration : option node) (specifiers : list node) (source : option string)
| ExportAllDeclaration (source : string)
| Other (type : string) (children : list node).

(** The root of a parsed file. *)
Definition Program (body : list node) : node := Other "Program" body.

(** Object identity of syntax nodes ([a === b]) is identity of their
    place in the tree: the field names and list indices leading to the
    node from the root. *)
Definition position : Type := list (string * nat).

Definition position_eqb (a b : position) : bool := bool_decide (a = b).

(** A [NodePath] of Babel: the node, where it is, and the path of its
    parent ([None] at the root, the Program). *)
Inductive NodePath : Type :=
| MkPath (n : node) (at_ : position) (parent : option NodePath).

Definition path_node (p : NodePath) : node := let 'MkPath n _ _ := p in n.
Definition path_at (p : NodePath) : position := let 'MkPath _ a _ := p in a.
Definition parentPath (p : NodePath) : option NodePath :=
  let 'MkPath _ _ q := p in q.

(** [babelTraverse]: every node of the tree as a path, in the order in
    which the traversal enters them (a node before its children, the
    children by field).  The traversal can also throw before it enters
    any of them: that is [traverse_error] of the host, which the callers
    consult first. *)
Fixpoint paths_of (n : node) (at_ : position) (parent : option NodePath)
  {struct n} : list NodePath :=
  let self := MkPath n at_ parent in
  let one := fun (field : string) (k : node) =>
    paths_of k (at_ ++ [(field, 0)]) (Some self) in
  let opt := fun (field : string) (o : option node) =>
    match o with
    | Some k => paths_of k (at_ ++ [(field, 0)]) (Some self)
    | None => []
    end in
  let many := fun (field : string) =>
    fix many (i : nat) (ks : list node) : list NodePath :=
      match ks with
      | [] => []
      | k :: ks' => paths_of k (at_ ++ [(field, i)]) (Some self) ++ many (S i) ks'
      end in
  self ::
  match n with
  | Identifier _ | NullLiteral | StringLiteral _ => []
  | CallExpression _ c a => one "callee" c ++ many "arguments" 0 a
  | OptionalCallExpression c a => one "callee" c ++ many "arguments" 0 a
  | MemberExpression o p => one "object" o ++ one "property" p
  | OptionalMemberExpression o p => one "object" o ++ one "property" p
  | AwaitExpression a => one "argument" a
  | VariableDeclarator i o => one "id" i ++ opt "init" o
  | ObjectPattern ps => many "properties" 0 ps
  | ArrayPattern es => many "elements" 0 es
  | AssignmentPattern l r => one "left" l ++ one "right" r
  | RestElement a => one "argument" a
  | AssignmentExpression l r => one "left" l ++ one "right" r
  | BinaryExpression _ l r => one "left" l ++ one "right" r
  | LogicalExpression _ l r => one "left" l ++ one "right" r
  | UnaryExpression _ a => one "argument" a
  | ConditionalExpression t c a =>
      one "test" t ++ one "consequent" c ++ one "alternate" a
  | IfStatement t c a => one "test" t ++ one "consequent" c ++ opt "alternate" a
  | TryStatement b h f => one "block" b ++ opt "handler" h ++ opt "finalizer" f
  | FunctionDeclaration _ i ps b => opt "id" i ++ many "params" 0 ps ++ one "body" b
  | FunctionExpression _ i ps b => opt "id" i ++ many "params" 0 ps ++ one "body" b
  | ArrowFunctionExpression _ ps b => many "params" 0 ps ++ one "body" b
  | ObjectMethod _ k ps b => one "key" k ++ many "params" 0 ps ++ one "body" b
  | ObjectProperty k v => one "key" k ++ one "value" v
  | ImportDeclaration ss _ => many "specifiers" 0 ss
  | ExportNamedDeclaration d ss _ => opt "declaration" d ++ many "specifiers" 0 ss
  | ExportAllDeclaration _ => []
  | Other _ ks => many "children" 0 ks
  end.

Definition babelTraverse (ast : node) : list NodePath := paths_of ast [] None.

(** [p.traverse(...)]: the paths strictly below [p]. *)
Definition path_traverse (p : NodePath) : list NodePath :=
  tl (paths_of (path_node p) (path_at p) (parentPath p)).

(** The path and its ancestors, innermost first: what a loop
    [while (currentPath) {...; currentPath = currentPath.parentPath}]
    goes through. *)
Fixpoint upward (p : NodePath) : list NodePath :=
  p :: match p with
       | MkPath _ _ (Some q) => upward q
       | MkPath _ _ None => []
       end.

(** An expression together with its place, for identity tests. *)
Record Expr := { e_node : node; e_at : position }.

Definition expr_of (p : NodePath) : Expr :=
  {| e_node := path_node p; e_at := path_at p |}.

Definition same_node (a b : Expr) : bool := position_eqb (e_at a) (e_at b).

Definition sub (e : Expr) (field : string) (k : node) : Expr :=
  {| e_node := k; e_at := e_at e ++ [(field, 0)] |}.

(** Field reads; [None] is [undefined]. *)
Definition get_test (e : Expr) : option Expr :=
  match e_node e with
  | IfStatement t _ _ | ConditionalExpression t _ _ => Some (sub e "test" t)
  | _ => None
  end.

Definition get_left (e : Expr) : option Expr :=
  match e_node e with
  | BinaryExpression _ l _ | LogicalExpression _ l _
  | AssignmentPattern l _ | AssignmentExpression l _ => Some (sub e "left" l)
  | _ => None
  end.

Definition get_right (e : Expr) : option Expr :=
  match e_node e with
  | BinaryExpression _ _ r | LogicalExpression _ _ r
  | AssignmentPattern _ r | AssignmentExpression _ r => Some (sub e "right" r)
  | _ => None
  end.

Definition get_argument (e : Expr) : option Expr :=
  match e_node e with
  | UnaryExpression _ a | AwaitExpression a | RestElement a =>
      Some (sub e "argument" a)
  | _ => None
  end.

Definition get_init (e : Expr) : option Expr :=
  match e_node e with
  | VariableDeclarator _ (Some i) => Some (sub e "init" i)
  | _ => None
  end.

Definition is_same (o : option Expr) (e : Expr) : bool :=
  match o with
  | Some x => same_node x e
  | None => false
  end.

(** The [t.isX] tests of [@babel/types]. *)
Definition isIdentifier (n : node) : bool :=
  match n with Identifier _ => true | _ => false end.
Definition isMemberExpression (n : node) : bool :=
  match n with MemberExpression _ _ => true | _ => false end.
Definition isOptionalMemberExpression (n : node) : bool :=
  match n with OptionalMemberExpression _ _ => true | _ => false end.
Definition isOptionalCallExpression (n : node) : bool :=
  match n with OptionalCallExpression _ _ => true | _ => false end.
Definition isAwaitExpression (n : node) : bool :=
  match n with AwaitExpression _ => true | _ => false end.
Definition isVariableDeclarator (n : node) : bool :=
  match n with VariableDeclarator _ _ => true | _ => false end.
Definition isObjectPattern (n : node) : bool :=
  match n with ObjectPattern _ => true | _ => false end.
Definition isArrayPattern (n : node) : bool :=
  match n with ArrayPattern _ => true | _ => false end.
Definition isTryStatement (n : node) : bool :=
  match n with TryStatement _ _ _ => true | _ => false end.
Definition isFunctionDeclaration (n : node) : bool :=
  match n with FunctionDeclaration _ _ _ _ => true | _ => false end.
Definition isArrowFunctionExpression (n : node) : bool :=
  match n with ArrowFunctionExpression _ _ _ => true | _ => false end.
Definition isFunctionExpression (n : node) : bool :=
  match n with FunctionExpression _ _ _ _ => true | _ => false end.
Definition isObjectMethod (n : node) : bool :=
  match n with ObjectMethod _ _ _ _ => true | _ => false end.
Definition isIfStatement (n : node) : bool :=
  match n with IfStatement _ _ _ => true | _ => false end.
Definition isConditionalExpression (n : node) : bool :=
  match n with ConditionalExpression _ _ _ => true | _ => false end.
Definition isBinaryExpression (n : node) : bool :=
  match n with BinaryExpression _ _ _ => true | _ => false end.
Definition isNullLiteral (n : node) : bool :=
  match n with NullLiteral => true | _ => false end.
Definition isUnaryExpression (n : node) (op : string) : bool :=
  match n with UnaryExpression o _ => String.eqb o op | _ => false end.
Definition isLogicalExpression (n : node) (op : string) : bool :=
  match n with LogicalExpression o _ _ => String.eqb o op | _ => false end.
Definition isCallExpression (n : node) : bool :=
  match n with CallExpression _ _ _ => true | _ => false end.

(** [n.name] of an identifier ([None]: [undefined]). *)
Definition node_name (n : node) : option string :=
  match n with Identifier x => Some x | _ => None end.

(** [n.async] of a function-like node. *)
Definition node_async (n : node) : bool :=
  match n with
  | FunctionDeclaration a _ _ _ | FunctionExpression a _ _ _
  | ArrowFunctionExpression a _ _ | ObjectMethod a _ _ _ => a
  | _ => false
  end.

(** The callee's simple name, as both files compute it: the identifier,
    or the property of a member access. *)
Definition callee_name (callee : node) : option string :=
  match callee with
  | Identifier x => Some x
  | MemberExpression _ (Identifier x) => Some x
  | _ => None
  end.

(* ===================================================================== *)
(** ** The host: file system, [path] module and parser *)
(* ===================================================================== *)

(** A directory entry as [readdirSync(dir, {withFileTypes: true})] lists
    it; a directory carries its own listing, [None] when reading it
    throws. *)
Inductive Dirent : Type :=
| FileEntry (name : string)
| DirEntry (name : string) (entries : option (list Dirent)).

(** What the sources take from Node and Babel.  A result [inl msg] is a
    thrown error with that message. *)
Record Host := {
  toUpperCase : string -> string;              (* String.prototype.toUpperCase *)
  path_resolve1 : string -> string;            (* path.resolve(p) *)
  path_resolve : string -> string -> string;   (* path.resolve(a, b) *)
  path_join : string -> string -> string;      (* path.join(a, b) *)
  path_relative : string -> string -> string;  (* path.relative(from, to) *)
  path_dirname : string -> string;             (* path.dirname(p) *)
  existsSync : string -> bool;
  readFileSync : string -> string + string;
  readdirSync : string -> option (list Dirent);
  parse : string -> string + list node;        (* parser.parse: the Program body *)
  traverse_error : node -> option string
    (* what babelTraverse itself throws on the tree, if anything: it builds
       the scopes of the whole program before it calls the first visitor,
       and rejects some trees the parser accepts (Duplicate declaration) *)
}.

(* ===================================================================== *)
(** ** src/callerSafetyScanner.js *)
(* ===================================================================== *)

Definition LF : string := String (ascii_of_nat 10) "".
Definition is_quote (c : ascii) : bool :=
  let n := nat_of_ascii c in ((n =? 34) || (n =? 39))%nat.

(** What follows the white space at the head of [s]; [skip] bytes
    belong to the character before. *)
Fixpoint skip_spaces_from (skip : nat) (s : string) : string :=
  match s with
  | String _ s' =>
      match skip with
      | S k => skip_spaces_from k s'
      | O =>
          match Js.space_width s with
          | Some w => skip_spaces_from (w - 1) s'
          | None => s
          end
      end
  | EmptyString => s
  end.

Definition skip_spaces (s : string) : string := skip_spaces_from 0 s.

(** After [<script]: the optional [\s+lang=['"]ts['"]] and the closing
    [>]; returns what follows the tag. *)
Definition script_tag_end (s : string) : option string :=
  match s with
  | String ">" r => Some r
  | _ =>
      match Js.space_width s with
      | Some _ =>
          match Js.cut "lang=" (skip_spaces s) with
          | Some (EmptyString, String q1 (String "t" (String "s" (String q2 (String ">" r))))) =>
              if is_quote q1 && is_quote q2 then Some r else None
          | _ => None
          end
      | None => None
      end
  end.

(** A match of [/<script(?:\s+lang=["']ts["'])?>(.*?)<\/script>/s] at the
    start of [s]: the captured group and the length of the match. *)
Definition script_match (s : string) : option (string * nat) :=
  if String.prefix "<script" s then
    match script_tag_end (Js.drop 7 s) with
    | Some after_tag =>
        match Js.cut "</script>" after_tag with
        | Some (content, rest) =>
            Some (content, String.length s - String.length rest)
        | None => None
        end
    | None => None
    end
  else None.

(** The [exec] loop: [skip] characters belong to the previous match. *)
Fixpoint script_blocks (skip : nat) (s : string) : string :=
  match s with
  | EmptyString => ""
  | String _ s' =>
      match skip with
      | S k => script_blocks k s'
      | O =>
          match script_match s with
          | Some (content, len) => content +:+ LF +:+ script_blocks (len - 1) s'
          | None => script_blocks 0 s'
          end
      end
  end.

Definition extractScriptContent (svelteCode : string) : string :=
  script_blocks 0 svelteCode.

Record safetyFlags := {
  hasTryCatch : bool;
  hasNullCheck : bool;
  isDestructuredImmediately : bool;
  assumedExists : bool;
  isAsyncCall : bool;
  isOptionalChaining : bool
}.

Record safetyProbabilities := {
  unsafeDereferenceLikelihood : float;
  unhandledErrorProbability : float;
  unsafeDereferenceBreakdown : list string;
  unhandledErrorBreakdown : list string
}.

Definition mentions_residual (breakdown : list string) : bool :=
  existsb (Js.includes "Minimal residual risk") breakdown.

#[local] Open Scope float_scope.

Definition calculateSafetyProbabilities (f : safetyFlags) : safetyProbabilities :=
  let tc := hasTryCatch f in
  let nc := hasNullCheck f in
  let di := isDestructuredImmediately f in
  let ae := assumedExists f in
  let ac := isAsyncCall f in
  let oc := isOptionalChaining f in
  (* Unsafe dereference likelihood *)
  let '(u, ub) :=
    if negb nc && negb oc
    then (0.7, ["Base: No explicit null check or optional chaining found (+0.7)"])
    else (0.1, ["Base: Null check or optional chaining found (+0.1)"]) in
  let '(u, ub) :=
    if di && negb nc && negb oc
    then (u + 0.2, ub ++ ["Condition: Destructuring without null guard (+0.2)"])
    else (u, ub) in
  let '(u, ub) :=
    if ae && negb nc && negb oc
    then (u + 0.15, ub ++ ["Condition: Assumed existence without checks (+0.15)"])
    else (u, ub) in
  let '(u, ub) :=
    if nc
    then (Js.Math_max 0 (u - 0.5), ub ++ ["Mitigation: Explicit null check (-0.5)"])
    else (u, ub) in
  let '(u, ub) :=
    if oc
    then (Js.Math_max 0 (u - 0.4), ub ++ ["Mitigation: Optional chaining (-0.4)"])
    else (u, ub) in
  (* Unhandled error probability *)
  let '(e, eb) :=
    if negb tc
    then (0.6, ["Base: No try/catch block found (+0.6)"])
    else (0.1, ["Base: Try/catch block found (+0.1)"]) in
  let '(e, eb) :=
    if ac && negb tc
    then (e + 0.2, eb ++ ["Condition: Async call without try/catch (+0.2)"])
    else (e, eb) in
  (* Clamp to [0, 1] *)
  let u := Js.Math_max 0 (Js.Math_min 1 u) in
  let e := Js.Math_max 0 (Js.Math_min 1 e) in
  (* Final override *)
  let '(u, e, ub, eb) :=
    if nc && negb di && negb ae && negb ac && tc && oc then
      (0, 0,
       ub ++ ["Overall: All safety mechanisms present, minimal risk (0.00)"],
       eb ++ ["Overall: All safety mechanisms present, minimal risk (0.00)"])
    else if nc && negb di && negb ae && negb ac && tc then
      (Js.Math_min u 0.01, Js.Math_min e 0.01,
       if negb (mentions_residual ub)
       then ub ++ ["Overall: All major safety mechanisms present, minimal residual risk (0.01)"]
       else ub,
       if negb (mentions_residual eb)
       then eb ++ ["Overall: All major safety mechanisms present, minimal residual risk (0.01)"]
       else eb)
    else (u, e, ub, eb) in
  {| unsafeDereferenceLikelihood := Js.round2 u;
     unhandledErrorProbability := Js.round2 e;
     unsafeDereferenceBreakdown := ub;
     unhandledErrorBreakdown := eb |}.

#[local] Close Scope float_scope.

(** A record of [safetyAnalyses]: the analysis of one call site (the
    six flags and the four results are grouped here, the source keeps
    them flat), or an explanatory note. *)
Inductive SafetyRecord : Type :=
| Analysis (file : string) (line column : option nat) (callee : string)
    (flags : safetyFlags) (probabilities : safetyProbabilities)
| Note (file : string) (targetFunctionName : option string) (analysis : string).

(** The message of a read of a property of [null] or [undefined]. *)
Definition TypeError (value property : string) : string :=
  "Cannot read properties of " +:+ value +:+ " (reading '" +:+ property +:+ "')".

(** Step 2 of the visitor: the tracked expression, the name the result is
    bound to, whether it is destructured at once, and the path the upward
    walk starts from. *)
Record Binding := {
  expressionToTrack : Expr;
  resultIdentifierName : option string;
  destructured : bool;
  walk_from : option NodePath
}.

Definition declarator_binding (declarator : node) : option string * bool :=
  match declarator with
  | VariableDeclarator (Identifier x) _ => (Some x, false)
  | VariableDeclarator (ObjectPattern _) _
  | VariableDeclarator (ArrayPattern _) _ => (None, true)
  | _ => (None, false)
  end.

Definition binding_of (p : NodePath) : string + Binding :=
  let call := expr_of p in
  match parentPath p with
  | None => inl (TypeError "null" "node")
  | Some parent =>
      let pe := expr_of parent in
      if isAwaitExpression (path_node parent) && is_same (get_argument pe) call then
        match parentPath parent with
        | None => inl (TypeError "null" "node")
        | Some grand =>
            let '(name, destr) :=
              if isVariableDeclarator (path_node grand)
                 && is_same (get_init (expr_of grand)) pe
              then declarator_binding (path_node grand)
              else (None, false) in
            inr {| expressionToTrack := pe; resultIdentifierName := name;
                   destructured := destr; walk_from := Some grand |}
        end
      else if isVariableDeclarator (path_node parent)
              && is_same (get_init pe) call then
        let '(name, destr) := declarator_binding (path_node parent) in
        inr {| expressionToTrack := call; resultIdentifierName := name;
               destructured := destr; walk_from := Some parent |}
      else
        inr {| expressionToTrack := call; resultIdentifierName := None;
               destructured := false; walk_from := Some parent |}
  end.

Definition isTargetExpression (b : Binding) (call : Expr) (expr : option Expr) : bool :=
  match expr with
  | None => false
  | Some e =>
      match resultIdentifierName b with
      | Some r =>
          Js.truthy r &&
          match e_node e with Identifier x => String.eqb x r | _ => false end
      | None => false
      end
      || same_node e call
      || (same_node e (expressionToTrack b) && isAwaitExpression (e_node e))
  end.

Definition is_null_or_undefined (o : option Expr) : bool :=
  match o with
  | Some e =>
      match e_node e with
      | NullLiteral => true
      | Identifier x => String.eqb x "undefined"
      | _ => false
      end
  | None => false
  end.

(** The test of an if statement or of a conditional expression guards
    the tracked expression. *)
Definition guards (b : Binding) (call : Expr) (nodeToCheck : Expr) : bool :=
  if isIfStatement (e_node nodeToCheck) || isConditionalExpression (e_node nodeToCheck)
  then
    match get_test nodeToCheck with
    | None => false
    | Some testNode =>
        if isBinaryExpression (e_node testNode) then
          if is_null_or_undefined (get_right testNode)
             && isTargetExpression b call (get_left testNode) then true
          else if is_null_or_undefined (get_left testNode)
                  && isTargetExpression b call (get_right testNode) then true
          else false
        else if isUnaryExpression (e_node testNode) "!"
                && isTargetExpression b call (get_argument testNode) then true
        else if isLogicalExpression (e_node testNode) "&&"
                && isTargetExpression b call (get_left testNode) then true
        else if isTargetExpression b call (Some testNode) then true
        else false
    end
  else false.

Definition isFunctionLike (n : node) : bool :=
  isFunctionDeclaration n || isArrowFunctionExpression n
  || isFunctionExpression n || isObjectMethod n.

(** The three flags the upward walk accumulates. *)
Record Walk := { w_try : bool; w_async : bool; w_null : bool }.

(** One turn of the [while (currentPath)] loop. *)
Definition walk_step (b : Binding) (call : Expr) (w : Walk) (currentPath : NodePath) : Walk :=
  let n := path_node currentPath in
  let w1 := if isTryStatement n
            then {| w_try := true; w_async := w_async w; w_null := w_null w |}
            else w in
  let w2 := if isFunctionLike n && node_async n
            then {| w_try := w_try w1; w_async := true; w_null := w_null w1 |}
            else w1 in
  if negb (w_null w2) then
    if guards b call (expr_of currentPath)
    then {| w_try := w_try w2; w_async := w_async w2; w_null := true |}
    else w2
  else w2.

Definition walk_up (b : Binding) (call : Expr) (w : Walk) (start : option NodePath) : Walk :=
  match start with
  | Some q => fold_left (walk_step b call) (upward q) w
  | None => w
  end.

Definition loc_line (n : node) : option nat :=
  match n with
  | CallExpression (Some l) _ _ => Some (line (loc_start l))
  | _ => None
  end.

Definition loc_column (n : node) : option nat :=
  match n with
  | CallExpression (Some l) _ _ => Some (column (loc_start l))
  | _ => None
  end.

(** The flags of a call site whose callee is the target. *)
Definition call_site_flags (p : NodePath) : string + safetyFlags :=
  let optional :=
    match parentPath p with
    | Some parent =>
        isOptionalMemberExpression (path_node parent)
        || isOptionalCallExpression (path_node parent)
    | None => false
    end in
  match binding_of p with
  | inl err => inl err
  | inr b =>
      let w := walk_up b (expr_of p)
                 {| w_try := false; w_async := false; w_null := optional |}
                 (walk_from b) in
      let assumed :=
        negb (w_null w) && negb (w_try w) && negb (destructured b) && negb optional in
      inr {| hasTryCatch := w_try w;
             hasNullCheck := w_null w;
             isDestructuredImmediately := destructured b;
             assumedExists := assumed;
             isAsyncCall := w_async w;
             isOptionalChaining := optional |}
  end.

(** The [CallExpression] visitor: the records it pushes, or the error
    it throws. *)
Definition visit_call (filePath targetFunctionName : string) (p : NodePath)
  : string + list SafetyRecord :=
  match path_node p with
  | CallExpression _ callee _ =>
      match callee_name callee with
      | Some calleeName =>
          if String.eqb calleeName targetFunctionName then
            match call_site_flags p with
            | inl err => inl err
            | inr flags =>
                inr [Analysis filePath (loc_line (path_node p)) (loc_column (path_node p))
                       calleeName flags (calculateSafetyProbabilities flags)]
            end
          else inr []
      | None => inr []
      end
  | _ => inr []
  end.

(** The traversal: records pushed so far, and the error that stopped it. *)
Fixpoint visit_calls (filePath targetFunctionName : string) (ps : list NodePath)
  : list SafetyRecord * option string :=
  match ps with
  | [] => ([], None)
  | p :: rest =>
      match visit_call filePath targetFunctionName p with
      | inl err => ([], Some err)
      | inr records =>
          let '(more, err) := visit_calls filePath targetFunctionName rest in
          (records ++ more, err)
      end
  end.

Definition scan_error (filePath message : string) : SafetyRecord :=
  Note filePath None ("Error during safety scan: " +:+ message).

Definition scanCallerSafety (host : Host) (filePath targetFunctionName : string)
  : list SafetyRecord :=
  if negb (existsSync host filePath) then
    [Note filePath (Some targetFunctionName) "File not found for safety scan."]
  else
    match readFileSync host filePath with
    | inl message => [scan_error filePath message]
    | inr code =>
        let svelte := Js.endsWith ".svelte" filePath in
        let code := if svelte then extractScriptContent code else code in
        if svelte && Js.blank code then []
        else
          match parse host code with
          | inl message => [scan_error filePath message]
          | inr body =>
              match traverse_error host (Program body) with
              | Some message => [scan_error filePath message]
              | None =>
                  let '(records, err) :=
                    visit_calls filePath targetFunctionName
                      (babelTraverse (Program body)) in
                  match err with
                  | Some message => records ++ [scan_error filePath message]
                  | None => records
                  end
              end
          end
    end.

(* ===================================================================== *)
(** ** The code graph *)
(* ===================================================================== *)

(** A node of [graph.nodes]: the three object shapes the builder writes. *)
Inductive GraphNode : Type :=
| ModuleNode (id zone : string)
| ApiNode (name file route zone : string) (parameters : list string)
    (returnType : string) (isAsync : bool)
| FunctionNode (name file zone : string) (parameters : list string)
    (returnType : string) (isAsync : bool).

Definition node_type (n : GraphNode) : string :=
  match n with
  | ModuleNode _ _ => "module"
  | ApiNode _ _ _ _ _ _ _ => "api"
  | FunctionNode _ _ _ _ _ _ => "function"
  end.

Definition node_zone (n : GraphNode) : string :=
  match n with
  | ModuleNode _ z | ApiNode _ _ _ z _ _ _ | FunctionNode _ _ z _ _ _ => z
  end.

(** [n.file] and [n.name]: a module node has neither. *)
Definition node_file (n : GraphNode) : option string :=
  match n with
  | ModuleNode _ _ => None
  | ApiNode _ f _ _ _ _ _ | FunctionNode _ f _ _ _ _ => Some f
  end.

Definition node_label (n : GraphNode) : option string :=
  match n with
  | ModuleNode _ _ => None
  | ApiNode x _ _ _ _ _ _ | FunctionNode x _ _ _ _ _ => Some x
  end.

Module Edge.
(** [to] is [None] for [null] or [undefined]; [kind] and [callPath] are
    absent on structural edges. *)
Record t := {
  from : string;
  to : option string;
  type : string;
  kind : option string;
  callPath : option SourceLocation
}.
End Edge.

Record Metadata := {
  unresolved_files : nat;
  total_files : nat;
  total_imports : nat;
  resolved_imports : nat;
  max_depth_detected : nat;
  indirect_nodes_found : nat;
  analysis_limit_reached : bool
}.

(** [nodes] is a plain object: an insertion-ordered association list
    with one entry per key of its own (no key of the builder is an
    integer index or a property of [Object.prototype]). *)
Record Graph := {
  nodes : list (string * GraphNode);
  edges : list Edge.t;
  metadata : Metadata
}.

(** [obj[k]] for a key the object owns ([None]: not an own key). *)
Fixpoint nodes_get (k : string) (l : list (string * GraphNode)) : option GraphNode :=
  match l with
  | [] => None
  | (k', v) :: rest => if String.eqb k' k then Some v else nodes_get k rest
  end.

(** [obj[k] = v]: a present key keeps its place. *)
Fixpoint nodes_set (k : string) (v : GraphNode) (l : list (string * GraphNode))
  : list (string * GraphNode) :=
  match l with
  | [] => [(k, v)]
  | (k', v') :: rest =>
      if String.eqb k' k then (k, v) :: rest else (k', v') :: nodes_set k v rest
  end.

(* ===================================================================== *)
(** ** src/impactAnalysis.js *)
(* ===================================================================== *)

Module Impact.
Record t := {
  id : string;
  type : string;
  zone : string;
  depth : nat;
  chain : string;
  file : string;
  name : string
}.
End Impact.

(** An entry of the traversal queue. *)
Record QueueEntry := { q_id : string; q_depth : nat; q_chain : list string }.

(** [set.add(x)] on an insertion-ordered [Set]. *)
Definition set_add (x : string) (s : list string) : list string :=
  if bool_decide (x ∈ s) then s else s ++ [x].

(** The reverse adjacency [Map]: callee key to the [Set] of callers. *)
Definition adj_get (adj : gmap string (list string)) (k : string) : list string :=
  default [] (adj !! k).

(** [if (!adj.has(k)) adj.set(k, new Set()); adj.get(k).add(caller)] *)
Definition adj_add (k caller : string) (adj : gmap string (list string))
  : gmap string (list string) :=
  <[k := set_add caller (adj_get adj k)]> adj.

(** [x.includes('::') ? x.split('::')[1] : x] *)
Definition shortName (x : string) : string :=
  if Js.includes "::" x then default x (Js.split_1 "::" x) else x.

(** The body of [graph.edges.forEach]. *)
Definition index_edge (adj : gmap string (list string)) (edge : Edge.t)
  : gmap string (list string) :=
  if String.eqb (Edge.type edge) "structural" then adj
  else
    match Edge.to edge with
    | None => adj
    | Some calleeId =>
        let callerId := Edge.from edge in
        let adj := adj_add calleeId callerId adj in
        let short := shortName calleeId in
        if negb (String.eqb short calleeId) then adj_add short callerId adj else adj
    end.

Definition build_adj (es : list Edge.t) : gmap string (list string) :=
  fold_left index_edge es ∅.

(** The [dependents] set of a queue entry, in iteration order. *)
Definition dependents_of (adj : gmap string (list string)) (id : string) : list string :=
  let dependents := fold_left (fun s dep => set_add dep s) (adj_get adj id) [] in
  let shortId := shortName id in
  if negb (String.eqb shortId id)
  then fold_left (fun s dep => set_add dep s) (adj_get adj shortId) dependents
  else dependents.

(** [a || b] on strings. *)
Definition or_else (a : option string) (b : string) : string :=
  match a with
  | Some x => if Js.truthy x then x else b
  | None => b
  end.

Definition arrow : string := " ➔ ".

(** The properties every plain object inherits from [Object.prototype]. *)
Definition OBJECT_PROTOTYPE : list string :=
  ["constructor"; "__defineGetter__"; "__defineSetter__"; "hasOwnProperty";
   "__lookupGetter__"; "__lookupSetter__"; "isPrototypeOf"; "propertyIsEnumerable";
   "toString"; "valueOf"; "__proto__"; "toLocaleString"].

(** [graph.nodes[k]?.name] for a key [k] that [graph.nodes] does not own:
    the read finds the properties of [Object.prototype].  These are
    functions named as their key, but for [constructor], which is the
    function [Object], and for [__proto__], which is the prototype itself
    and has no name.  None of them has a [type], a [zone] or a [file]. *)
Definition inherited_name (k : string) : option string :=
  if String.eqb k "constructor" then Some "Object"
  else if String.eqb k "__proto__" then None
  else if bool_decide (k ∈ OBJECT_PROTOTYPE) then Some k
  else None.

Definition make_impact (g : Graph) (depId : string) (depth : nat) (newChain : list string)
  : Impact.t :=
  let node := nodes_get depId (nodes g) in
  {| Impact.id := depId;
     Impact.type := or_else (node_type <$> node) "unresolved";
     Impact.zone := or_else (node_zone <$> node) "External/Unresolved";
     Impact.depth := depth + 1;
     Impact.chain := Js.join arrow newChain;
     Impact.file := or_else (node ≫= node_file) "N/A";
     Impact.name :=
       or_else (match node with
                | Some n => node_label n
                | None => inherited_name depId
                end) depId |}.

(** The mutable state of the traversal. *)
Record Bfs := {
  visited : gset string;
  queue : list QueueEntry;
  impacts : list Impact.t
}.

(** The body of [for (const depId of dependents)]. *)
Definition discover (g : Graph) (entry : QueueEntry) (st : Bfs) (depId : string) : Bfs :=
  if bool_decide (depId ∈ visited st) then st
  else
    let newChain := q_chain entry ++ [depId] in
    {| visited := {[depId]} ∪ visited st;
       impacts := impacts st ++ [make_impact g depId (q_depth entry) newChain];
       queue := queue st ++
                [{| q_id := depId; q_depth := q_depth entry + 1; q_chain := newChain |}] |}.

(** [while (queue.length > 0)]: one turn per unit of [fuel]; [None] when
    the fuel runs out before the queue does. *)
Fixpoint bfs (fuel : nat) (g : Graph) (adj : gmap string (list string)) (st : Bfs)
  : option (list Impact.t) :=
  match queue st with
  | [] => Some (impacts st)
  | entry :: rest =>
      match fuel with
      | O => None
      | S fuel' =>
          let st := {| visited := visited st; queue := rest; impacts := impacts st |} in
          bfs fuel' g adj
            (fold_left (discover g entry) (dependents_of adj (q_id entry)) st)
      end
  end.

(** Every turn takes one entry off the queue and every entry but the
    first was put there for a distinct [from] of an edge, so
    [1 + edges.length] turns are enough ([calculateBlastRadius_returns]). *)
Definition calculateBlastRadius (graph : Graph) (targetId : string)
  : option (list Impact.t) :=
  let adj := build_adj (edges graph) in
  bfs (S (length (edges graph))) graph adj
    {| visited := {[targetId]};
       queue := [{| q_id := targetId; q_depth := 0; q_chain := [targetId] |}];
       impacts := [] |}.

(* ===================================================================== *)
(** ** src/graphParser.js *)
(* ===================================================================== *)

Definition getArchitecturalZone (host : Host) (filePath projectRoot : string) : string :=
  let relPath := Js.slashes (path_relative host projectRoot filePath) in
  let has := fun s => Js.includes s relPath in
  if has "src/routes" || has "app/api" || has "pages/api" then "API Layer / Route Handlers"
  else if has "src/middleware" || has "middleware" then "Middleware"
  else if has "src/lib/db" || has "lib/db" then "Database Access Layer"
  else if has "src/lib/auth" || has "lib/auth" then "Authentication Layer"
  else if has "src/components" || has "components" || has "app" || has "pages"
       then "UI Component Layer"
  else if has "src/utils" || has "utils" then "Utility / Shared Logic"
  else if has "src/services" || has "services" then "Service / Business Logic Layer"
  else if has "src/workers" || has "workers" then "Worker Layer"
  else if Js.startsWith "src" relPath then "Application Core"
  else "Unknown Zone".

Definition EXTENSIONS : list string :=
  [".js"; ".jsx"; ".ts"; ".tsx"; ".mjs"; ".cjs"; ".svelte"].

(** [allProjectFiles.has(x)] *)
Definition has_file (allProjectFiles : list string) (x : string) : bool :=
  bool_decide (x ∈ allProjectFiles).

(** The three attempts made on a candidate path: with each extension,
    as it is, as a directory with an index file. *)
Definition resolve_candidate (host : Host) (allProjectFiles : list string)
  (potentialPath : string) : option string :=
  match find (fun ext => has_file allProjectFiles (potentialPath +:+ ext)) EXTENSIONS with
  | Some ext => Some (potentialPath +:+ ext)
  | None =>
      if has_file allProjectFiles potentialPath then Some potentialPath
      else
        match find (fun ext =>
                      has_file allProjectFiles
                        (path_join host potentialPath ("index" +:+ ext))) EXTENSIONS with
        | Some ext => Some (path_join host potentialPath ("index" +:+ ext))
        | None => None
        end
  end.

Definition ALIAS_PREFIXES : list string :=
  ["src/"; "app/"; "pages/"; "lib/"; "components/"; "utils/"].

Definition resolveImportPath (host : Host) (importerPath importedModule : string)
  (allProjectFiles : list string) (projectRoot : string) : option string :=
  let relative :=
    if Js.startsWith "." importedModule || Js.startsWith "/" importedModule
    then resolve_candidate host allProjectFiles
           (path_resolve host (path_dirname host importerPath) importedModule)
    else None in
  match relative with
  | Some found => Some found
  | None =>
      if existsb (fun prefix => Js.startsWith prefix importedModule) ALIAS_PREFIXES
      then resolve_candidate host allProjectFiles (path_join host projectRoot importedModule)
      else None
  end.

(** The suffixes a [replace(/...$/, '')] of [getRouteInfo] removes. *)
Definition suffixes (prefix : string) (stems exts : list string) : list string :=
  flat_map (fun stem => map (fun ext => prefix +:+ stem +:+ "." +:+ ext) exts) stems.

Definition SCRIPT_EXTS : list string := ["js"; "ts"; "jsx"; "tsx"].

(** ['/' + parts.replace(/suffix$/, '').replace(/\/$/, '') || fallback];
    [parts] is [undefined] when the path has no such separator, and
    reading [replace] of it throws. *)
Definition route_of (parts : option string) (sufs : list string) (fallback : string)
  : string + option string :=
  match parts with
  | None => inl (TypeError "undefined" "replace")
  | Some parts =>
      let route := "/" +:+ Js.strip_first_suffix ["/"] (Js.strip_first_suffix sufs parts) in
      inr (Some (if Js.truthy route then route else fallback))
  end.

(** [inr None] is the [null] of a file outside every routing convention. *)
Definition getRouteInfo (host : Host) (filePath projectRoot : string)
  : string + option string :=
  let relPath := Js.slashes (path_relative host projectRoot filePath) in
  if Js.includes "src/routes" relPath then
    route_of (Js.split_1 "src/routes/" relPath)
      (suffixes "/+" ["server"; "page"; "layout"] (SCRIPT_EXTS ++ ["svelte"])) "/"
  else if Js.includes "app/api" relPath then
    route_of (Js.split_1 "app/api/" relPath) (suffixes "/" ["route"] SCRIPT_EXTS) "/api/"
  else if Js.includes "pages/api" relPath then
    route_of (Js.split_1 "pages/api/" relPath) (map (fun ext => "." +:+ ext) SCRIPT_EXTS) "/api/"
  else if Js.includes "app" relPath then
    route_of (Js.split_1 "app/" relPath)
      (suffixes "/" ["page"; "layout"; "loading"; "error"] SCRIPT_EXTS) "/"
  else if Js.includes "pages" relPath then
    route_of (Js.split_1 "pages/" relPath) (map (fun ext => "." +:+ ext) SCRIPT_EXTS) "/"
  else inr None.

Definition HTTP_METHODS : list string :=
  ["GET"; "POST"; "PUT"; "DELETE"; "PATCH"; "HEAD"; "OPTIONS"].

(** The state the closures of [parseToGraph] share. *)
Record Builder := {
  graph : Graph;
  allProjectFiles : list string;
  fileToRelPathMap : gmap string string;
  processedFiles : gset string
}.

Definition initial_metadata : Metadata :=
  {| unresolved_files := 0; total_files := 0; total_imports := 0;
     resolved_imports := 0; max_depth_detected := 0; indirect_nodes_found := 0;
     analysis_limit_reached := false |}.

Definition with_graph (st : Builder) (g : Graph) : Builder :=
  {| graph := g; allProjectFiles := allProjectFiles st;
     fileToRelPathMap := fileToRelPathMap st; processedFiles := processedFiles st |}.

Definition with_metadata (st : Builder) (m : Metadata) : Builder :=
  with_graph st {| nodes := nodes (graph st); edges := edges (graph st); metadata := m |}.

(** [graph.nodes[k] = v] *)
Definition set_node (k : string) (v : GraphNode) (st : Builder) : Builder :=
  with_graph st {| nodes := nodes_set k v (nodes (graph st));
                   edges := edges (graph st); metadata := metadata (graph st) |}.

(** [graph.edges.push(...)] *)
Definition push_edges (es : list Edge.t) (st : Builder) : Builder :=
  with_graph st {| nodes := nodes (graph st); edges := edges (graph st) ++ es;
                   metadata := metadata (graph st) |}.

Definition count_file (st : Builder) : Builder :=
  let m := metadata (graph st) in
  with_metadata st
    {| unresolved_files := unresolved_files m; total_files := total_files m + 1;
       total_imports := total_imports m; resolved_imports := resolved_imports m;
       max_depth_detected := max_depth_detected m;
       indirect_nodes_found := indirect_nodes_found m;
       analysis_limit_reached := analysis_limit_reached m |}.

Definition count_unresolved_file (st : Builder) : Builder :=
  let m := metadata (graph st) in
  with_metadata st
    {| unresolved_files := unresolved_files m + 1; total_files := total_files m;
       total_imports := total_imports m; resolved_imports := resolved_imports m;
       max_depth_detected := max_depth_detected m;
       indirect_nodes_found := indirect_nodes_found m;
       analysis_limit_reached := analysis_limit_reached m |}.

Definition count_import (st : Builder) : Builder :=
  let m := metadata (graph st) in
  with_metadata st
    {| unresolved_files := unresolved_files m; total_files := total_files m;
       total_imports := total_imports m + 1; resolved_imports := resolved_imports m;
       max_depth_detected := max_depth_detected m;
       indirect_nodes_found := indirect_nodes_found m;
       analysis_limit_reached := analysis_limit_reached m |}.

Definition count_resolved_import (st : Builder) : Builder :=
  let m := metadata (graph st) in
  with_metadata st
    {| unresolved_files := unresolved_files m; total_files := total_files m;
       total_imports := total_imports m; resolved_imports := resolved_imports m + 1;
       max_depth_detected := max_depth_detected m;
       indirect_nodes_found := indirect_nodes_found m;
       analysis_limit_reached := analysis_limit_reached m |}.

Definition dependency_edge (from to kind : string) (callPath : option SourceLocation)
  : Edge.t :=
  {| Edge.from := from; Edge.to := Some to; Edge.type := "dependency";
     Edge.kind := Some kind; Edge.callPath := callPath |}.

Definition structural_edge (from to : string) : Edge.t :=
  {| Edge.from := from; Edge.to := Some to; Edge.type := "structural";
     Edge.kind := None; Edge.callPath := None |}.

(** [/\.(js|ts|jsx|tsx|svelte|mjs|cjs)$/] *)
Definition is_source_file (name : string) : bool :=
  existsb (fun ext => Js.endsWith ext name)
    [".js"; ".ts"; ".jsx"; ".tsx"; ".svelte"; ".mjs"; ".cjs"].

Definition EXCLUDED_DIRS : list string := ["node_modules"; ".git"; "dist"; ".svelte-kit"].

(** What a visitor leaves behind: the state, and the error it threw. *)
Definition Visit : Type := Builder * option string.

Section parseToGraph.

Variable host : Host.
Variable projectRoot : string.
Variable graphMode : string.

(** [collectFiles(dir)] over the entries [readdirSync(dir)] returned;
    [None] when a directory below cannot be read (the error leaves
    [parseToGraph]). *)
Fixpoint collect_entry (dir : string) (file : Dirent)
  (acc : list string * gmap string string) {struct file}
  : option (list string * gmap string string) :=
  match file with
  | DirEntry name listing =>
      if bool_decide (name ∈ EXCLUDED_DIRS) then Some acc
      else
        match listing with
        | None => None
        | Some files =>
            let fullPath := path_join host dir name in
            (fix collect_entries (files : list Dirent)
               (acc : list string * gmap string string) {struct files} :=
               match files with
               | [] => Some acc
               | file :: rest =>
                   match collect_entry fullPath file acc with
                   | Some acc' => collect_entries rest acc'
                   | None => None
                   end
               end) files acc
        end
  | FileEntry name =>
      if negb (is_source_file name) then Some acc
      else
        let fullPath := path_join host dir name in
        Some (set_add fullPath acc.1,
              <[fullPath := path_relative host projectRoot fullPath]> acc.2)
  end.

Fixpoint collect_entries (dir : string) (files : list Dirent)
  (acc : list string * gmap string string)
  : option (list string * gmap string string) :=
  match files with
  | [] => Some acc
  | file :: rest =>
      match collect_entry dir file acc with
      | Some acc' => collect_entries dir rest acc'
      | None => None
      end
  end.

Definition collectFiles (dir : string) : option (list string * gmap string string) :=
  match readdirSync host dir with
  | None => None
  | Some files => collect_entries dir files ([], ∅)
  end.

(** The display form of a parameter. *)
Definition parameter_name (param : node) : string :=
  match param with
  | Identifier x => x
  | AssignmentPattern (Identifier x) _ => x
  | RestElement (Identifier x) => "..." +:+ x
  | _ => "unknown"
  end.

Definition node_params (n : node) : list node :=
  match n with
  | FunctionDeclaration _ _ ps _ | FunctionExpression _ _ ps _
  | ArrowFunctionExpression _ ps _ | ObjectMethod _ _ ps _ => ps
  | _ => []
  end.

(** The name of a function-like node ([None]: no name found); reading
    the parent of a root path throws. *)
Definition function_name (p : NodePath) : string + option string :=
  match path_node p with
  | FunctionDeclaration _ (Some i) _ _ => inr (node_name i)
  | n =>
      match parentPath p with
      | None => inl (TypeError "null" "node")
      | Some parent =>
          match path_node parent, n with
          | VariableDeclarator (Identifier x) _, _ => inr (Some x)
          | ObjectProperty (Identifier x) _, _ => inr (Some x)
          | _, ObjectMethod _ (Identifier x) _ _ => inr (Some x)
          | _, _ => inr None
          end
      end
  end.

(** The name an assignment [obj.prop = function ...] gives. *)
Definition assigned_name (parent : node) : option string :=
  match parent with
  | AssignmentExpression (MemberExpression _ (Identifier x)) _ => Some x
  | _ => None
  end.

(** The call edges [p.traverse({CallExpression ...})] pushes. *)
Definition call_edges (nodeId : string) (p : NodePath) : list Edge.t :=
  flat_map
    (fun innerP =>
       match path_node innerP with
       | CallExpression loc callee _ =>
           match callee_name callee with
           | Some calleeName =>
               if Js.truthy calleeName
               then [dependency_edge nodeId calleeName "call" loc]
               else []
           | None => []
           end
       | _ => []
       end)
    (path_traverse p).

(** Records a function or API node with its structural and call edges. *)
Definition declare (relPath nodeId : string) (n : GraphNode) (p : NodePath)
  (st : Builder) : Builder :=
  push_edges (structural_edge relPath nodeId :: call_edges nodeId p)
    (set_node nodeId n st).

(** What the function visitor makes of the function at [p] up to the
    line that writes [graph.nodes[nodeId]]: the identifier and the node
    ([inr None]: no name is found, the visitor returns; [inl]: it
    throws). *)
Definition declaration (fullPath relPath : string) (p : NodePath)
  : string + option (string * GraphNode) :=
  match function_name p with
  | inl err => inl err
  | inr name =>
      let parameters := map parameter_name (node_params (path_node p)) in
      let returnType := "any" in
      let isAsync := node_async (path_node p) in
      match getRouteInfo host fullPath projectRoot with
      | inl err => inl err
      | inr route =>
          let zone := getArchitecturalZone host fullPath projectRoot in
          let named := match name with Some x => Js.truthy x | None => false end in
          let routed := match route with Some r => Js.truthy r | None => false end in
          let isApi :=
            named && routed &&
            bool_decide (toUpperCase host (default "" name) ∈ HTTP_METHODS) in
          if isApi then
            let NAME := toUpperCase host (default "" name) in
            let nodeId := NAME +:+ " " +:+ default "" route in
            inr (Some (nodeId,
                       ApiNode NAME relPath (default "" route) zone parameters
                         returnType isAsync))
          else if named then
            let nodeId := relPath +:+ "::" +:+ default "" name in
            inr (Some (nodeId,
                       FunctionNode (default "" name) relPath zone parameters
                         returnType isAsync))
          else
            match parentPath p with
            | None => inl (TypeError "null" "node")
            | Some parent =>
                match assigned_name (path_node parent) with
                | Some x =>
                    let nodeId := relPath +:+ "::" +:+ x in
                    inr (Some (nodeId,
                               FunctionNode x relPath zone parameters returnType isAsync))
                | None => inr None
                end
            end
      end
  end.

(** The visitor of function declarations, arrow functions, function
    expressions and object methods. *)
Definition visit_function (fullPath relPath : string) (p : NodePath) (st : Builder)
  : Visit :=
  match declaration fullPath relPath p with
  | inl err => (st, Some err)
  | inr (Some (nodeId, n)) => (declare relPath nodeId n p st, None)
  | inr None => (st, None)
  end.

(** The common body of the import, named re-export and barrel export
    visitors; [recurse] is [processFile], [None] when it ran out of fuel. *)
Definition visit_import (recurse : string -> Builder -> option Builder)
  (fullPath relPath kind importedModule : string) (st : Builder) : option Visit :=
  let st := count_import st in
  match resolveImportPath host fullPath importedModule (allProjectFiles st) projectRoot with
  | Some resolvedAbsPath =>
      if Js.truthy resolvedAbsPath then
        match fileToRelPathMap st !! resolvedAbsPath with
        | Some relResolvedPath =>
            if Js.truthy relResolvedPath then
              let st := count_resolved_import st in
              let st := push_edges [dependency_edge relPath relResolvedPath kind None] st in
              if String.eqb graphMode "FULL"
                 && negb (bool_decide (resolvedAbsPath ∈ processedFiles st))
              then match recurse resolvedAbsPath st with
                   | Some st' => Some (st', None)
                   | None => None
                   end
              else Some (st, None)
            else Some (st, None)
        | None => Some (st, None)
        end
      else
        Some (push_edges
                [dependency_edge relPath importedModule (kind +:+ "_external") None] st,
              None)
  | None =>
      Some (push_edges
              [dependency_edge relPath importedModule (kind +:+ "_external") None] st,
            None)
  end.

(** The visitor object handed to [babelTraverse], applied to one path. *)
Definition visit (recurse : string -> Builder -> option Builder)
  (fullPath relPath : string) (p : NodePath) (st : Builder) : option Visit :=
  match path_node p with
  | ImportDeclaration _ source =>
      visit_import recurse fullPath relPath "import" source st
  | ExportNamedDeclaration _ _ (Some source) =>
      visit_import recurse fullPath relPath "re_export" source st
  | ExportAllDeclaration source =>
      visit_import recurse fullPath relPath "barrel_export" source st
  | FunctionDeclaration _ _ _ _ | ArrowFunctionExpression _ _ _
  | FunctionExpression _ _ _ _ | ObjectMethod _ _ _ _ =>
      Some (visit_function fullPath relPath p st)
  | _ => Some (st, None)
  end.

(** The traversal stops at the first error. *)
Fixpoint visit_all (recurse : string -> Builder -> option Builder)
  (fullPath relPath : string) (ps : list NodePath) (st : Builder) : option Visit :=
  match ps with
  | [] => Some (st, None)
  | p :: rest =>
      match visit recurse fullPath relPath p st with
      | None => None
      | Some (st', Some err) => Some (st', Some err)
      | Some (st', None) => visit_all recurse fullPath relPath rest st'
      end
  end.

(** What the [try] block has when the first visitor is called: the
    script to walk ([inr None]: a Svelte file without script, the early
    [return]); reading, parsing and the start of the traversal can throw. *)
Definition load (fullPath : string) : string + option node :=
  match readFileSync host fullPath with
  | inl message => inl message
  | inr code =>
      let svelte := Js.endsWith ".svelte" fullPath in
      let code := if svelte then extractScriptContent code else code in
      if svelte && Js.blank code then inr None
      else
        match parse host code with
        | inl message => inl message
        | inr body =>
            match traverse_error host (Program body) with
            | Some message => inl message
            | None => inr (Some (Program body))
            end
        end
  end.

(** The statements of [processFile] before its [try].  A file that is
    processed is registered in [fileToRelPathMap] ([processFile_registered]);
    were it not, [relPath] would be [undefined], which the model writes
    as the string it becomes as a property key. *)
Definition relPath_of (st : Builder) (fullPath : string) : string :=
  default "undefined" (fileToRelPathMap st !! fullPath).

(** [relPath] is truthy. *)
Definition registered (st : Builder) (fullPath : string) : bool :=
  match fileToRelPathMap st !! fullPath with
  | Some relPath => Js.truthy relPath
  | None => false
  end.

Definition enter_file (fullPath : string) (st : Builder) : Builder :=
  let relPath := relPath_of st fullPath in
  let st :=
    {| graph := graph st;
       allProjectFiles :=
         if registered st fullPath then allProjectFiles st
         else set_add fullPath (allProjectFiles st);
       fileToRelPathMap :=
         if registered st fullPath then fileToRelPathMap st
         else <[fullPath := path_relative host projectRoot fullPath]> (fileToRelPathMap st);
       processedFiles := {[fullPath]} ∪ processedFiles st |} in
  set_node relPath
    (ModuleNode relPath (getArchitecturalZone host fullPath projectRoot))
    (count_file st).

(** [processFile]; the recursion through imports is at most as deep as
    there are files, which [fuel] bounds ([None]: not enough fuel). *)
Fixpoint processFile (fuel : nat) (fullPath : string) (st : Builder) : option Builder :=
  if bool_decide (fullPath ∈ processedFiles st) then Some st
  else
    match fuel with
    | O => None
    | S fuel' =>
        let relPath := relPath_of st fullPath in
        let st := enter_file fullPath st in
        match load fullPath with
        | inl _ => Some (count_unresolved_file st)
        | inr None => Some st
        | inr (Some ast) =>
            match visit_all (processFile fuel') fullPath relPath (babelTraverse ast) st with
            | None => None
            | Some (st', Some _) => Some (count_unresolved_file st')
            | Some (st', None) => Some st'
            end
        end
    end.

(** [for (const filePath of allProjectFiles) processFile(filePath)] *)
Fixpoint process_all (fuel : nat) (files : list string) (st : Builder) : option Builder :=
  match files with
  | [] => Some st
  | filePath :: rest =>
      match processFile fuel filePath st with
      | Some st' => process_all fuel rest st'
      | None => None
      end
  end.

End parseToGraph.

(** *** The reachability post-pass *)

(** [adjList]: [from] to the array of [to] values, in edge order. *)
Definition forward_adj (es : list Edge.t) : gmap string (list (option string)) :=
  fold_left
    (fun adjList edge =>
       <[Edge.from edge := default [] (adjList !! Edge.from edge) ++ [Edge.to edge]]> adjList)
    es ∅.

(** The root modules the traversal starts from, in key order. *)
Definition root_modules (g : Graph) : list string :=
  let allTargets := map Edge.to (edges g) in
  let rootNodes :=
    filter (fun k =>
              bool_decide (Some k ∉ allTargets
                           ∨ (node_type <$> nodes_get k (nodes g)) = Some "module"))
      (map fst (nodes g)) in
  filter (fun k => bool_decide ((node_type <$> nodes_get k (nodes g)) = Some "module"))
    rootNodes.

Record Reach := {
  r_visited : gset (option string);
  r_queue : list (option string * nat);
  maxDepth : nat;
  indirectNodes : nat
}.

(** The body of [for (const neighbor of adjList.get(id))]. *)
Definition reach_neighbor (depth : nat) (st : Reach) (neighbor : option string) : Reach :=
  if bool_decide (neighbor ∈ r_visited st) then st
  else
    {| r_visited := {[neighbor]} ∪ r_visited st;
       r_queue := r_queue st ++ [(neighbor, depth + 1)];
       maxDepth := maxDepth st;
       indirectNodes :=
         if (1 <? depth + 1)%nat then indirectNodes st + 1 else indirectNodes st |}.

Definition neighbors_of (adjList : gmap string (list (option string)))
  (id : option string) : list (option string) :=
  match id with
  | Some k => default [] (adjList !! k)
  | None => []
  end.

Fixpoint reach (fuel : nat) (adjList : gmap string (list (option string))) (st : Reach)
  : option Reach :=
  match r_queue st with
  | [] => Some st
  | (id, depth) :: rest =>
      match fuel with
      | O => None
      | S fuel' =>
          let st := {| r_visited := r_visited st; r_queue := rest;
                       maxDepth := Nat.max (maxDepth st) depth;
                       indirectNodes := indirectNodes st |} in
          reach fuel' adjList (fold_left (reach_neighbor depth) (neighbors_of adjList id) st)
      end
  end.

(** The metadata the post-pass writes.  Every turn of its loop takes an
    entry off the queue, which holds the root modules and then one entry
    for each distinct [to] reached: [nodes + edges] turns are enough. *)
Definition reachability (graphMode : string) (g : Graph) : option Graph :=
  let roots := root_modules g in
  match reach (length (nodes g) + length (edges g)) (forward_adj (edges g))
          {| r_visited := list_to_set (Some <$> roots);
             r_queue := map (fun k => (Some k, 0)) roots;
             maxDepth := 0; indirectNodes := 0 |} with
  | None => None
  | Some r =>
      let m := metadata g in
      Some {| nodes := nodes g; edges := edges g;
              metadata :=
                {| unresolved_files := unresolved_files m;
                   total_files := total_files m;
                   total_imports := total_imports m;
                   resolved_imports := resolved_imports m;
                   max_depth_detected := maxDepth r;
                   indirect_nodes_found := indirectNodes r;
                   analysis_limit_reached :=
                     String.eqb graphMode "FAST" && (maxDepth r =? 1)%nat |} |}
  end.

(** How a run of the builder ends. *)
Inductive Outcome : Type :=
| Returns (graph : Graph)
| Throws                    (* a directory could not be read *)
| OutOfFuel.                (* never, see [parseToGraph_fuel] *)

Definition empty_graph : Graph :=
  {| nodes := []; edges := []; metadata := initial_metadata |}.

Definition parseToGraph (host : Host) (targetPath graphMode : string) : Outcome :=
  let projectRoot := path_resolve1 host targetPath in
  match collectFiles host projectRoot projectRoot with
  | None => Throws
  | Some (files, relPaths) =>
      let st := {| graph := empty_graph; allProjectFiles := files;
                   fileToRelPathMap := relPaths; processedFiles := ∅ |} in
      match process_all host projectRoot graphMode (length files) files st with
      | None => OutOfFuel
      | Some st' =>
          match reachability graphMode (graph st') with
          | Some g => Returns g
          | None => OutOfFuel
          end
      end
  end.

(* ===================================================================== *)
(** ** A concrete host: POSIX paths and an in-memory project *)
(* ===================================================================== *)

Module Posix.

(** The segments of a path between slashes. *)
Fixpoint segments_from (current : string) (s : string) : list string :=
  match s with
  | EmptyString => [current]
  | String c s' =>
      if Ascii.eqb c "/"%char then current :: segments_from "" s'
      else segments_from (current +:+ String c "") s'
  end.

Definition segments (s : string) : list string := segments_from "" s.

Definition isAbsolute (s : string) : bool := Js.startsWith "/" s.

(** Resolves [.] and [..]; [stack] holds the segments kept so far,
    innermost first. *)
Fixpoint normalize_segments (absolute : bool) (stack : list string) (segs : list string)
  : list string :=
  match segs with
  | [] => rev stack
  | seg :: rest =>
      if String.eqb seg "" || String.eqb seg "." then normalize_segments absolute stack rest
      else if String.eqb seg ".." then
        match stack with
        | top :: below =>
            if String.eqb top ".." then normalize_segments absolute (seg :: stack) rest
            else normalize_segments absolute below rest
        | [] =>
            if absolute then normalize_segments absolute [] rest
            else normalize_segments absolute [seg] rest
        end
      else normalize_segments absolute (seg :: stack) rest
  end.

Definition normalize_body (s : string) : string :=
  Js.join "/" (normalize_segments (isAbsolute s) [] (segments s)).

(** The normal form [path.resolve] returns: no trailing slash. *)
Definition normalize (s : string) : string :=
  let body := normalize_body s in
  if isAbsolute s then "/" +:+ body
  else if String.eqb body "" then "." else body.

(** [path.normalize]: a trailing slash is kept. *)
Definition path_normalize (s : string) : string :=
  let body := normalize_body s in
  let trailing := Js.endsWith "/" s in
  if String.eqb s "" then "."
  else if String.eqb body "" then
    (if isAbsolute s then "/" else if trailing then "./" else ".")
  else (if isAbsolute s then "/" else "") +:+ body +:+ (if trailing then "/" else "").

(** [path.resolve(a, b)] for an absolute [a]. *)
Definition resolve (a b : string) : string :=
  if isAbsolute b then normalize b
  else if String.eqb b "" then normalize a
  else normalize (a +:+ "/" +:+ b).

(** [path.join(a, b)] *)
Definition join (a b : string) : string :=
  if String.eqb a "" then (if String.eqb b "" then "." else path_normalize b)
  else if String.eqb b "" then path_normalize a
  else path_normalize (a +:+ "/" +:+ b).

Fixpoint drop_common (a b : list string) : list string * list string :=
  match a, b with
  | x :: a', y :: b' => if String.eqb x y then drop_common a' b' else (a, b)
  | _, _ => (a, b)
  end.

(** [path.relative] of two absolute paths. *)
Definition relative (from to : string) : string :=
  let '(up, down) :=
    drop_common (normalize_segments true [] (segments from))
                (normalize_segments true [] (segments to)) in
  Js.join "/" (map (fun _ => "..") up ++ down).

Fixpoint drop_slashes (l : list ascii) : list ascii :=
  match l with
  | c :: rest => if Ascii.eqb c "/"%char then drop_slashes rest else l
  | [] => []
  end.

Fixpoint drop_name (l : list ascii) : list ascii :=
  match l with
  | c :: rest => if Ascii.eqb c "/"%char then l else drop_name rest
  | [] => []
  end.

(** [path.dirname]: the path up to the slash before its last segment,
    found from the end after the trailing slashes; the first character
    is never cut. *)
Definition dirname (s : string) : string :=
  match s with
  | EmptyString => "."
  | String first rest =>
      match drop_name (drop_slashes (rev (list_ascii_of_string rest))) with
      | [] => if isAbsolute s then "/" else "."
      | _ :: above =>
          match above with
          | [] => if isAbsolute s then "//" else String first ""
          | _ => String first (string_of_list_ascii (rev above))
          end
      end
  end.

(** A host over POSIX paths with working directory [cwd], the listing
    [root] of the directory [rootPath], and the files and parse results
    given as tables. *)
Definition lookup {A : Type} (table : list (string * A)) (k : string) : option A :=
  snd <$> find (fun entry => String.eqb (fst entry) k) table.

Definition host (cwd rootPath : string) (root : list Dirent)
  (files : list (string * string)) (asts : list (string * list node)) : Host :=
  {| toUpperCase := Js.toUpperCase;
     path_resolve1 := resolve cwd;
     path_resolve := fun a b => resolve (resolve cwd a) b;
     path_join := join;
     path_relative := fun from to => relative (resolve cwd from) (resolve cwd to);
     path_dirname := dirname;
     existsSync := fun p => bool_decide (is_Some (lookup files p));
     readFileSync := fun p =>
       match lookup files p with
       | Some code => inr code
       | None => inl ("ENOENT: no such file or directory, open '" +:+ p +:+ "'")
       end;
     readdirSync := fun p => if String.eqb p rootPath then Some root else None;
     parse := fun code =>
       match lookup asts code with
       | Some body => inr body
       | None => inl "Unexpected token"
       end;
     traverse_error := fun _ => None |}.

End Posix.

(** *** The two-file project of the end-to-end scenario *)

Module Scenario.

Definition a_js : string := "export function foo() {}".
Definition b_js : string := "import { foo } from './a.js'; function bar() { foo(); }".

Definition a_ast : list node :=
  [ExportNamedDeclaration
     (Some (FunctionDeclaration false (Some (Identifier "foo")) []
              (Other "BlockStatement" [])))
     [] None].

Definition foo_call_loc : SourceLocation :=
  {| loc_start := {| line := 1; column := 47 |};
     loc_end := {| line := 1; column := 52 |} |}.

Definition b_ast : list node :=
  [ImportDeclaration
     [Other "ImportSpecifier" [Identifier "foo"; Identifier "foo"]] "./a.js";
   FunctionDeclaration false (Some (Identifier "bar")) []
     (Other "BlockStatement"
        [Other "ExpressionStatement"
           [CallExpression (Some foo_call_loc) (Identifier "foo") []]])].

Definition project : Host :=
  Posix.host "/" "/proj" [FileEntry "a.js"; FileEntry "b.js"]
    [("/proj/a.js", a_js); ("/proj/b.js", b_js)]
    [(a_js, a_ast); (b_js, b_ast)].

End Scenario.

(** *** A call inside a plain function nested in an async one *)

Module Nested.

Definition c_js : string :=
  "async function outer() { function inner() { foo(); } }".

Definition foo_call : node := CallExpression None (Identifier "foo") [].

Definition inner : node :=
  FunctionDeclaration false (Some (Identifier "inner")) []
    (Other "BlockStatement" [Other "ExpressionStatement" [foo_call]]).

Definition c_ast : list node :=
  [FunctionDeclaration true (Some (Identifier "outer")) []
     (Other "BlockStatement" [inner])].

Definition project : Host :=
  Posix.host "/" "/proj" [FileEntry "c.js"] [("/proj/c.js", c_js)] [(c_js, c_ast)].

End Nested.

(* ===================================================================== *)
(** ** Specification-side notions *)
(* ===================================================================== *)

(** The flags of a record, when it is the analysis of a call site. *)
Definition record_flags (r : SafetyRecord) : option safetyFlags :=
  match r with
  | Analysis _ _ _ _ flags _ => Some flags
  | Note _ _ _ => None
  end.

Definition record_probabilities (r : SafetyRecord) : option safetyProbabilities :=
  match r with
  | Analysis _ _ _ _ _ probabilities => Some probabilities
  | Note _ _ _ => None
  end.

(** The syntax nodes around a call site, innermost first. *)
Definition enclosing (p : NodePath) : list node :=
  match parentPath p with
  | Some parent => path_node <$> upward parent
  | None => []
  end.

Definition isAsyncFunction (n : node) : bool := isFunctionLike n && node_async n.

(** The reading of the specification: the first enclosing function-like
    construct decides. *)
Definition first_enclosing_function_async (p : NodePath) : bool :=
  match find isFunctionLike (enclosing p) with
  | Some f => node_async f
  | None => false
  end.

(** Every analysis record comes from [call_site_flags] at a call
    expression of the traversed tree whose callee is the target. *)
Definition analysis_of (filePath target : string) (p : NodePath) (flags : safetyFlags)
  : SafetyRecord :=
  Analysis filePath (loc_line (path_node p)) (loc_column (path_node p)) target flags
    (calculateSafetyProbabilities flags).

(** The six flags in their safest configuration. *)
Definition safest_flags : safetyFlags :=
  {| hasTryCatch := true; hasNullCheck := true; isDestructuredImmediately := false;
     assumedExists := false; isAsyncCall := false; isOptionalChaining := true |}.

#[local] Arguments babelTraverse : simpl never.


(** The path of the call [foo()] in [Nested.c_ast]. *)
Definition nested_call_path : NodePath :=
  let program := MkPath (Program Nested.c_ast) [] None in
  let outer :=
    MkPath (FunctionDeclaration true (Some (Identifier "outer")) []
              (Other "BlockStatement" [Nested.inner]))
      [("children", 0)] (Some program) in
  let outer_body :=
    MkPath (Other "BlockStatement" [Nested.inner])
      [("children", 0); ("body", 0)] (Some outer) in
  let inner :=
    MkPath Nested.inner [("children", 0); ("body", 0); ("children", 0)]
      (Some outer_body) in
  let inner_body :=
    MkPath (Other "BlockStatement" [Other "ExpressionStatement" [Nested.foo_call]])
      [("children", 0); ("body", 0); ("children", 0); ("body", 0)] (Some inner) in
  let statement :=
    MkPath (Other "ExpressionStatement" [Nested.foo_call])
      [("children", 0); ("body", 0); ("children", 0); ("body", 0); ("children", 0)]
      (Some inner_body) in
  MkPath Nested.foo_call
    [("children", 0); ("body", 0); ("children", 0); ("body", 0); ("children", 0);
     ("children", 0)]
    (Some statement).

Definition nested_call_flags : safetyFlags :=
  {| hasTryCatch := false; hasNullCheck := false; isDestructuredImmediately := false;
     assumedExists := true; isAsyncCall := true; isOptionalChaining := false |}.

(** *** A call whose result is read through optional chaining *)

Module Chained.

Definition d_js : string := "function g() { return foo()?.bar; }".

Definition d_ast : list node :=
  [FunctionDeclaration false (Some (Identifier "g")) []
     (Other "BlockStatement"
        [Other "ReturnStatement"
           [OptionalMemberExpression (CallExpression None (Identifier "foo") [])
              (Identifier "bar")]])].

Definition project : Host :=
  Posix.host "/" "/proj" [FileEntry "d.js"] [("/proj/d.js", d_js)] [(d_js, d_ast)].

Definition flags : safetyFlags :=
  {| hasTryCatch := false; hasNullCheck := true; isDestructuredImmediately := false;
     assumedExists := false; isAsyncCall := false; isOptionalChaining := true |}.

Definition record : SafetyRecord :=
  Analysis "/proj/d.js" None None "foo" flags (calculateSafetyProbabilities flags).

End Chained.

(** *** The traversal, as the specification describes it *)

Definition entry_of (q : QueueEntry) : string * nat := (q_id q, q_depth q).

(** The entries the traversal takes off its queue, in order: the target
    at depth 0, then one entry per impact. *)
Definition trail (targetId : string) (l : list Impact.t) : list (string * nat) :=
  (targetId, 0) :: ((fun i => (Impact.id i, Impact.depth i)) <$> l).

(** The impact [i], at index [k] of the list, was discovered by the
    first entry of the trail that has it among its dependents, and lies
    one level deeper than that entry. *)
Definition found_by (adj : gmap string (list string)) (t : list (string * nat))
  (k : nat) (i : Impact.t) : Prop :=
  exists j parent,
    j <= k /\ t !! j = Some parent
    /\ Impact.id i ∈ dependents_of adj parent.1
    /\ Impact.depth i = S parent.2
    /\ forall j' earlier,
         j' < j -> t !! j' = Some earlier ->
         Impact.id i ∉ dependents_of adj earlier.1.

(** The loop invariant: [done] are the entries already taken off the
    queue [q]. *)
Record bfs_inv (targetId : string) (adj : gmap string (list string))
  (done : list (string * nat)) (q : list QueueEntry)
  (seen : gset string) (found : list Impact.t) : Prop := {
  inv_trail : trail targetId found = done ++ (entry_of <$> q);
  inv_visited : forall x, x ∈ seen <-> x ∈ (trail targetId found).*1;
  inv_nodup : NoDup (trail targetId found).*1;
  inv_closed : forall d x, d ∈ done -> x ∈ dependents_of adj d.1 -> x ∈ seen;
  inv_found : forall k i, found !! k = Some i -> found_by adj (trail targetId found) k i
}.

(** What remains to be done: the callers not yet visited and the
    entries still queued. *)
Definition bfs_measure (callers : gset string) (st : Bfs) : nat :=
  size (callers ∖ visited st) + length (queue st).

Definition callers_of (es : list Edge.t) : gset string := list_to_set (Edge.from <$> es).

(** An edge is indexed when it is not structural and has a callee. *)
Definition indexed_under (e : Edge.t) (k : string) : Prop :=
  Edge.type e <> "structural"
  /\ exists calleeId, Edge.to e = Some calleeId /\ (k = calleeId \/ k = shortName calleeId).


(** *** A graph with structural edges only *)

Definition structural_only : Graph :=
  {| nodes := [("a.js", ModuleNode "a.js" "Unknown Zone");
               ("a.js::foo", FunctionNode "foo" "a.js" "Unknown Zone" [] "any" false)];
     edges := [structural_edge "a.js" "a.js::foo"];
     metadata := initial_metadata |}.

(** *** The graph of the dual-key example *)

Definition dual_key_edge : Edge.t := dependency_edge "file2.ext::caller" "foo" "call" None.

Definition dual_key_graph : Graph :=
  {| nodes := [("file1.ext::foo",
                FunctionNode "foo" "file1.ext" "Unknown Zone" [] "any" false)];
     edges := [dual_key_edge];
     metadata := initial_metadata |}.

(** *** Syntax trees, structurally *)

Definition option_list {A : Type} (o : option A) : list A :=
  match o with
  | Some a => [a]
  | None => []
  end.

(** The children of a node, in visiting order. *)
Definition children (n : node) : list node :=
  match n with
  | Identifier _ | NullLiteral | StringLiteral _ => []
  | CallExpression _ c a => c :: a
  | OptionalCallExpression c a => c :: a
  | MemberExpression o p => [o; p]
  | OptionalMemberExpression o p => [o; p]
  | AwaitExpression a => [a]
  | VariableDeclarator i o => i :: option_list o
  | ObjectPattern ps => ps
  | ArrayPattern es => es
  | AssignmentPattern l r => [l; r]
  | RestElement a => [a]
  | AssignmentExpression l r => [l; r]
  | BinaryExpression _ l r => [l; r]
  | LogicalExpression _ l r => [l; r]
  | UnaryExpression _ a => [a]
  | ConditionalExpression t c a => [t; c; a]
  | IfStatement t c a => t :: c :: option_list a
  | TryStatement b h f => b :: option_list h ++ option_list f
  | FunctionDeclaration _ i ps b => option_list i ++ ps ++ [b]
  | FunctionExpression _ i ps b => option_list i ++ ps ++ [b]
  | ArrowFunctionExpression _ ps b => ps ++ [b]
  | ObjectMethod _ k ps b => k :: ps ++ [b]
  | ObjectProperty k v => [k; v]
  | ImportDeclaration ss _ => ss
  | ExportNamedDeclaration d ss _ => option_list d ++ ss
  | ExportAllDeclaration _ => []
  | Other _ ks => ks
  end.

Definition has_parent (p : NodePath) : Prop := is_Some (parentPath p).

(** *** The builder, as the proofs see it *)

(** The environment of a run: what [collectFiles] found stays as it
    is, and only collected files get processed. *)
Definition stable (files : list string) (relPaths : gmap string string)
  (st : Builder) : Prop :=
  allProjectFiles st = files
  /\ fileToRelPathMap st = relPaths
  /\ processedFiles st ⊆ list_to_set files.

(** What [collectFiles] builds: a duplicate-free list of files, each
    registered under its path relative to the project root. *)
Definition collected (host : Host) (projectRoot : string)
  (acc : list string * gmap string string) : Prop :=
  NoDup acc.1
  /\ forall f, f ∈ acc.1 -> acc.2 !! f = Some (path_relative host projectRoot f).

(** The node a function-like construct of file [f] is recorded as, and
    its identifier. *)
Definition node_shape (host : Host) (projectRoot f : string)
  (nodeId : string) (n : GraphNode) : Prop :=
  (exists NAME route zone parameters returnType isAsync,
      getRouteInfo host f projectRoot = inr (Some route)
      /\ n = ApiNode NAME (path_relative host projectRoot f) route zone
               parameters returnType isAsync
      /\ nodeId = NAME +:+ " " +:+ route)
  \/ (exists name zone parameters returnType isAsync,
        n = FunctionNode name (path_relative host projectRoot f) zone
              parameters returnType isAsync
        /\ nodeId = path_relative host projectRoot f +:+ "::" +:+ name).

(** The files still to be processed. *)
Definition pending (files : list string) (st : Builder) : nat :=
  size ((list_to_set files : gset string) ∖ processedFiles st).

(** What remains of the post-pass: the edge targets not yet visited and
    the entries still queued. *)
Definition reach_measure (targets : gset (option string)) (st : Reach) : nat :=
  size (targets ∖ r_visited st) + length (r_queue st).

Definition targets_of (es : list Edge.t) : gset (option string) :=
  list_to_set (Edge.to <$> es).

(** The state [processFile] starts from. *)
Definition initial_builder (files : list string) (relPaths : gmap string string)
  : Builder :=
  {| graph := empty_graph; allProjectFiles := files;
     fileToRelPathMap := relPaths; processedFiles := ∅ |}.

(** Between two states of a run, the resolved imports grow by no more
    than the attempted ones, and the unresolved files by no more than
    the processed ones. *)
Definition counters_grow (st st' : Builder) : Prop :=
  let m := metadata (graph st) in
  let m' := metadata (graph st') in
  resolved_imports m' + total_imports m <= total_imports m' + resolved_imports m
  /\ unresolved_files m' + total_files m <= total_files m' + unresolved_files m.

(** *** Two route files of one directory, each declaring [GET] *)

Module Routes.

Definition page_js : string := "export function GET() { return 'page'; }".
Definition server_js : string := "export function GET() { return 'data'; }".

Definition get_function (value : string) : list node :=
  [ExportNamedDeclaration
     (Some (FunctionDeclaration false (Some (Identifier "GET")) []
              (Other "BlockStatement"
                 [Other "ReturnStatement" [StringLiteral value]])))
     [] None].

Definition project : Host :=
  Posix.host "/" "/proj"
    [DirEntry "src"
       (Some [DirEntry "routes"
                (Some [DirEntry "users"
                         (Some [FileEntry "+page.js"; FileEntry "+server.js"])])])]
    [("/proj/src/routes/users/+page.js", page_js);
     ("/proj/src/routes/users/+server.js", server_js)]
    [(page_js, get_function "page"); (server_js, get_function "data")].

End Routes.

(** The graph a run returned, if it did. *)
Definition returned (o : Outcome) : option Graph :=
  match o with
  | Returns g => Some g
  | _ => None
  end.

(** The identifier under which a node is stored says what the node is:
    a module by its relative path, an API node by method and route, a
    function by declaring file and name. *)
Definition key_shape (k : string) (n : GraphNode) : Prop :=
  match n with
  | ModuleNode id _ => k = id
  | ApiNode name _ route _ _ _ _ => k = name +:+ " " +:+ route
  | FunctionNode name file _ _ _ _ => k = file +:+ "::" +:+ name
  end.

Definition keyed (st : Builder) : Prop :=
  NoDup (fst <$> nodes (graph st))
  /\ forall k n, (k, n) ∈ nodes (graph st) -> key_shape k n.

Definition is_module (n : GraphNode) : bool :=
  match n with
  | ModuleNode _ _ => true
  | _ => false
  end.

(** The number of Module nodes of a graph. *)
Definition module_count (l : list (string * GraphNode)) : nat :=
  length (filter (fun entry => is_module entry.2) l).

(** *** Parse-failure isolation *)

(** The file does not load: reading or parsing it throws, or the
    traversal throws before its first visitor. *)
Definition unparsable (host : Host) (f : string) : Prop :=
  exists message, load host f = inl message.

(** The file loads: it is read and parsed and its traversal starts
    without an exception (or it is a Svelte file without script). *)
Definition parsable (host : Host) (f : string) : Prop :=
  exists script, load host f = inr script.

(** The edge leaves the Module node of a file other than [bad], or a
    Function or API node of the graph. *)
Definition leaves_valid (host : Host) (projectRoot : string) (files : list string)
  (bad : string) (l : list (string * GraphNode)) (e : Edge.t) : Prop :=
  (exists f, f ∈ files /\ f <> bad /\ Edge.from e = path_relative host projectRoot f)
  \/ (exists n, (Edge.from e, n) ∈ l /\ is_module n = false).

(** What holds of the builder's state when [bad] is the only file of
    [files] that does not load. *)
Record isolated (host : Host) (projectRoot : string) (files : list string)
  (bad : string) (st : Builder) : Prop := {
  iso_total : total_files (metadata (graph st)) = size (processedFiles st);
  iso_unresolved :
    unresolved_files (metadata (graph st))
    = if bool_decide (bad ∈ processedFiles st) then 1 else 0;
  iso_modules : module_count (nodes (graph st)) = size (processedFiles st);
  iso_nodes : forall k n,
    (k, n) ∈ nodes (graph st) ->
    if is_module n
    then exists f, f ∈ processedFiles st /\ k = path_relative host projectRoot f
    else (forall f, f ∈ files -> k <> path_relative host projectRoot f)
         /\ node_file n <> Some (path_relative host projectRoot bad);
  iso_edges : forall e,
    e ∈ edges (graph st) -> leaves_valid host projectRoot files bad (nodes (graph st)) e
}.

(** A project of ten files, one of which does not parse. *)
Module Ten.

Definition names : list string :=
  ["f1"; "f2"; "f3"; "f4"; "f5"; "f6"; "f7"; "f8"; "f9"].

Definition unit_js (name : string) : string :=
  "export function " +:+ name +:+ "() {}".

Definition unit_ast (name : string) : list node :=
  [ExportNamedDeclaration
     (Some (FunctionDeclaration false (Some (Identifier name)) []
              (Other "BlockStatement" [])))
     [] None].

Definition broken_js : string := "export function f0( {".

Definition project : Host :=
  Posix.host "/" "/proj"
    (FileEntry "f0.js" :: map (fun name => FileEntry (name +:+ ".js")) names)
    (("/proj/f0.js", broken_js)
     :: map (fun name => ("/proj/" +:+ name +:+ ".js", unit_js name)) names)
    (map (fun name => (unit_js name, unit_ast name)) names).

Definition files : list string :=
  "/proj/f0.js" :: map (fun name => "/proj/" +:+ name +:+ ".js") names.

End Ten.

(** *** What the end-to-end scenario yields *)

Definition scenario_impact : Impact.t :=
  {| Impact.id := "b.js::bar";
     Impact.type := "function";
     Impact.zone := "Unknown Zone";
     Impact.depth := 1;
     Impact.chain := "a.js::foo" +:+ arrow +:+ "b.js::bar";
     Impact.file := "b.js";
     Impact.name := "bar" |}.

Definition scenario_flags : safetyFlags :=
  {| hasTryCatch := false; hasNullCheck := false; isDestructuredImmediately := false;
     assumedExists := true; isAsyncCall := false; isOptionalChaining := false |}.

Definition scenario_probabilities : safetyProbabilities :=
  {| unsafeDereferenceLikelihood := 0.85;
     unhandledErrorProbability := 0.6;
     unsafeDereferenceBreakdown :=
       ["Base: No explicit null check or optional chaining found (+0.7)";
        "Condition: Assumed existence without checks (+0.15)"];
     unhandledErrorBreakdown := ["Base: No try/catch block found (+0.6)"] |}.

(* ===================================================================== *)
(** ** Further notions: the caller-safety analysis *)
(* ===================================================================== *)

(** [f'] has every safety mechanism of [f] (try/catch, null check,
    optional chaining) and no risk factor [f] lacks (immediate
    destructuring, assumed existence, async call). *)
Definition at_least_as_guarded (f f' : safetyFlags) : bool :=
  implb (hasTryCatch f) (hasTryCatch f')
  && implb (hasNullCheck f) (hasNullCheck f')
  && implb (isOptionalChaining f) (isOptionalChaining f')
  && implb (isDestructuredImmediately f') (isDestructuredImmediately f)
  && implb (assumedExists f') (assumedExists f)
  && implb (isAsyncCall f') (isAsyncCall f).

(** The sixty-four combinations of the six flags. *)
Definition all_flags : list safetyFlags :=
  let bools := [true; false] in
  tc ← bools; nc ← bools; di ← bools; ae ← bools; ac ← bools; oc ← bools;
  [{| hasTryCatch := tc; hasNullCheck := nc; isDestructuredImmediately := di;
      assumedExists := ae; isAsyncCall := ac; isOptionalChaining := oc |}].

(** The two scores of a call site. *)
Definition dereference_risk (f : safetyFlags) : float :=
  unsafeDereferenceLikelihood (calculateSafetyProbabilities f).

Definition error_risk (f : safetyFlags) : float :=
  unhandledErrorProbability (calculateSafetyProbabilities f).

Definition is_analysis (r : SafetyRecord) : bool :=
  match r with
  | Analysis _ _ _ _ _ _ => true
  | Note _ _ _ => false
  end.

(** [s.file] and [s.callee] of a record ([None]: [undefined]). *)
Definition record_file (r : SafetyRecord) : string :=
  match r with
  | Analysis file _ _ _ _ _ | Note file _ _ => file
  end.

Definition record_callee (r : SafetyRecord) : option string :=
  match r with
  | Analysis _ _ _ callee _ _ => Some callee
  | Note _ _ _ => None
  end.

(** An if statement or a conditional expression. *)
Definition isBranch (n : node) : bool := isIfStatement n || isConditionalExpression n.

(** *** A Svelte component without script *)

Module Markup.

Definition e_svelte : string := "<h1>Hello</h1>".

Definition project : Host :=
  Posix.host "/" "/proj" [FileEntry "e.svelte"] [("/proj/e.svelte", e_svelte)] [].

End Markup.

(* ===================================================================== *)
(** ** Further notions: the blast-radius traversal *)
(* ===================================================================== *)

(** Each element of [path] after the first is a dependent of the one
    before it. *)
Fixpoint linked (adj : gmap string (list string)) (path : list string) : Prop :=
  match path with
  | x :: rest =>
      match rest with
      | y :: _ => y ∈ dependents_of adj x /\ linked adj rest
      | [] => True
      end
  | [] => True
  end.

(** [path] leads from [source] to [x] through dependents. *)
Definition route (adj : gmap string (list string)) (source x : string)
  (path : list string) : Prop :=
  head path = Some source /\ last path = Some x /\ linked adj path.

Definition nondecreasing (l : list nat) : Prop :=
  forall j k a b, j <= k -> l !! j = Some a -> l !! k = Some b -> a <= b.

(** A queue entry carries a route from the target to its node, as long
    as its depth says. *)
Definition well_routed (targetId : string) (adj : gmap string (list string))
  (e : QueueEntry) : Prop :=
  route adj targetId (q_id e) (q_chain e) /\ length (q_chain e) = S (q_depth e).

(** An impact was made by [make_impact] from a route to its node. *)
Definition well_made (g : Graph) (targetId : string) (adj : gmap string (list string))
  (i : Impact.t) : Prop :=
  exists d path,
    i = make_impact g (Impact.id i) d path
    /\ route adj targetId (Impact.id i) path
    /\ length path = S (S d).

(** What the loop keeps besides [bfs_inv]: routes, and the order of
    depths in the queue and in the impact list. *)
Record bfs_shape (g : Graph) (targetId : string) (adj : gmap string (list string))
  (q : list QueueEntry) (found : list Impact.t) : Prop := {
  shape_queue : Forall (well_routed targetId adj) q;
  shape_found : Forall (well_made g targetId adj) found;
  shape_queue_sorted : nondecreasing (q_depth <$> q);
  shape_found_sorted : nondecreasing (Impact.depth <$> found);
  shape_bound : forall h,
    head q = Some h ->
    Forall (fun e => q_depth e <= S (q_depth h)) q
    /\ Forall (fun i => Impact.depth i <= S (q_depth h)) found
}.

(** The edge makes its [from] a dependent of something. *)
Definition indexed (e : Edge.t) : Prop :=
  Edge.type e <> "structural" /\ is_Some (Edge.to e).

(* ===================================================================== *)
(** ** src/impactRadar.js: the analysis steps of [run] *)
(* ===================================================================== *)

(** [Object.keys(graph.nodes).find(k => k === target ||
    k.endsWith(`::${target}`) || k.startsWith(`${target} `))] *)
Definition find_target (graph : Graph) (target : string) : option string :=
  find (fun k =>
          String.eqb k target
          || Js.endsWith ("::" +:+ target) k
          || Js.startsWith (target +:+ " ") k)
    (map fst (nodes graph)).

(** How the resolution of the target ends: with the node, or at one of
    the two error exits. *)
Inductive Resolution : Type :=
| Resolved (targetNodeId : string) (targetNodeDetails : GraphNode)
| NotFound
| NoDetails (targetNodeId : string).

Definition resolve_target (graph : Graph) (target : string) : Resolution :=
  match find_target graph target with
  | Some targetNodeId =>
      if Js.truthy targetNodeId then
        match nodes_get targetNodeId (nodes graph) with
        | Some details => Resolved targetNodeId details
        | None => NoDetails targetNodeId
        end
      else NotFound
  | None => NotFound
  end.

(** [allImpacts.length > 0 ? Math.max(...allImpacts.map(i => i.depth)) : 0] *)
Definition max_propagation_depth (allImpacts : list Impact.t) : nat :=
  match allImpacts with
  | [] => 0
  | _ => fold_right Nat.max 0 (Impact.depth <$> allImpacts)
  end.

(** [impact_tree.direct_dependents] and [impact_tree.indirect_dependents] *)
Definition direct_dependents (allImpacts : list Impact.t) : list Impact.t :=
  filter (fun i => Impact.depth i = 1) allImpacts.

Definition indirect_dependents (allImpacts : list Impact.t) : list Impact.t :=
  filter (fun i => 1 < Impact.depth i) allImpacts.

(** The caller-safety scan of [run]. *)
Definition relevantImpacts (allImpacts : list Impact.t) : list Impact.t :=
  filter (fun i =>
            bool_decide ((Impact.type i = "function" \/ Impact.type i = "api")
                         /\ Impact.file i <> "N/A"))
    allImpacts.

(** [[...new Set(relevantImpacts.map(i => path.join(projectPath, i.file)))]] *)
Definition uniqueImpactedFiles (host : Host) (projectPath : string)
  (allImpacts : list Impact.t) : list string :=
  fold_left (fun s fileAbsPath => set_add fileAbsPath s)
    (map (fun i => path_join host projectPath (Impact.file i)) (relevantImpacts allImpacts))
    [].

(** [targetNodeDetails.name || argv.target] *)
Definition targetFunctionName (details : GraphNode) (target : string) : string :=
  or_else (node_label details) target.

Definition callerSafetyAnalysisResults (host : Host) (projectPath name : string)
  (allImpacts : list Impact.t) : list SafetyRecord :=
  flat_map (fun fileAbsPath => scanCallerSafety host fileAbsPath name)
    (uniqueImpactedFiles host projectPath allImpacts).

(** [caller_safety_details] of an impact. *)
Definition safetyForThisImpact (host : Host) (projectPath name : string)
  (results : list SafetyRecord) (impact : Impact.t) : list SafetyRecord :=
  filter (fun s =>
            bool_decide (record_file s = path_join host projectPath (Impact.file impact)
                         /\ record_callee s = Some name))
    results.

(* ===================================================================== *)
(** ** Further notions: the code-graph builder *)
(* ===================================================================== *)

(** An edge of the graph under construction leaves the module of a
    project file or a node already recorded; it has a callee; a
    dependency edge has a kind, a structural edge has none and leads to
    a recorded node. *)
Definition edge_ok (host : Host) (projectRoot : string) (files : list string)
  (l : list (string * GraphNode)) (e : Edge.t) : Prop :=
  ((exists f, f ∈ files /\ Edge.from e = path_relative host projectRoot f)
   \/ Edge.from e ∈ l.*1)
  /\ exists callee,
       Edge.to e = Some callee
       /\ ((Edge.type e = "dependency" /\ is_Some (Edge.kind e))
           \/ (Edge.type e = "structural" /\ Edge.kind e = None /\ callee ∈ l.*1)).

(** What the builder keeps of its graph while it runs. *)
Record well_formed (host : Host) (projectRoot : string) (files : list string)
  (st : Builder) : Prop := {
  wf_total : total_files (metadata (graph st)) = size (processedFiles st);
  wf_modules : forall f,
    f ∈ processedFiles st -> path_relative host projectRoot f ∈ (nodes (graph st)).*1;
  wf_nodes : forall k n,
    (k, n) ∈ nodes (graph st) -> is_module n = false ->
    exists f, f ∈ files /\ node_file n = Some (path_relative host projectRoot f);
  wf_edges : forall e,
    e ∈ edges (graph st) -> edge_ok host projectRoot files (nodes (graph st)) e
}.

(** The source files to be found below a directory: [found_in host dir
    entries f] when [f] is the path of a file with a recognized
    extension among [entries], the listing of [dir], or below one of
    its directories that is not excluded. *)
Inductive found_in (host : Host) : string -> list Dirent -> string -> Prop :=
| found_file dir entries name :
    FileEntry name ∈ entries -> is_source_file name = true ->
    found_in host dir entries (path_join host dir name)
| found_below dir entries name sub f :
    DirEntry name (Some sub) ∈ entries -> name ∉ EXCLUDED_DIRS ->
    found_in host (path_join host dir name) sub f ->
    found_in host dir entries f.

(** Some directory of the listing, or below it, cannot be read and is
    not excluded. *)
Inductive unreadable_in : list Dirent -> Prop :=
| unreadable_here entries name :
    DirEntry name None ∈ entries -> name ∉ EXCLUDED_DIRS -> unreadable_in entries
| unreadable_below entries name sub :
    DirEntry name (Some sub) ∈ entries -> name ∉ EXCLUDED_DIRS ->
    unreadable_in sub -> unreadable_in entries.

(** The keywords by which [getRouteInfo] tells a route file. *)
Definition routed (relPath : string) : bool :=
  Js.includes "src/routes" relPath || Js.includes "app" relPath
  || Js.includes "pages" relPath.

(** The file does not load ([unparsable], as a test). *)
Definition load_fails (host : Host) (f : string) : bool :=
  match load host f with
  | inl _ => true
  | inr _ => false
  end.

(* ===================================================================== *)
(** ** Further notions: syntax trees *)
(* ===================================================================== *)

(** The children held by a list-valued field, with their places. *)
Definition labelled (field : string) (ks : list node) : list ((string * nat) * node) :=
  imap (fun i k => ((field, i), k)) ks.

Definition label1 (field : string) (k : node) : list ((string * nat) * node) :=
  [((field, 0), k)].

Definition label_opt (field : string) (o : option node) : list ((string * nat) * node) :=
  match o with
  | Some k => [((field, 0), k)]
  | None => []
  end.

(** The children of a node in visiting order, each with the field and
    the index it is found at. *)
Definition fields (n : node) : list ((string * nat) * node) :=
  match n with
  | Identifier _ | NullLiteral | StringLiteral _ => []
  | CallExpression _ c a => label1 "callee" c ++ labelled "arguments" a
  | OptionalCallExpression c a => label1 "callee" c ++ labelled "arguments" a
  | MemberExpression o p => label1 "object" o ++ label1 "property" p
  | OptionalMemberExpression o p => label1 "object" o ++ label1 "property" p
  | AwaitExpression a => label1 "argument" a
  | VariableDeclarator i o => label1 "id" i ++ label_opt "init" o
  | ObjectPattern ps => labelled "properties" ps
  | ArrayPattern es => labelled "elements" es
  | AssignmentPattern l r => label1 "left" l ++ label1 "right" r
  | RestElement a => label1 "argument" a
  | AssignmentExpression l r => label1 "left" l ++ label1 "right" r
  | BinaryExpression _ l r => label1 "left" l ++ label1 "right" r
  | LogicalExpression _ l r => label1 "left" l ++ label1 "right" r
  | UnaryExpression _ a => label1 "argument" a
  | ConditionalExpression t c a =>
      label1 "test" t ++ label1 "consequent" c ++ label1 "alternate" a
  | IfStatement t c a => label1 "test" t ++ label1 "consequent" c ++ label_opt "alternate" a
  | TryStatement b h f => label1 "block" b ++ label_opt "handler" h ++ label_opt "finalizer" f
  | FunctionDeclaration _ i ps b =>
      label_opt "id" i ++ labelled "params" ps ++ label1 "body" b
  | FunctionExpression _ i ps b =>
      label_opt "id" i ++ labelled "params" ps ++ label1 "body" b
  | ArrowFunctionExpression _ ps b => labelled "params" ps ++ label1 "body" b
  | ObjectMethod _ k ps b => label1 "key" k ++ labelled "params" ps ++ label1 "body" b
  | ObjectProperty k v => label1 "key" k ++ label1 "value" v
  | ImportDeclaration ss _ => labelled "specifiers" ss
  | ExportNamedDeclaration d ss _ => label_opt "declaration" d ++ labelled "specifiers" ss
  | ExportAllDeclaration _ => []
  | Other _ ks => labelled "children" ks
  end.

(** The traversal below a path, child by child. *)
Definition paths_below (self : NodePath) (cs : list ((string * nat) * node))
  : list NodePath :=
  flat_map (fun c => paths_of c.2 (path_at self ++ [c.1]) (Some self)) cs.

(** The call expression at [p] calls [target]. *)
Definition calls (target : string) (p : NodePath) : bool :=
  match path_node p with
  | CallExpression _ callee _ =>
      match callee_name callee with
      | Some calleeName => String.eqb calleeName target
      | None => false
      end
  | _ => false
  end.

(** The kinds of the edges the three import visitors record. *)
Definition IMPORT_KINDS : list string := ["import"; "re_export"; "barrel_export"].

(** The import edges between files of the project, and those that
    leave it. *)
Definition internal_import (e : Edge.t) : bool :=
  match Edge.kind e with
  | Some kind => existsb (String.eqb kind) IMPORT_KINDS
  | None => false
  end.

Definition external_import (e : Edge.t) : bool :=
  match Edge.kind e with
  | Some kind => existsb (fun k => String.eqb kind (k +:+ "_external")) IMPORT_KINDS
  | None => false
  end.

(** The import counters against the edges: [exact] stands for what
    rules out an import that is counted and then dropped. *)
Definition imports_counted (exact : Prop) (g : Graph) : Prop :=
  resolved_imports (metadata g) = length (filter internal_import (edges g))
  /\ resolved_imports (metadata g) + length (filter external_import (edges g))
     <= total_imports (metadata g)
  /\ (exact ->
      total_imports (metadata g)
      = resolved_imports (metadata g) + length (filter external_import (edges g))).

(** A call edge of file [f]: it leaves the node the function visitor
    declares for the function-like path [p] of the file's tree, and
    carries the callee name and the location of the call expression at
    [q] below [p]. *)
Definition call_of (host : Host) (projectRoot f : string) (body : list node)
  (p q : NodePath) (e : Edge.t) : Prop :=
  p ∈ babelTraverse (Program body) /\ isFunctionLike (path_node p) = true
  /\ q ∈ path_traverse p
  /\ exists n callee args name,
       declaration host projectRoot f (path_relative host projectRoot f) p
       = inr (Some (Edge.from e, n))
       /\ path_node q = CallExpression (Edge.callPath e) callee args
       /\ callee_name callee = Some name
       /\ Js.truthy name = true
       /\ Edge.to e = Some name.

Definition calls_traced (host : Host) (projectRoot : string) (files : list string)
  (g : Graph) : Prop :=
  forall e, e ∈ edges g -> Edge.kind e = Some "call" ->
    exists f body p q,
      f ∈ files /\ load host f = inr (Some (Program body))
      /\ call_of host projectRoot f body p q e.

(** The call site behind an analysis: a call of the target in the tree
    the scanned file is parsed to, with the flags computed there. *)
Definition analysed_at (host : Host) (filePath target : string) (r : SafetyRecord)
  (flags : safetyFlags) (body : list node) (p : NodePath) : Prop :=
  load host filePath = inr (Some (Program body))
  /\ p ∈ babelTraverse (Program body)
  /\ calls target p = true
  /\ call_site_flags p = inr flags
  /\ r = analysis_of filePath target p flags.


(** The name the function visitor finds for the function at [p]: the
    one [function_name] gives when it is truthy, else the property an
    assignment stores the function to. *)
Definition found_name (p : NodePath) : option string :=
  let assigned :=
    match parentPath p with
    | Some parent => assigned_name (path_node parent)
    | None => None
    end in
  match function_name p with
  | inr (Some x) => if Js.truthy x then Some x else assigned
  | inr None => assigned
  | inl _ => None
  end.

(** What an identifier says of the node declared under it for the
    function at [p] of file [f]: a Function node is stored under the
    relative path of [f], "::" and the name found; an API node under the
    upper-cased name, which is an HTTP method, a space and the route of
    [f]. *)
Definition identified (host : Host) (projectRoot f : string) (p : NodePath)
  (k : string) (n : GraphNode) : Prop :=
  exists name,
    found_name p = Some name
    /\ node_file n = Some (path_relative host projectRoot f)
    /\ ((node_type n = "function"
         /\ node_label n = Some name
         /\ k = path_relative host projectRoot f +:+ "::" +:+ name)
        \/ (node_type n = "api"
            /\ exists route,
                 getRouteInfo host f projectRoot = inr (Some route)
                 /\ toUpperCase host name ∈ HTTP_METHODS
                 /\ node_label n = Some (toUpperCase host name)
                 /\ k = toUpperCase host name +:+ " " +:+ route)).

(** Where a node of the graph comes from: a Module node from a
    collected file, a Function or API node from the function visitor at
    a function-like path of the tree of a collected file. *)
Definition origin (host : Host) (projectRoot : string) (files : list string)
  (k : string) (n : GraphNode) : Prop :=
  if is_module n then
    exists f,
      f ∈ files /\ k = path_relative host projectRoot f
      /\ n = ModuleNode k (getArchitecturalZone host f projectRoot)
  else
    exists f body p,
      f ∈ files /\ load host f = inr (Some (Program body))
      /\ p ∈ babelTraverse (Program body)
      /\ isFunctionLike (path_node p) = true
      /\ declaration host projectRoot f (path_relative host projectRoot f) p
         = inr (Some (k, n)).

Definition traceable (host : Host) (projectRoot : string) (files : list string)
  (g : Graph) : Prop :=
  forall k n, (k, n) ∈ nodes g -> origin host projectRoot files k n.

(** No function of a collected file that loads is declared under an
    identifier that is the relative path of a collected file: the
    identifiers of Function and API nodes and those of Module nodes are
    apart. *)
Definition ids_apart (host : Host) (projectRoot : string) (files : list string) : Prop :=
  forall f f' body p k n,
    f ∈ files -> f' ∈ files -> load host f' = inr (Some (Program body)) ->
    p ∈ babelTraverse (Program body) ->
    declaration host projectRoot f' (path_relative host projectRoot f') p
    = inr (Some (k, n)) ->
    k <> path_relative host projectRoot f.
#[local] Set Warnings "-clear-no-such-hyp".

(* ===================================================================== *)
(** * Properties of the caller-safety analysis *)
(* ===================================================================== *)

Section WalkFacts.

Variables (b : Binding) (call : Expr).

Lemma walk_step_null w q : w_null w = true -> w_null (walk_step b call w q) = true.
Proof.
  destruct w as [t a n]. simpl. intros ->. unfold walk_step.
  destruct (isTryStatement _), (isFunctionLike _ && node_async _); reflexivity.
Qed.

Lemma walk_null qs : forall w,
  w_null w = true -> w_null (fold_left (walk_step b call) qs w) = true.
Proof.
  induction qs as [|q qs IH]; intros w Hw; simpl; [assumption|].
  apply IH, walk_step_null, Hw.
Qed.

Lemma walk_step_async w q :
  w_async (walk_step b call w q) = w_async w || isAsyncFunction (path_node q).
Proof.
  destruct w as [t a n]. unfold walk_step, isAsyncFunction.
  destruct (isTryStatement _), (isFunctionLike _ && node_async _), a, n; simpl;
    try reflexivity; destruct (guards _ _ _); reflexivity.
Qed.

Lemma walk_async qs : forall w,
  w_async (fold_left (walk_step b call) qs w)
  = w_async w || existsb isAsyncFunction (path_node <$> qs).
Proof.
  induction qs as [|q qs IH]; intros w; simpl.
  - now rewrite orb_false_r.
  - rewrite IH, walk_step_async, orb_assoc. reflexivity.
Qed.

End WalkFacts.

(** The upward walk starts at the parent of the call, or one node higher
    when that parent is the [await] of the call. *)
Lemma binding_walk_from p b :
  binding_of p = inr b ->
  exists parent, parentPath p = Some parent /\
    (walk_from b = Some parent
     \/ (isAwaitExpression (path_node parent) = true
         /\ exists grand, parentPath parent = Some grand /\ walk_from b = Some grand)).
Proof.
  unfold binding_of. destruct (parentPath p) as [parent|]; [|discriminate].
  intros H. exists parent. split; [reflexivity|].
  destruct (isAwaitExpression (path_node parent)) eqn:Hawait; simpl in H.
  - destruct (is_same _ _).
    + destruct (parentPath parent) as [grand|]; [|discriminate].
      right. split; [reflexivity|]. exists grand. split; [reflexivity|].
      destruct (isVariableDeclarator (path_node grand) && _);
        [destruct (declarator_binding _)|]; injection H as <-; reflexivity.
    + destruct (isVariableDeclarator _ && _).
      * destruct (declarator_binding _). injection H as <-. auto.
      * injection H as <-. auto.
  - destruct (isVariableDeclarator _ && _).
    + destruct (declarator_binding _). injection H as <-. auto.
    + injection H as <-. auto.
Qed.

Lemma upward_parent q :
  upward q = q :: match parentPath q with Some r => upward r | None => [] end.
Proof. destruct q as [n a [r|]]; reflexivity. Qed.

Lemma await_not_function n : isAwaitExpression n = true -> isAsyncFunction n = false.
Proof. destruct n; simpl; intros; try discriminate; reflexivity. Qed.

Lemma call_site_async p flags :
  call_site_flags p = inr flags ->
  isAsyncCall flags = existsb isAsyncFunction (enclosing p).
Proof.
  unfold call_site_flags. destruct (binding_of p) as [|b] eqn:Hb; [discriminate|].
  intros [= <-]. simpl.
  destruct (binding_walk_from _ _ Hb) as (parent & Hparent & Hfrom).
  unfold enclosing. rewrite Hparent.
  destruct Hfrom as [-> | (Hawait & grand & Hgrand & ->)]; simpl;
    rewrite walk_async; simpl; [reflexivity|].
  rewrite (upward_parent parent), Hgrand. simpl.
  rewrite (await_not_function _ Hawait). reflexivity.
Qed.

Lemma call_site_optional p flags :
  call_site_flags p = inr flags ->
  isOptionalChaining flags = true -> hasNullCheck flags = true.
Proof.
  unfold call_site_flags. destruct (binding_of p) as [|b]; [discriminate|].
  intros [= <-]. simpl. intros Hopt.
  unfold walk_up. destruct (walk_from b); [|exact Hopt].
  apply walk_null. exact Hopt.
Qed.

Lemma visit_call_records filePath target p records r :
  visit_call filePath target p = inr records -> r ∈ records ->
  exists flags, r = analysis_of filePath target p flags /\ call_site_flags p = inr flags.
Proof.
  unfold visit_call, analysis_of.
  destruct (path_node p); try (intros [= <-] Hr; inversion Hr).
  destruct (callee_name _) as [calleeName|]; [|intros [= <-] Hr; inversion Hr].
  destruct (String.eqb calleeName target) eqn:Heq; [|intros [= <-] Hr; inversion Hr].
  apply String.eqb_eq in Heq. subst calleeName.
  destruct (call_site_flags _) as [|flags]; [discriminate|].
  intros [= <-] Hr. apply list_elem_of_singleton in Hr. subst r. eauto.
Qed.

Lemma visit_call_calls filePath target p records r :
  visit_call filePath target p = inr records -> r ∈ records -> calls target p = true.
Proof.
  unfold visit_call, calls.
  destruct (path_node p); try (intros [= <-] Hr; inversion Hr).
  destruct (callee_name _) as [calleeName|]; [|intros [= <-] Hr; inversion Hr].
  destruct (String.eqb calleeName target) eqn:Heq; [|intros [= <-] Hr; inversion Hr].
  reflexivity.
Qed.

Lemma visit_calls_records filePath target ps : forall records err r,
  visit_calls filePath target ps = (records, err) -> r ∈ records ->
  exists p flags,
    p ∈ ps /\ r = analysis_of filePath target p flags /\ call_site_flags p = inr flags.
Proof.
  induction ps as [|p ps IH]; simpl; intros records err r Hv Hr.
  - injection Hv as <- <-. inversion Hr.
  - destruct (visit_call filePath target p) as [e|here] eqn:Hhere.
    + injection Hv as <- <-. inversion Hr.
    + destruct (visit_calls filePath target ps) as [more err'] eqn:Hmore.
      injection Hv as <- <-. apply elem_of_app in Hr as [Hr|Hr].
      * destruct (visit_call_records _ _ _ _ _ Hhere Hr) as (flags & ? & ?).
        exists p, flags. split; [left|]; auto.
      * destruct (IH _ _ _ eq_refl Hr) as (q & flags & ? & ? & ?).
        exists q, flags. split; [right|]; auto.
Qed.

Lemma visit_calls_sites filePath target ps : forall records err r,
  visit_calls filePath target ps = (records, err) -> r ∈ records ->
  exists p flags,
    p ∈ ps /\ calls target p = true
    /\ r = analysis_of filePath target p flags /\ call_site_flags p = inr flags.
Proof.
  induction ps as [|p ps IH]; simpl; intros records err r Hv Hr.
  - injection Hv as <- <-. inversion Hr.
  - destruct (visit_call filePath target p) as [e|here] eqn:Hhere.
    + injection Hv as <- <-. inversion Hr.
    + destruct (visit_calls filePath target ps) as [more err'] eqn:Hmore.
      injection Hv as <- <-. apply elem_of_app in Hr as [Hr|Hr].
      * destruct (visit_call_records _ _ _ _ _ Hhere Hr) as (flags & ? & ?).
        exists p, flags. split; [left|]. split; [|auto].
        exact (visit_call_calls _ _ _ _ _ Hhere Hr).
      * destruct (IH _ _ _ eq_refl Hr) as (q & flags & ? & ? & ? & ?).
        exists q, flags. split; [right|]; auto.
Qed.

(** An analysis of a scan is the analysis of a call of the target in
    the tree the file was parsed to. *)
Lemma scan_records host filePath target r :
  r ∈ scanCallerSafety host filePath target ->
  is_Some (record_flags r) ->
  exists code body p flags,
    readFileSync host filePath = inr code
    /\ p ∈ babelTraverse (Program body)
    /\ r = analysis_of filePath target p flags
    /\ call_site_flags p = inr flags
    /\ existsSync host filePath = true
    /\ load host filePath = inr (Some (Program body))
    /\ calls target p = true.
Proof.
  unfold scanCallerSafety, scan_error, load.
  destruct (existsSync host filePath); cbn [negb].
  2:{ intros Hr [? Hf]. apply list_elem_of_singleton in Hr. subst r. discriminate. }
  destruct (readFileSync host filePath) as [message|code].
  { intros Hr [? Hf]. apply list_elem_of_singleton in Hr. subst r. discriminate. }
  destruct (_ && _).
  { intros Hr. inversion Hr. }
  destruct (parse host _) as [message|body].
  { intros Hr [? Hf]. apply list_elem_of_singleton in Hr. subst r. discriminate. }
  destruct (traverse_error host _) as [message|].
  { intros Hr [? Hf]. apply list_elem_of_singleton in Hr. subst r. discriminate. }
  destruct (visit_calls _ _ _) as [records err] eqn:Hvisit.
  intros Hr [f Hf].
  assert (r ∈ records) as Hin.
  { destruct err; [|assumption].
    apply elem_of_app in Hr as [Hr|Hr]; [assumption|].
    apply list_elem_of_singleton in Hr. subst r. discriminate. }
  destruct (visit_calls_sites _ _ _ _ _ _ Hvisit Hin) as (p & flags & ? & ? & ? & ?).
  exists code, body, p, flags. auto 10.
Qed.

(** C4. Full-mitigation override: a call site whose six flags are in the
    safest configuration (null check, try/catch and optional chaining
    present; no immediate destructuring, no assumed existence, not an
    async call) gets exactly 0.00 for both the unsafe-dereference
    likelihood and the unhandled-error probability. *)
Theorem full_mitigation_override (f : safetyFlags) :
  hasNullCheck f = true -> hasTryCatch f = true -> isOptionalChaining f = true ->
  isDestructuredImmediately f = false -> assumedExists f = false ->
  isAsyncCall f = false ->
  unsafeDereferenceLikelihood (calculateSafetyProbabilities f) = 0%float
  /\ unhandledErrorProbability (calculateSafetyProbabilities f) = 0%float.
Proof.
  destruct f as [tc nc di ae ac oc]. simpl. intros -> -> -> -> -> ->.
  split; vm_compute; reflexivity.
Qed.

Lemma full_mitigation_override_witness :
  unsafeDereferenceLikelihood (calculateSafetyProbabilities safest_flags) = 0%float
  /\ unhandledErrorProbability (calculateSafetyProbabilities safest_flags) = 0%float.
Proof. apply (full_mitigation_override safest_flags); reflexivity. Defined.

(** C7. Optional chaining implies null check: in every safety record the
    caller-safety scan produces, a true is-optional-chaining flag comes
    with a true has-null-check flag. *)
Theorem optional_chaining_implies_null_check host filePath target r flags :
  r ∈ scanCallerSafety host filePath target ->
  record_flags r = Some flags ->
  isOptionalChaining flags = true ->
  hasNullCheck flags = true.
Proof.
  intros Hr Hflags.
  destruct (scan_records _ _ _ _ Hr) as (code & body & p & flags' & _ & _ & -> & Hsite & _).
  { rewrite Hflags. eauto. }
  injection Hflags as <-. exact (call_site_optional _ _ Hsite).
Qed.

Lemma optional_chaining_implies_null_check_witness :
  Chained.record ∈ scanCallerSafety Chained.project "/proj/d.js" "foo"
  /\ record_flags Chained.record = Some Chained.flags
  /\ isOptionalChaining Chained.flags = true
  /\ hasNullCheck Chained.flags = true.
Proof.
  assert (Chained.record ∈ scanCallerSafety Chained.project "/proj/d.js" "foo") as Hin.
  { replace (scanCallerSafety Chained.project "/proj/d.js" "foo") with [Chained.record]
      by (vm_compute; reflexivity).
    left. }
  split; [exact Hin|]. split; [reflexivity|]. split; [reflexivity|].
  exact (optional_chaining_implies_null_check Chained.project "/proj/d.js" "foo"
           Chained.record Chained.flags Hin eq_refl eq_refl).
Defined.

(** C8, as the specification states it, fails: in
    [async function outer() { function inner() { foo(); } }] the first
    function enclosing the call [foo()] is [inner], which is not
    asynchronous, and yet the scan sets is-async-call. *)
Lemma nested_call_flagged_async :
  find (fun p => isCallExpression (path_node p)) (babelTraverse (Program Nested.c_ast))
    = Some nested_call_path
  /\ scanCallerSafety Nested.project "/proj/c.js" "foo"
     = [analysis_of "/proj/c.js" "foo" nested_call_path nested_call_flags]
  /\ isAsyncCall nested_call_flags = true
  /\ first_enclosing_function_async nested_call_path = false.
Proof. repeat split; vm_compute; reflexivity. Qed.

(* ===================================================================== *)
(** * Properties of the blast-radius traversal *)
(* ===================================================================== *)

(** ** The reverse adjacency map *)

Lemma elem_of_set_add x y s : x ∈ set_add y s <-> x = y \/ x ∈ s.
Proof.
  unfold set_add. case_bool_decide as Hy.
  - split; [auto|]. intros [->|]; assumption.
  - rewrite elem_of_app, list_elem_of_singleton. tauto.
Qed.

Lemma elem_of_fold_set_add x l : forall s,
  x ∈ fold_left (fun s dep => set_add dep s) l s <-> x ∈ l \/ x ∈ s.
Proof.
  induction l as [|y l IH]; intros s; simpl.
  - rewrite elem_of_nil. tauto.
  - rewrite IH, elem_of_set_add, elem_of_cons. tauto.
Qed.

Lemma adj_get_add adj k caller k' x :
  x ∈ adj_get (adj_add k caller adj) k' <-> (k = k' /\ x = caller) \/ x ∈ adj_get adj k'.
Proof.
  unfold adj_add, adj_get at 1. destruct (decide (k = k')) as [<-|Hne].
  - rewrite lookup_insert_eq. simpl. rewrite elem_of_set_add. tauto.
  - rewrite lookup_insert_ne by assumption. fold (adj_get adj k'). tauto.
Qed.

Lemma adj_get_index_edge adj e k x :
  x ∈ adj_get (index_edge adj e) k
  <-> x ∈ adj_get adj k \/ (x = Edge.from e /\ indexed_under e k).
Proof.
  unfold index_edge, indexed_under.
  destruct (String.eqb_spec (Edge.type e) "structural") as [Hs|Hs].
  { naive_solver. }
  destruct (Edge.to e) as [calleeId|]; [|naive_solver].
  destruct (String.eqb_spec (shortName calleeId) calleeId) as [Hsame|Hdiff]; cbn [negb].
  - rewrite adj_get_add. split.
    + intros [[-> ->]|]; eauto 10.
    + intros [|[-> [_ (c & [= <-] & [-> | ->])]]]; rewrite ?Hsame; auto.
  - rewrite !adj_get_add. naive_solver.
Qed.

Lemma adj_get_fold es : forall adj k x,
  x ∈ adj_get (fold_left index_edge es adj) k
  <-> x ∈ adj_get adj k \/ exists e, e ∈ es /\ x = Edge.from e /\ indexed_under e k.
Proof.
  induction es as [|e es IH]; intros adj k x; simpl.
  - split; [auto|]. intros [|(e & He & _)]; [assumption|inversion He].
  - rewrite IH, adj_get_index_edge. setoid_rewrite elem_of_cons. naive_solver.
Qed.

(** Dual keying: the caller of every dependency edge is filed under the
    callee as written and under its bare name. *)
Lemma build_adj_spec es k x :
  x ∈ adj_get (build_adj es) k
  <-> exists e, e ∈ es /\ x = Edge.from e /\ indexed_under e k.
Proof.
  unfold build_adj. rewrite adj_get_fold. unfold adj_get at 1.
  rewrite lookup_empty. simpl. rewrite elem_of_nil. tauto.
Qed.

(** Dual probing: the dependents of an entry are those filed under its
    id or under its bare name. *)
Lemma dependents_of_spec adj id x :
  x ∈ dependents_of adj id <-> x ∈ adj_get adj id \/ x ∈ adj_get adj (shortName id).
Proof.
  unfold dependents_of.
  destruct (String.eqb_spec (shortName id) id) as [Hsame|Hdiff]; simpl.
  - rewrite elem_of_fold_set_add, elem_of_nil, Hsame. tauto.
  - rewrite !elem_of_fold_set_add, elem_of_nil. tauto.
Qed.

Lemma dependents_are_callers es id x :
  x ∈ dependents_of (build_adj es) id -> x ∈ callers_of es.
Proof.
  rewrite dependents_of_spec, !build_adj_spec. unfold callers_of.
  rewrite elem_of_list_to_set, list_elem_of_fmap.
  intros [(e & ? & ? & _)|(e & ? & ? & _)]; eauto.
Qed.

(** ** The loop returns *)

Lemma size_list_to_set_le `{Countable A} (l : list A) :
  size (list_to_set l : gset A) <= length l.
Proof.
  induction l as [|x l IH].
  - rewrite list_to_set_nil, size_empty. simpl. lia.
  - rewrite list_to_set_cons, size_union_alt, size_singleton. simpl.
    pose proof (subseteq_size (list_to_set l ∖ {[x]}) (list_to_set l : gset A)) as Hle.
    specialize (Hle ltac:(set_solver)). lia.
Qed.

Lemma size_difference_step `{Countable A} (X V : gset A) (x : A) :
  x ∈ X -> x ∉ V -> size (X ∖ V) = S (size (X ∖ ({[x]} ∪ V))).
Proof.
  intros HX HV.
  assert (X ∖ V = {[x]} ∪ X ∖ ({[x]} ∪ V)) as ->.
  { apply set_eq. intros y. destruct (decide (y = x)); set_solver. }
  rewrite size_union by set_solver. rewrite size_singleton. reflexivity.
Qed.

Section Traversal.

Variables (g : Graph) (targetId : string).

Let adj := build_adj (edges g).
Let callers := callers_of (edges g).

Lemma discover_measure entry st dep :
  dep ∈ callers -> bfs_measure callers (discover g entry st dep) = bfs_measure callers st.
Proof.
  intros Hdep. unfold discover. case_bool_decide as Hseen; [reflexivity|].
  unfold bfs_measure. simpl. rewrite length_app. simpl.
  rewrite (size_difference_step callers (visited st) dep) by assumption. lia.
Qed.

Lemma fold_discover_measure entry deps : forall st,
  (forall dep, dep ∈ deps -> dep ∈ callers) ->
  bfs_measure callers (fold_left (discover g entry) deps st) = bfs_measure callers st.
Proof.
  induction deps as [|dep deps IH]; intros st Hdeps; simpl; [reflexivity|].
  rewrite IH by (intros; apply Hdeps; now right).
  apply discover_measure, Hdeps. now left.
Qed.

Lemma bfs_returns fuel : forall st,
  bfs_measure callers st <= fuel -> is_Some (bfs fuel g adj st).
Proof.
  induction fuel as [|fuel IH]; intros st Hfuel.
  - unfold bfs_measure in Hfuel. destruct st as [seen [|entry rest] found]; simpl in *.
    + eauto.
    + lia.
  - destruct st as [seen [|entry rest] found]; simpl; [eauto|].
    apply IH. rewrite fold_discover_measure.
    + unfold bfs_measure in *. simpl in *. lia.
    + intros dep. apply dependents_are_callers.
Qed.

(** ** The loop invariant *)

Lemma found_by_extend t x k i :
  k < length t -> found_by adj t k i -> found_by adj (t ++ [x]) k i.
Proof.
  intros Hk (j & parent & Hjk & Hj & Hdep & Hdepth & Hfirst).
  exists j, parent. repeat split; try assumption.
  - rewrite lookup_app_l by lia. assumption.
  - intros j' earlier Hj' Hearlier. rewrite lookup_app_l in Hearlier by lia. eauto.
Qed.

Lemma trail_snoc l i :
  trail targetId (l ++ [i]) = trail targetId l ++ [(Impact.id i, Impact.depth i)].
Proof. unfold trail. rewrite fmap_app. reflexivity. Qed.

Lemma trail_length l : length (trail targetId l) = S (length l).
Proof. unfold trail. simpl. rewrite length_fmap. reflexivity. Qed.

(** One dependent of the entry being processed. *)
Lemma discover_inv done entry st dep :
  dep ∈ dependents_of adj (q_id entry) ->
  bfs_inv targetId adj done (entry :: queue st) (visited st) (impacts st) ->
  let st' := discover g entry st dep in
  bfs_inv targetId adj done (entry :: queue st') (visited st') (impacts st')
  /\ dep ∈ visited st' /\ visited st ⊆ visited st'.
Proof.
  intros Hdep [Htrail Hseen Hnodup Hclosed Hfound]. unfold discover.
  case_bool_decide as Hvisited; simpl.
  { split; [constructor; assumption|]. split; [assumption|reflexivity]. }
  split; [|set_solver].
  set (i := make_impact g dep (q_depth entry) (q_chain entry ++ [dep])).
  assert (Impact.id i = dep) as Hid by reflexivity.
  assert (Impact.depth i = S (q_depth entry)) as Hdepth by (simpl; lia).
  assert (dep ∉ (trail targetId (impacts st)).*1) as Hfresh by (rewrite <- Hseen; assumption).
  assert (length done <= length (impacts st)) as Hlen.
  { pose proof (f_equal length Htrail) as Hl.
    rewrite trail_length, length_app in Hl. simpl in Hl. lia. }
  constructor.
  - rewrite trail_snoc, Htrail. rewrite !fmap_cons, fmap_app, <- !app_assoc. simpl.
    reflexivity.
  - intros x. rewrite trail_snoc, fmap_app, elem_of_app, <- Hseen.
    change ([(Impact.id i, Impact.depth i)].*1) with [dep].
    rewrite list_elem_of_singleton. set_solver.
  - rewrite trail_snoc, fmap_app.
    change ([(Impact.id i, Impact.depth i)].*1) with [dep].
    apply NoDup_app. split; [assumption|]. split.
    + intros x Hx Hx'. apply list_elem_of_singleton in Hx'. subst x. contradiction.
    + apply NoDup_singleton.
  - intros d x Hd Hx. apply elem_of_union_r. eauto.
  - intros k i' Hk. rewrite trail_snoc.
    destruct (decide (k < length (impacts st))) as [Hlt|Hge].
    + rewrite lookup_app_l in Hk by assumption.
      apply found_by_extend; [rewrite trail_length; lia|]. eauto.
    + rewrite lookup_app_r in Hk by lia.
      apply list_lookup_singleton_Some in Hk as [Hk <-].
      assert (k = length (impacts st)) as -> by lia.
      exists (length done), (entry_of entry).
      split; [assumption|]. split.
      { rewrite lookup_app_l by (rewrite trail_length; lia).
        rewrite Htrail. rewrite lookup_app_r by lia.
        replace (length done - length done) with 0 by lia. reflexivity. }
      split; [rewrite Hid; assumption|]. split; [assumption|].
      intros j' earlier Hj' Hearlier Hin.
      rewrite lookup_app_l in Hearlier by (rewrite trail_length; lia).
      rewrite Htrail, lookup_app_l in Hearlier by assumption.
      apply Hvisited. apply (Hclosed earlier); [|rewrite <- Hid; assumption].
      eapply list_elem_of_lookup_2. eassumption.
Qed.

Lemma fold_discover_inv done entry deps : forall st,
  (forall dep, dep ∈ deps -> dep ∈ dependents_of adj (q_id entry)) ->
  bfs_inv targetId adj done (entry :: queue st) (visited st) (impacts st) ->
  let st' := fold_left (discover g entry) deps st in
  bfs_inv targetId adj done (entry :: queue st') (visited st') (impacts st')
  /\ (forall dep, dep ∈ deps -> dep ∈ visited st') /\ visited st ⊆ visited st'.
Proof.
  induction deps as [|dep deps IH]; intros st Hdeps Hinv; simpl.
  - split; [assumption|]. split; [intros dep Hdep; inversion Hdep|reflexivity].
  - destruct (discover_inv done entry st dep) as (Hinv' & Hdep & Hsub);
      [apply Hdeps; now left|assumption|].
    destruct (IH (discover g entry st dep)) as (Hinv'' & Hrest & Hsub');
      [intros; apply Hdeps; now right|assumption|].
    split; [assumption|]. split; [|set_solver].
    intros x Hx. apply elem_of_cons in Hx as [->|Hx]; [set_solver|auto].
Qed.

(** When the loop returns, the invariant holds with an empty queue. *)
Lemma bfs_inv_final fuel : forall st done l,
  bfs_inv targetId adj done (queue st) (visited st) (impacts st) ->
  bfs fuel g adj st = Some l ->
  exists done' seen, bfs_inv targetId adj done' [] seen l.
Proof.
  induction fuel as [|fuel IH]; intros st done l Hinv.
  - destruct st as [seen [|entry rest] found]; simpl in *; [|discriminate].
    intros [= <-]. eauto.
  - destruct st as [seen [|entry rest] found]; simpl in *.
    { intros [= <-]. eauto. }
    intros Hbfs.
    set (st0 := {| visited := seen; queue := rest; impacts := found |}) in *.
    destruct (fold_discover_inv done entry (dependents_of adj (q_id entry)) st0)
      as (Hinv' & Hall & Hsub); [auto|exact Hinv|].
    apply (IH (fold_left (discover g entry) (dependents_of adj (q_id entry)) st0)
             (done ++ [entry_of entry]) l); [|exact Hbfs].
    destruct Hinv' as [Htrail Hseen Hnodup Hclosed Hfound].
    constructor; try assumption.
    + rewrite Htrail. simpl. rewrite <- app_assoc. reflexivity.
    + intros d x Hd Hx. apply elem_of_app in Hd as [Hd|Hd]; [eauto|].
      apply list_elem_of_singleton in Hd. subst d. apply Hall. exact Hx.
Qed.

Lemma bfs_inv_initial :
  let st := {| visited := {[targetId]};
               queue := [{| q_id := targetId; q_depth := 0; q_chain := [targetId] |}];
               impacts := [] |} in
  bfs_inv targetId adj [] (queue st) (visited st) (impacts st).
Proof.
  constructor; simpl.
  - reflexivity.
  - intros x. unfold trail. simpl. rewrite list_elem_of_singleton. set_solver.
  - apply NoDup_singleton.
  - intros d x Hd. inversion Hd.
  - intros k i Hk. inversion Hk.
Qed.

Lemma calculateBlastRadius_inv :
  exists l done seen,
    calculateBlastRadius g targetId = Some l /\ bfs_inv targetId adj done [] seen l.
Proof.
  unfold calculateBlastRadius. fold adj.
  set (st := {| visited := {[targetId]}; queue := _; impacts := [] |}).
  destruct (bfs_returns (S (length (edges g))) st) as [l Hl].
  { unfold bfs_measure, st. simpl.
    pose proof (subseteq_size (callers ∖ {[targetId]}) callers ltac:(set_solver)).
    pose proof (size_list_to_set_le (Edge.from <$> edges g)) as Hle.
    rewrite length_fmap in Hle. fold (callers_of (edges g)) in Hle. fold callers in Hle.
    lia. }
  destruct (bfs_inv_final _ st [] l bfs_inv_initial Hl) as (done & seen & Hinv).
  exists l, done, seen. auto.
Qed.

End Traversal.

(** The loop of [calculateBlastRadius] never runs out of fuel. *)
Lemma calculateBlastRadius_returns g targetId :
  is_Some (calculateBlastRadius g targetId).
Proof.
  destruct (calculateBlastRadius_inv g targetId) as (l & _ & _ & -> & _). eauto.
Qed.

(** ** What the returned list looks like *)

Lemma trail_ids targetId l : (trail targetId l).*1 = targetId :: (Impact.id <$> l).
Proof. unfold trail. simpl. rewrite <- list_fmap_compose. reflexivity. Qed.

(** A dependent of the target other than the target itself is an impact
    of depth 1. *)
Lemma direct_dependent g targetId x :
  x ∈ dependents_of (build_adj (edges g)) targetId -> x <> targetId ->
  exists l i, calculateBlastRadius g targetId = Some l
              /\ i ∈ l /\ Impact.id i = x /\ Impact.depth i = 1.
Proof.
  intros Hdep Hne.
  destruct (calculateBlastRadius_inv g targetId) as (l & done & seen & Hl & Hinv).
  destruct Hinv as [Htrail Hseen _ Hclosed Hfound].
  simpl in Htrail. rewrite app_nil_r in Htrail.
  assert (x ∈ seen) as Hx.
  { apply (Hclosed (targetId, 0)); [|exact Hdep]. rewrite <- Htrail. left. }
  apply Hseen in Hx. rewrite trail_ids in Hx.
  apply elem_of_cons in Hx as [Hx|Hx]; [contradiction|].
  apply list_elem_of_fmap in Hx as (i & -> & Hi).
  apply list_elem_of_lookup in Hi as (k & Hk).
  exists l, i. split; [assumption|]. split; [eapply list_elem_of_lookup_2; eassumption|].
  split; [reflexivity|].
  destruct (Hfound k i Hk) as (j & parent & _ & Hj & _ & Hdepth & Hfirst).
  destruct j as [|j].
  - injection Hj as <-. exact Hdepth.
  - exfalso. apply (Hfirst 0 (targetId, 0)); [lia|reflexivity|exact Hdep].
Qed.

Lemma prefix_append (s t : string) : String.prefix s (s +:+ t) = true.
Proof.
  induction s as [|c s IH]; simpl; [destruct t; reflexivity|].
  destruct (ascii_dec c c); [exact IH|contradiction].
Qed.

Lemma includes_unfold sub s :
  Js.includes sub s
  = if String.prefix sub s then true
    else match s with
         | EmptyString => false
         | String _ s' => Js.includes sub s'
         end.
Proof. destruct s; reflexivity. Qed.

Lemma includes_append sub a b : Js.includes sub (a +:+ sub +:+ b) = true.
Proof.
  induction a as [|c a IH].
  - change ("" +:+ sub +:+ b) with (sub +:+ b).
    rewrite includes_unfold, prefix_append. reflexivity.
  - change (String c a +:+ sub +:+ b) with (String c (a +:+ sub +:+ b)).
    rewrite includes_unfold. destruct (String.prefix _ _); [reflexivity|exact IH].
Qed.

Lemma cut_unfold sep s :
  Js.cut sep s
  = if String.prefix sep s then Some (EmptyString, Js.drop (String.length sep) s)
    else match s with
         | EmptyString => None
         | String c s' =>
             match Js.cut sep s' with
             | Some (before, after) => Some (String c before, after)
             | None => None
             end
         end.
Proof. destruct s; reflexivity. Qed.

Lemma cut_absent sep s : Js.includes sep s = false -> Js.cut sep s = None.
Proof.
  induction s as [|c s IH]; rewrite includes_unfold, cut_unfold;
    destruct (String.prefix sep _); try discriminate; [reflexivity|].
  intros Hs. rewrite (IH Hs). reflexivity.
Qed.

Lemma cut_qualified file name :
  Js.includes ":" file = false ->
  Js.cut "::" (file +:+ "::" +:+ name) = Some (file, name).
Proof.
  induction file as [|c file IH]; intros Hfile.
  { change ("" +:+ "::" +:+ name) with ("::" +:+ name).
    rewrite cut_unfold, prefix_append. reflexivity. }
  rewrite includes_unfold in Hfile.
  change (String c file +:+ "::" +:+ name) with (String c (file +:+ "::" +:+ name)).
  rewrite cut_unfold. cbn -[ascii_dec Js.includes Js.cut] in Hfile |- *.
  destruct (ascii_dec ":" c) as [<-|_]; [destruct file; discriminate|].
  rewrite (IH Hfile). reflexivity.
Qed.

(** The bare name of a qualified identifier is the name after the
    separator. *)
Lemma shortName_qualified file name :
  Js.includes ":" file = false -> Js.includes "::" name = false ->
  shortName (file +:+ "::" +:+ name) = name.
Proof.
  intros Hfile Hname. unfold shortName, Js.split_1.
  rewrite includes_append, (cut_qualified _ _ Hfile), (cut_absent _ _ Hname). reflexivity.
Qed.

(** C3. Dual-key resolution: in every graph that holds the dependency
    edge from "file2.ext::caller" to "foo" and a node "file1.ext::foo",
    the traversal from "file1.ext::foo" reports "file2.ext::caller" at
    depth 1.  The two mechanisms behind it: the caller of every
    dependency edge is filed under the callee as written and under its
    bare name, and the dependents of an entry are looked up under its
    full id and under its bare name.  The bare name is what follows the
    first "::" separator, up to the next one: for a file path without
    colon followed by "::" and a name, it is the name. *)
Theorem dual_key_resolution g e :
  e ∈ edges g ->
  Edge.from e = "file2.ext::caller" -> Edge.to e = Some "foo" ->
  Edge.type e = "dependency" ->
  is_Some (nodes_get "file1.ext::foo" (nodes g)) ->
  (exists l i, calculateBlastRadius g "file1.ext::foo" = Some l
               /\ i ∈ l /\ Impact.id i = "file2.ext::caller" /\ Impact.depth i = 1)
  /\ shortName "file1.ext::foo" = "foo"
  /\ (forall file name,
        Js.includes ":" file = false -> Js.includes "::" name = false ->
        shortName (file +:+ "::" +:+ name) = name)
  /\ (forall e' calleeId,
        e' ∈ edges g -> Edge.type e' <> "structural" -> Edge.to e' = Some calleeId ->
        Edge.from e' ∈ adj_get (build_adj (edges g)) calleeId
        /\ Edge.from e' ∈ adj_get (build_adj (edges g)) (shortName calleeId))
  /\ (forall id x,
        x ∈ dependents_of (build_adj (edges g)) id
        <-> x ∈ adj_get (build_adj (edges g)) id
            \/ x ∈ adj_get (build_adj (edges g)) (shortName id)).
Proof.
  intros He Hfrom Hto Htype _.
  assert (forall e' calleeId,
            e' ∈ edges g -> Edge.type e' <> "structural" -> Edge.to e' = Some calleeId ->
            Edge.from e' ∈ adj_get (build_adj (edges g)) calleeId
            /\ Edge.from e' ∈ adj_get (build_adj (edges g)) (shortName calleeId)) as Hindex.
  { intros e' c He' Hns Hc. rewrite !build_adj_spec.
    split; exists e'; unfold indexed_under; eauto 10. }
  split; [|split; [reflexivity|split; [exact shortName_qualified|split;
    [exact Hindex|intros; apply dependents_of_spec]]]].
  apply direct_dependent; [|discriminate].
  apply dependents_of_spec. right. rewrite <- Hfrom.
  change (shortName "file1.ext::foo") with "foo".
  apply (Hindex e "foo"); [assumption| |assumption].
  rewrite Htype. discriminate.
Qed.

Lemma dual_key_resolution_witness :
  dual_key_edge ∈ edges dual_key_graph
  /\ (exists l i, calculateBlastRadius dual_key_graph "file1.ext::foo" = Some l
                  /\ i ∈ l /\ Impact.id i = "file2.ext::caller" /\ Impact.depth i = 1).
Proof.
  assert (dual_key_edge ∈ edges dual_key_graph) as Hin by left.
  split; [exact Hin|].
  exact (proj1 (dual_key_resolution dual_key_graph dual_key_edge Hin eq_refl eq_refl eq_refl
                  (mk_is_Some _ _ eq_refl))).
Defined.

(** C5. No duplicate visitation and target exclusion: for every graph
    and target, the impact list holds each node id at most once, never
    the target itself, no record of depth 0, and the depth of every
    record is 1 plus the depth of the queue entry that first discovered
    it (the first entry of the traversal order that has the record's
    node among its dependents). *)
Theorem no_duplicate_visitation g targetId :
  exists l,
    calculateBlastRadius g targetId = Some l
    /\ NoDup (Impact.id <$> l)
    /\ (targetId ∉ (Impact.id <$> l))
    /\ (forall i, i ∈ l -> Impact.depth i <> 0)
    /\ (forall k i, l !! k = Some i ->
          found_by (build_adj (edges g)) (trail targetId l) k i).
Proof.
  destruct (calculateBlastRadius_inv g targetId) as (l & done & seen & Hl & Hinv).
  destruct Hinv as [_ _ Hnodup _ Hfound]. rewrite trail_ids in Hnodup.
  apply NoDup_cons in Hnodup as [Htarget Hnodup].
  exists l. repeat split; try assumption.
  intros i Hi. apply list_elem_of_lookup in Hi as (k & Hk).
  destruct (Hfound k i Hk) as (j & parent & _ & _ & _ & -> & _). discriminate.
Qed.

Lemma index_structural es : forall adj,
  (forall e, e ∈ es -> Edge.type e = "structural") -> fold_left index_edge es adj = adj.
Proof.
  induction es as [|e es IH]; intros adj Hall; simpl; [reflexivity|].
  rewrite IH by (intros; apply Hall; now right).
  unfold index_edge. rewrite (Hall e) by now left. reflexivity.
Qed.

(** C6. Structural edges never contribute to blast radius: when every
    edge of the graph is of type structural, the reverse adjacency map
    stays empty and the impact list of any target is empty. *)
Theorem structural_edges_never_contribute g targetId :
  (forall e, e ∈ edges g -> Edge.type e = "structural") ->
  build_adj (edges g) = ∅ /\ calculateBlastRadius g targetId = Some [].
Proof.
  intros Hall.
  assert (build_adj (edges g) = ∅) as Hadj by (apply index_structural, Hall).
  split; [exact Hadj|].
  unfold calculateBlastRadius. rewrite Hadj.
  assert (dependents_of ∅ targetId = []) as Hnone.
  { unfold dependents_of, adj_get. rewrite !lookup_empty. simpl.
    destruct (negb _); reflexivity. }
  cbn [bfs queue q_id]. rewrite Hnone. simpl.
  destruct (length (edges g)); reflexivity.
Qed.

Lemma structural_edges_never_contribute_witness :
  (forall e, e ∈ edges structural_only -> Edge.type e = "structural")
  /\ build_adj (edges structural_only) = ∅
  /\ calculateBlastRadius structural_only "a.js::foo" = Some [].
Proof.
  assert (forall e, e ∈ edges structural_only -> Edge.type e = "structural") as Hall.
  { intros e He. apply list_elem_of_singleton in He. subst e. reflexivity. }
  split; [exact Hall|].
  exact (structural_edges_never_contribute structural_only "a.js::foo" Hall).
Defined.

(* ===================================================================== *)
(** * Properties of the code-graph builder *)
(* ===================================================================== *)

(** ** Paths of a traversal *)



(** Structural induction over syntax trees: a property that holds of a
    node whenever it holds of its children holds of every node. *)
Lemma node_children_ind (P : node -> Prop) :
  (forall n, Forall P (children n) -> P n) -> forall n, P n.
Proof.
  intros step. fix IH 1. intros n. apply step.
  assert (forall o : option node,
            (match o with Some k => P k | None => True end) ->
            Forall P (option_list o)) as Hopt.
  { intros [k|] Hk; simpl; [apply Forall_cons_2; [exact Hk|]|]; apply Forall_nil_2. }
  destruct n; simpl;
    repeat first
      [ apply Forall_nil_2
      | apply Forall_cons_2; [apply IH|]
      | apply Forall_app_2
      | match goal with
        | |- Forall P (option_list ?o) =>
            apply Hopt; destruct o; [apply IH|exact I]
        | |- Forall P ?l =>
            is_var l; revert l; fix many 1; intros [|k ks];
            [apply Forall_nil_2|apply Forall_cons_2; [apply IH|apply many]]
        end ].
Qed.

(** ** Paths of a traversal *)

Lemma many_paths (Q : NodePath -> Prop) (at_ : position) (field : string)
  (self : NodePath) (ks : list node) : forall i,
  Forall (fun k => forall at' q, Forall Q (paths_of k at' (Some q))) ks ->
  Forall Q
    ((fix many (i : nat) (ks : list node) {struct ks} : list NodePath :=
        match ks with
        | [] => []
        | k :: ks' => paths_of k (at_ ++ [(field, i)]) (Some self) ++ many (S i) ks'
        end) i ks).
Proof.
  induction ks as [|k ks IH]; intros i Hks; [apply Forall_nil_2|].
  apply Forall_cons in Hks as [Hk Hks].
  apply Forall_app_2; [apply Hk|apply IH, Hks].
Qed.

Ltac pieces Q :=
  repeat first
    [ apply Forall_nil_2
    | apply Forall_app_2
    | apply many_paths
    | match goal with
      | H : Forall _ (_ :: _) |- _ => apply Forall_cons in H as [? ?]
      | H : Forall _ (_ ++ _) |- _ => apply Forall_app in H as [? ?]
      | H : Forall _ (option_list ?o) |- _ => destruct o; simpl in H
      | H : forall at' q, Forall Q (paths_of ?k at' (Some q))
        |- Forall Q (paths_of ?k _ (Some _)) => apply H
      | |- Forall Q (match ?o with Some _ => _ | None => _ end) => destruct o
      end
    | assumption ].

(** Every path of a traversal started below some path has a parent. *)
Lemma paths_inside_have_parent n :
  forall at_ q, Forall has_parent (paths_of n at_ (Some q)).
Proof.
  induction n as [n Hchildren] using node_children_ind. intros at_ q.
  destruct n; simpl in *; (apply Forall_cons_2; [unfold has_parent; simpl; eauto|]);
    pieces has_parent.
Qed.

Lemma paths_below_have_parent n at_ parent :
  Forall has_parent (tl (paths_of n at_ parent)).
Proof.
  destruct n; simpl;
    repeat first
      [ apply Forall_nil_2
      | apply Forall_app_2
      | apply paths_inside_have_parent
      | apply many_paths; apply Forall_forall; intros; apply paths_inside_have_parent
      | match goal with
        | |- Forall _ (match ?o with Some _ => _ | None => _ end) => destruct o
        end ].
Qed.

(** ** File collection *)

Lemma dirent_ind' (P : Dirent -> Prop) :
  (forall name, P (FileEntry name)) ->
  (forall name, P (DirEntry name None)) ->
  (forall name files, Forall P files -> P (DirEntry name (Some files))) ->
  forall d, P d.
Proof.
  intros Hfile Hnone Hdir. fix IH 1. intros [name|name [files|]].
  - apply Hfile.
  - apply Hdir. revert files. fix many 1. intros [|d ds].
    + apply Forall_nil_2.
    + apply Forall_cons_2; [apply IH|apply many].
  - apply Hnone.
Qed.

Lemma NoDup_set_add x s : NoDup s -> NoDup (set_add x s).
Proof.
  intros Hs. unfold set_add. case_bool_decide as Hx; [assumption|].
  apply NoDup_app. split; [assumption|]. split; [|apply NoDup_singleton].
  intros y Hy Hy'. apply list_elem_of_singleton in Hy'. subst y. contradiction.
Qed.

Lemma set_add_present x s : x ∈ s -> set_add x s = s.
Proof. intros Hx. unfold set_add. rewrite bool_decide_eq_true_2; auto. Qed.

Section Collect.

Variables (host : Host) (projectRoot : string).

Lemma collect_entry_collected file : forall dir acc acc',
  collect_entry host projectRoot dir file acc = Some acc' ->
  collected host projectRoot acc -> collected host projectRoot acc'.
Proof.
  induction file as [name|name|name files IH] using dirent_ind';
    intros dir acc acc'; simpl.
  - destruct (negb (is_source_file name)); intros [= <-]; [auto|].
    intros [Hnodup Hreg]. split; simpl.
    + apply NoDup_set_add, Hnodup.
    + intros f Hf. apply elem_of_set_add in Hf as [->|Hf].
      * apply lookup_insert_eq.
      * destruct (decide (path_join host dir name = f)) as [<-|Hne].
        -- apply lookup_insert_eq.
        -- rewrite lookup_insert_ne by assumption. auto.
  - case_bool_decide; [intros [= <-]; auto|discriminate].
  - case_bool_decide; [intros [= <-]; auto|].
    generalize (path_join host dir name). intros sub. revert acc acc'.
    induction IH as [|file files Hfile _ IHfiles]; intros acc acc'.
    + intros [= <-]. auto.
    + destruct (collect_entry host projectRoot sub file acc) as [acc1|] eqn:Hone;
        [|discriminate].
      intros Hrest Hacc. eapply IHfiles; [exact Hrest|]. eapply Hfile; eassumption.
Qed.

Lemma collect_entries_collected dir files : forall acc acc',
  collect_entries host projectRoot dir files acc = Some acc' ->
  collected host projectRoot acc -> collected host projectRoot acc'.
Proof.
  induction files as [|file files IH]; intros acc acc'; simpl.
  - intros [= <-]. auto.
  - destruct (collect_entry host projectRoot dir file acc) as [acc1|] eqn:Hone;
      [|discriminate].
    intros Hrest Hacc. eapply IH; [exact Hrest|].
    eapply collect_entry_collected; eassumption.
Qed.

Lemma collectFiles_collected dir acc :
  collectFiles host projectRoot dir = Some acc -> collected host projectRoot acc.
Proof.
  unfold collectFiles. destruct (readdirSync host dir) as [files|]; [|discriminate].
  intros Hacc. eapply collect_entries_collected; [exact Hacc|].
  split; simpl; [apply NoDup_nil_2|]. intros f Hf. inversion Hf.
Qed.

End Collect.

(** ** The environment of a run *)

#[local] Arguments getRouteInfo : simpl never.
#[local] Arguments getArchitecturalZone : simpl never.
#[local] Arguments call_edges : simpl never.
#[local] Arguments resolveImportPath : simpl never.
#[local] Arguments load : simpl never.

Lemma function_path_has_parent body p :
  p ∈ babelTraverse (Program body) -> isFunctionLike (path_node p) = true ->
  has_parent p.
Proof.
  unfold babelTraverse. intros Hp Hfun.
  pose proof (paths_below_have_parent (Program body) [] None) as Hbelow.
  unfold Program in *. simpl in Hp, Hbelow.
  apply elem_of_cons in Hp as [->|Hp]; [discriminate|].
  rewrite Forall_forall in Hbelow. apply Hbelow. exact Hp.
Qed.

Lemma resolve_candidate_in_files host files candidate found :
  resolve_candidate host files candidate = Some found -> found ∈ files.
Proof.
  unfold resolve_candidate, has_file. intros H.
  repeat case_match; simplify_eq;
    repeat match goal with
      | H : find _ _ = Some _ |- _ => apply find_some in H as [_ H]
      | H : bool_decide _ = true |- _ => apply bool_decide_eq_true_1 in H
      end;
    assumption.
Qed.

Lemma resolveImportPath_in_files host importer module files root found :
  resolveImportPath host importer module files root = Some found -> found ∈ files.
Proof.
  unfold resolveImportPath. intros H.
  repeat case_match; simplify_eq; eauto using resolve_candidate_in_files.
Qed.

Section Run.

Variables (host : Host) (projectRoot graphMode : string).
Variables (files : list string) (relPaths : gmap string string).

Hypothesis files_registered :
  forall f, f ∈ files -> relPaths !! f = Some (path_relative host projectRoot f).

#[local] Abbreviation rel f := (path_relative host projectRoot f).
#[local] Abbreviation Stable := (stable files relPaths).

Lemma relPath_of_stable st f : Stable st -> f ∈ files -> relPath_of st f = rel f.
Proof.
  intros (_ & Hmap & _) Hf. unfold relPath_of. rewrite Hmap, files_registered by assumption.
  reflexivity.
Qed.

Lemma stable_set_node k v st : Stable st -> Stable (set_node k v st).
Proof. exact id. Qed.

Lemma stable_push_edges es st : Stable st -> Stable (push_edges es st).
Proof. exact id. Qed.

Lemma stable_enter f st :
  Stable st -> f ∈ files ->
  Stable (enter_file host projectRoot f st)
  /\ processedFiles (enter_file host projectRoot f st) = {[f]} ∪ processedFiles st
  /\ graph (enter_file host projectRoot f st)
     = graph (set_node (rel f) (ModuleNode (rel f) (getArchitecturalZone host f projectRoot))
                (count_file st)).
Proof.
  intros Hst Hf. pose proof (relPath_of_stable st f Hst Hf) as Hrel.
  destruct Hst as (Hall & Hmap & Hsub).
  unfold enter_file. rewrite Hrel. simpl. split; [|split; reflexivity].
  unfold stable. simpl. split; [|split].
  - destruct (registered st f); [assumption|]. rewrite Hall. apply set_add_present, Hf.
  - destruct (registered st f); [assumption|]. rewrite Hmap.
    apply insert_id, files_registered, Hf.
  - apply union_least; [|assumption]. apply singleton_subseteq_l.
    apply elem_of_list_to_set. exact Hf.
Qed.

Lemma pending_enter f st :
  f ∈ files -> f ∉ processedFiles st ->
  pending files st = S (pending files (enter_file host projectRoot f st)).
Proof.
  intros Hf Hnew. unfold pending, enter_file. simpl.
  apply size_difference_step; [apply elem_of_list_to_set, Hf|exact Hnew].
Qed.

Lemma pending_mono st st' :
  processedFiles st ⊆ processedFiles st' -> pending files st' <= pending files st.
Proof. intros Hsub. unfold pending. apply subseteq_size. set_solver. Qed.

Lemma load_program f ast :
  load host f = inr (Some ast) -> exists body, ast = Program body.
Proof.
  unfold load. intros H. repeat case_match; simplify_eq; eexists; reflexivity.
Qed.

Lemma function_name_error p message :
  function_name p = inl message -> parentPath p = None.
Proof.
  unfold function_name. intros H. repeat case_match; simplify_eq; reflexivity.
Qed.

(** *** A relation every step of a run respects *)

(** What the function visitor throws on a path of a traversal is what
    [getRouteInfo] throws. *)
Lemma declaration_error f body p err :
  p ∈ babelTraverse (Program body) -> isFunctionLike (path_node p) = true ->
  declaration host projectRoot f (rel f) p = inl err ->
  exists message, getRouteInfo host f projectRoot = inl message.
Proof.
  intros Hp Hfun.
  destruct (function_path_has_parent body p Hp Hfun) as [parent Hparent].
  unfold declaration.
  destruct (function_name p) as [message|name] eqn:Hname.
  { apply function_name_error in Hname. congruence. }
  destruct (getRouteInfo host f projectRoot) as [message|route] eqn:Hroute; [eauto|].
  rewrite Hparent. repeat case_match; discriminate.
Qed.

Lemma declaration_shape f p nodeId n :
  declaration host projectRoot f (rel f) p = inr (Some (nodeId, n)) ->
  node_shape host projectRoot f nodeId n.
Proof.
  unfold declaration, node_shape.
  destruct (function_name p) as [message|name]; [discriminate|].
  destruct (getRouteInfo host f projectRoot) as [message|route] eqn:Hroute; [discriminate|].
  repeat case_match; intros [= <- <-]; simpl in *;
    first [ left; solve [eauto 10]
          | right; solve [eauto 10]
          | rewrite ?andb_false_r in *; discriminate ].
Qed.

(** The relation holds between the state [process_all] starts from
    and the state it ends in when every step of a run respects it; a
    step knows the file it belongs to, that the kind of an import edge
    is one of the three, and the path a function is declared at. *)
Section Traced.

Variable R : Builder -> Builder -> Prop.

Hypothesis T_refl : forall st, R st st.
Hypothesis T_trans : forall a b c, R a b -> R b c -> R a c.
Hypothesis T_enter : forall f st script,
  f ∈ files -> Stable st -> f ∉ processedFiles st ->
  load host f = inr script ->
  R st (enter_file host projectRoot f st).
Hypothesis T_unreadable : forall f st message,
  f ∈ files -> Stable st -> f ∉ processedFiles st ->
  load host f = inl message ->
  R st (count_unresolved_file (enter_file host projectRoot f st)).
Hypothesis T_thrown : forall f st st' body message,
  f ∈ files -> Stable st -> f ∉ processedFiles st ->
  load host f = inr (Some (Program body)) ->
  getRouteInfo host f projectRoot = inl message ->
  R (enter_file host projectRoot f st) st' ->
  R st (count_unresolved_file st').
Hypothesis T_import : forall st target,
  Stable st -> target ∈ files -> Js.truthy (rel target) = false ->
  R st (count_import st).
Hypothesis T_external : forall f body st module kind,
  f ∈ files -> Stable st -> load host f = inr (Some (Program body)) ->
  kind ∈ IMPORT_KINDS ->
  R st (push_edges [dependency_edge (rel f) module (kind +:+ "_external") None]
          (count_import st)).
Hypothesis T_resolved : forall f body st target relTarget kind,
  f ∈ files -> Stable st -> load host f = inr (Some (Program body)) ->
  kind ∈ IMPORT_KINDS ->
  target ∈ files -> relPaths !! target = Some relTarget ->
  R st (push_edges [dependency_edge (rel f) relTarget kind None]
          (count_resolved_import (count_import st))).
Hypothesis T_declare : forall f body st nodeId n p,
  f ∈ files -> Stable st -> load host f = inr (Some (Program body)) ->
  p ∈ babelTraverse (Program body) -> isFunctionLike (path_node p) = true ->
  declaration host projectRoot f (rel f) p = inr (Some (nodeId, n)) ->
  R st (declare (rel f) nodeId n p st).

#[local] Abbreviation traced st st' :=
  (R st st' /\ Stable st' /\ processedFiles st ⊆ processedFiles st').

Lemma traced_refl st : Stable st -> traced st st.
Proof. intros Hst. split; [apply T_refl|]. split; [assumption|reflexivity]. Qed.

Lemma traced_trans a b c : traced a b -> traced b c -> traced a c.
Proof.
  intros (Hab & _ & Hab') (Hbc & Hc & Hbc'). split; [eapply T_trans; eassumption|].
  split; [assumption|]. etransitivity; eassumption.
Qed.

Lemma traced_step st st' :
  R st st' -> Stable st' -> processedFiles st' = processedFiles st -> traced st st'.
Proof. intros HR Hst Hp. split; [assumption|]. split; [assumption|]. rewrite Hp. reflexivity. Qed.

Lemma tr_function f body p st st' c :
  f ∈ files -> Stable st -> load host f = inr (Some (Program body)) ->
  p ∈ babelTraverse (Program body) -> isFunctionLike (path_node p) = true ->
  visit_function host projectRoot f (rel f) p st = (st', c) ->
  traced st st'
  /\ (is_Some c -> exists message, getRouteInfo host f projectRoot = inl message).
Proof.
  intros Hf Hst Hload Hp Hfun. unfold visit_function.
  destruct (declaration host projectRoot f (rel f) p) as [err|[[nodeId n]|]] eqn:Hdecl;
    intros [= <- <-].
  - split; [apply traced_refl, Hst|]. intros _.
    exact (declaration_error f body p err Hp Hfun Hdecl).
  - split; [|intros [? [=]]].
    apply traced_step; [eapply T_declare; eassumption|exact Hst|reflexivity].
  - split; [apply traced_refl, Hst|intros [? [=]]].
Qed.

Section Recurse.

Variable recurse : string -> Builder -> option Builder.

Hypothesis recurse_traced : forall t st st',
  t ∈ files -> Stable st -> recurse t st = Some st' -> traced st st'.

Lemma tr_import f body kind module st st' c :
  f ∈ files -> Stable st -> load host f = inr (Some (Program body)) ->
  kind ∈ IMPORT_KINDS ->
  visit_import host projectRoot graphMode recurse f (rel f) kind module st = Some (st', c) ->
  traced st st' /\ c = None.
Proof.
  intros Hf Hst Hload Hkind. unfold visit_import.
  assert (traced st (push_edges [dependency_edge (rel f) module (kind +:+ "_external") None]
                       (count_import st))) as Hexternal
    by (apply traced_step; [eapply T_external; eassumption|exact Hst|reflexivity]).
  destruct (resolveImportPath _ _ _ _ _) as [resolved|] eqn:Hresolved;
    [|intros [= <- <-]; auto].
  destruct (Js.truthy resolved); [|intros [= <- <-]; auto].
  apply resolveImportPath_in_files in Hresolved. simpl in Hresolved.
  pose proof Hst as (Hall & Hmap & Hsub). rewrite Hall in Hresolved.
  change (fileToRelPathMap (count_import st)) with (fileToRelPathMap st).
  rewrite Hmap, (files_registered resolved Hresolved).
  destruct (Js.truthy (rel resolved)) eqn:Hrel.
  2:{ intros [= <- <-]. split; [|reflexivity].
      apply traced_step; [eapply T_import; eassumption|exact Hst|reflexivity]. }
  set (st1 := push_edges _ (count_resolved_import (count_import st))).
  assert (traced st st1) as Hedge.
  { apply traced_step; [eapply T_resolved; try eassumption|..]; try done.
    apply files_registered, Hresolved. }
  destruct (_ && _); [|intros [= <- <-]; auto].
  destruct (recurse resolved st1) as [st2|] eqn:Hrec; [|discriminate].
  intros [= <- <-]. split; [|reflexivity].
  eapply traced_trans; [exact Hedge|]. eapply recurse_traced; [exact Hresolved| |exact Hrec].
  apply Hedge.
Qed.

Lemma tr_visit f body p st st' c :
  f ∈ files -> Stable st -> load host f = inr (Some (Program body)) ->
  p ∈ babelTraverse (Program body) ->
  visit host projectRoot graphMode recurse f (rel f) p st = Some (st', c) ->
  traced st st'
  /\ (is_Some c -> exists message, getRouteInfo host f projectRoot = inl message).
Proof.
  intros Hf Hst Hload Hp. unfold visit.
  destruct (path_node p) eqn:Hnode;
    try (intros [= <- <-]; split; [apply traced_refl, Hst|intros [? [=]]]);
    try (intros [= Hv]; eapply tr_function; try eassumption; rewrite Hnode; reflexivity);
    try (intros Hv; eapply tr_import in Hv as [Htraced ->]; try eassumption;
         [split; [exact Htraced|intros [? [=]]]|unfold IMPORT_KINDS; set_solver]).
  destruct source; [|intros [= <- <-]; split; [apply traced_refl, Hst|intros [? [=]]]].
  intros Hv; eapply tr_import in Hv as [Htraced ->]; try eassumption.
  - split; [exact Htraced|intros [? [=]]].
  - unfold IMPORT_KINDS. set_solver.
Qed.

Lemma tr_visit_all f body ps : forall st st' c,
  f ∈ files -> Stable st -> load host f = inr (Some (Program body)) ->
  (forall p, p ∈ ps -> p ∈ babelTraverse (Program body)) ->
  visit_all host projectRoot graphMode recurse f (rel f) ps st = Some (st', c) ->
  traced st st'
  /\ (is_Some c -> exists message, getRouteInfo host f projectRoot = inl message).
Proof.
  induction ps as [|p ps IH]; intros st st' c Hf Hst Hload Hps; simpl.
  - intros [= <- <-]. split; [apply traced_refl, Hst|intros [? [=]]].
  - destruct (visit _ _ _ _ _ _ p st) as [[st1 [err|]]|] eqn:Hvisit; [| |discriminate].
    + intros [= <- <-]. eapply tr_visit; try eassumption. apply Hps. left.
    + intros Hrest.
      eapply tr_visit in Hvisit as [Htraced _]; try eassumption; [|apply Hps; left].
      eapply IH in Hrest as [Htraced' Hthrown]; try eassumption.
      * split; [eapply traced_trans; eassumption|exact Hthrown].
      * apply Htraced.
      * intros q Hq. apply Hps. right. exact Hq.
Qed.

End Recurse.

Lemma tr_processFile fuel : forall f st st',
  f ∈ files -> Stable st ->
  processFile host projectRoot graphMode fuel f st = Some st' ->
  traced st st' /\ f ∈ processedFiles st'.
Proof.
  induction fuel as [|fuel IH]; intros f st st' Hf Hst; simpl;
    (case_bool_decide as Hdone;
     [intros [= <-]; split; [apply traced_refl, Hst|exact Hdone]|]); [discriminate|].
  destruct (stable_enter f st Hst Hf)
    as (Hentered & Hprocessed & _).
  assert (f ∈ processedFiles (enter_file host projectRoot f st)) as Hin
    by (rewrite Hprocessed; set_solver).
  assert (processedFiles st ⊆ processedFiles (enter_file host projectRoot f st)) as Hsub
    by (rewrite Hprocessed; set_solver).
  rewrite (relPath_of_stable st f Hst Hf).
  destruct (load host f) as [message|[ast|]] eqn:Hload.
  - intros [= <-]. split; [|exact Hin].
    split; [eapply T_unreadable; eassumption|]. split; [exact Hentered|exact Hsub].
  - destruct (load_program _ _ Hload) as [body ->].
    destruct (visit_all _ _ _ _ _ _ _ _) as [[st2 c]|] eqn:Hvisit; [|discriminate].
    eapply tr_visit_all in Hvisit as (Htraced & Hthrown); try eassumption; [| |auto].
    2:{ intros t s s' Ht Hs Hrec. apply (IH t s s' Ht Hs Hrec). }
    destruct Htraced as (HR & Hst2 & Hsub2).
    destruct c as [err|]; intros [= <-].
    + destruct Hthrown as [message Hroute]; [eauto|].
      split; [|apply Hsub2, Hin].
      split; [eapply T_thrown; eassumption|]. split; [exact Hst2|set_solver].
    + split; [|apply Hsub2, Hin].
      split; [eapply T_trans; [eapply T_enter; eassumption|exact HR]|].
      split; [exact Hst2|set_solver].
  - intros [= <-]. split; [|exact Hin].
    split; [eapply T_enter; eassumption|]. split; [exact Hentered|exact Hsub].
Qed.

Lemma tr_process_all fuel fs : forall st st',
  (forall f, f ∈ fs -> f ∈ files) -> Stable st ->
  process_all host projectRoot graphMode fuel fs st = Some st' ->
  traced st st' /\ (forall f, f ∈ fs -> f ∈ processedFiles st').
Proof.
  induction fs as [|f fs IH]; intros st st' Hfs Hst; simpl.
  - intros [= <-]. split; [apply traced_refl, Hst|]. intros f Hf. inversion Hf.
  - destruct (processFile _ _ _ fuel f st) as [st1|] eqn:Hone; [|discriminate].
    intros Hrest.
    apply tr_processFile in Hone as (Hgood & Hin); [|apply Hfs; left|exact Hst].
    apply IH in Hrest as (Hgood' & Hall); [|intros; apply Hfs; right; auto|apply Hgood].
    split; [eapply traced_trans; eassumption|].
    intros t Ht. apply elem_of_cons in Ht as [->|Ht]; [|auto].
    apply Hgood'. exact Hin.
Qed.

End Traced.

(** The same with steps that need not know where they come from. *)
Section Generic.

Variable R : Builder -> Builder -> Prop.

Hypothesis R_refl : forall st, R st st.
Hypothesis R_trans : forall a b c, R a b -> R b c -> R a c.
Hypothesis R_enter : forall f st script,
  f ∈ files -> Stable st -> f ∉ processedFiles st ->
  load host f = inr script ->
  R st (enter_file host projectRoot f st).
Hypothesis R_unreadable : forall f st message,
  f ∈ files -> Stable st -> f ∉ processedFiles st ->
  load host f = inl message ->
  R st (count_unresolved_file (enter_file host projectRoot f st)).
Hypothesis R_thrown : forall f st st' body message,
  f ∈ files -> Stable st -> f ∉ processedFiles st ->
  load host f = inr (Some (Program body)) ->
  getRouteInfo host f projectRoot = inl message ->
  R (enter_file host projectRoot f st) st' ->
  R st (count_unresolved_file st').
Hypothesis R_import : forall st, Stable st -> R st (count_import st).
Hypothesis R_external : forall f body st module kind,
  f ∈ files -> Stable st -> load host f = inr (Some (Program body)) ->
  R st (push_edges [dependency_edge (rel f) module (kind +:+ "_external") None]
          (count_import st)).
Hypothesis R_resolved : forall f body st target relTarget kind,
  f ∈ files -> Stable st -> load host f = inr (Some (Program body)) ->
  target ∈ files -> relPaths !! target = Some relTarget ->
  R st (push_edges [dependency_edge (rel f) relTarget kind None]
          (count_resolved_import (count_import st))).
Hypothesis R_declare : forall f body st nodeId n p,
  f ∈ files -> Stable st -> load host f = inr (Some (Program body)) ->
  node_shape host projectRoot f nodeId n ->
  R st (declare (rel f) nodeId n p st).

(** What a step leaves: the relation, the environment, and no file
    un-processed. *)
#[local] Abbreviation good st st' :=
  (R st st' /\ Stable st' /\ processedFiles st ⊆ processedFiles st').

#[local] Ltac weaken :=
  intros;
  first [ apply R_refl
        | eapply R_enter; eassumption
        | eapply R_unreadable; eassumption
        | eapply R_thrown; eassumption
        | apply R_import; assumption
        | eapply R_external; eassumption
        | eapply R_resolved; eassumption
        | eapply R_declare; eauto using declaration_shape
        | eapply R_trans; eassumption ].

Lemma gt_visit recurse f body p st st' c :
  (forall t st st', t ∈ files -> Stable st -> recurse t st = Some st' -> good st st') ->
  f ∈ files -> Stable st -> load host f = inr (Some (Program body)) ->
  p ∈ babelTraverse (Program body) ->
  visit host projectRoot graphMode recurse f (rel f) p st = Some (st', c) ->
  good st st'
  /\ (is_Some c -> exists message, getRouteInfo host f projectRoot = inl message).
Proof.
  intros Hrec Hf Hst Hload Hp Hv.
  eapply (tr_visit R) with (recurse := recurse); try eassumption; weaken.
Qed.

Lemma gt_processFile fuel f st st' :
  f ∈ files -> Stable st ->
  processFile host projectRoot graphMode fuel f st = Some st' ->
  good st st' /\ f ∈ processedFiles st'.
Proof.
  intros Hf Hst Hrun. eapply (tr_processFile R); try eassumption; weaken.
Qed.

Lemma gt_process_all fuel fs st st' :
  (forall f, f ∈ fs -> f ∈ files) -> Stable st ->
  process_all host projectRoot graphMode fuel fs st = Some st' ->
  good st st' /\ (forall f, f ∈ fs -> f ∈ processedFiles st').
Proof.
  intros Hfs Hst Hrun. eapply (tr_process_all R); try eassumption; weaken.
Qed.

End Generic.

(** *** The environment is kept, whatever the relation *)

#[local] Abbreviation any := (fun _ _ : Builder => True).

Lemma kept_processFile fuel f st st' :
  f ∈ files -> Stable st ->
  processFile host projectRoot graphMode fuel f st = Some st' ->
  Stable st' /\ processedFiles st ⊆ processedFiles st' /\ f ∈ processedFiles st'.
Proof.
  intros Hf Hst Hrun.
  eapply (gt_processFile any) in Hrun as ((_ & ? & ?) & ?); auto.
Qed.

Lemma kept_visit fuel f body p st st' c :
  f ∈ files -> Stable st -> load host f = inr (Some (Program body)) ->
  p ∈ babelTraverse (Program body) ->
  visit host projectRoot graphMode (processFile host projectRoot graphMode fuel)
    f (rel f) p st = Some (st', c) ->
  Stable st' /\ processedFiles st ⊆ processedFiles st'.
Proof.
  intros Hf Hst Hload Hp Hrun.
  eapply (gt_visit any) in Hrun as ((_ & ? & ?) & _); eauto.
  intros t s s' Ht Hs Hrec. apply kept_processFile in Hrec as (? & ? & _); auto.
Qed.

(** *** The recursion through imports never runs out of fuel *)

Lemma total_visit fuel f p st :
  (forall t s, t ∈ files -> Stable s -> pending files s <= fuel ->
               is_Some (processFile host projectRoot graphMode fuel t s)) ->
  Stable st -> pending files st <= fuel ->
  is_Some (visit host projectRoot graphMode (processFile host projectRoot graphMode fuel)
             f (rel f) p st).
Proof.
  intros Htotal Hst Hfuel.
  assert (forall kind module,
            is_Some (visit_import host projectRoot graphMode
                       (processFile host projectRoot graphMode fuel)
                       f (rel f) kind module st)) as Himport.
  { intros kind module. unfold visit_import.
    destruct (resolveImportPath _ _ _ _ _) as [resolved|] eqn:Hresolved; [|eauto].
    apply resolveImportPath_in_files in Hresolved. simpl in Hresolved.
    destruct Hst as (Hall & Hmap & Hsub). rewrite Hall in Hresolved.
    repeat case_match; eauto.
    all: match goal with
         | H : processFile _ _ _ _ ?t ?s = None |- _ =>
             destruct (Htotal t s) as [? Hsome]; [exact Hresolved|done|exact Hfuel|];
             rewrite Hsome in H; discriminate
         end. }
  unfold visit. destruct (path_node p); eauto. destruct source; eauto.
Qed.

Lemma total_visit_all fuel f body ps : forall st,
  (forall t s, t ∈ files -> Stable s -> pending files s <= fuel ->
               is_Some (processFile host projectRoot graphMode fuel t s)) ->
  f ∈ files -> Stable st -> load host f = inr (Some (Program body)) ->
  (forall p, p ∈ ps -> p ∈ babelTraverse (Program body)) ->
  pending files st <= fuel ->
  is_Some (visit_all host projectRoot graphMode
             (processFile host projectRoot graphMode fuel) f (rel f) ps st).
Proof.
  induction ps as [|p ps IH]; intros st Htotal Hf Hst Hload Hps Hfuel; simpl; [eauto|].
  destruct (total_visit fuel f p st Htotal Hst Hfuel) as [[st1 c] Hvisit].
  rewrite Hvisit. destruct c as [err|]; [eauto|].
  eapply kept_visit in Hvisit as (Hst1 & Hsub); try eassumption; [|apply Hps; left].
  apply IH; try assumption.
  - intros q Hq. apply Hps. right. exact Hq.
  - pose proof (pending_mono st st1 Hsub). lia.
Qed.

Lemma total_processFile fuel : forall f st,
  f ∈ files -> Stable st -> pending files st <= fuel ->
  is_Some (processFile host projectRoot graphMode fuel f st).
Proof.
  induction fuel as [|fuel IH]; intros f st Hf Hst Hfuel; simpl;
    (case_bool_decide as Hdone; [eauto|]);
    pose proof (pending_enter f st Hf Hdone) as Hpending;
    [lia|].
  destruct (stable_enter f st Hst Hf) as (Hentered & _ & _).
  rewrite (relPath_of_stable st f Hst Hf).
  destruct (load host f) as [message|[ast|]] eqn:Hload; [eauto| |eauto].
  destruct (load_program _ _ Hload) as [body ->].
  destruct (total_visit_all fuel f body (babelTraverse (Program body))
              (enter_file host projectRoot f st)) as [[st2 c] Hvisit];
    try assumption; [auto|lia|].
  rewrite Hvisit. destruct c; eauto.
Qed.

Lemma total_process_all fuel fs : forall st,
  (forall f, f ∈ fs -> f ∈ files) -> Stable st -> pending files st <= fuel ->
  is_Some (process_all host projectRoot graphMode fuel fs st).
Proof.
  induction fs as [|f fs IH]; intros st Hfs Hst Hfuel; simpl; [eauto|].
  destruct (total_processFile fuel f st) as [st1 Hone]; [apply Hfs; left|assumption..|].
  rewrite Hone. apply kept_processFile in Hone as (Hst1 & Hsub & _);
    [|apply Hfs; left|exact Hst].
  apply IH; [intros; apply Hfs; right; auto|exact Hst1|].
  pose proof (pending_mono st st1 Hsub). lia.
Qed.

End Run.

(** ** The reachability post-pass returns *)

Lemma forward_adj_fold es :
  forall (adjList : gmap string (list (option string))) (k : string) x,
  x ∈ default [] (fold_left
                    (fun (adjList : gmap string (list (option string))) edge =>
                       <[Edge.from edge :=
                           default [] (adjList !! Edge.from edge) ++ [Edge.to edge]]> adjList)
                    es adjList !! k) ->
  x ∈ default [] (adjList !! k) \/ x ∈ (Edge.to <$> es).
Proof.
  induction es as [|e es IH]; intros adjList k x; simpl; [auto|].
  intros Hx. apply IH in Hx as [Hx|Hx]; [|right; now right].
  destruct (decide (Edge.from e = k)) as [<-|Hne].
  - rewrite lookup_insert_eq in Hx. simpl in Hx.
    apply elem_of_app in Hx as [Hx|Hx]; [auto|].
    apply list_elem_of_singleton in Hx. subst x. right. left.
  - rewrite lookup_insert_ne in Hx by assumption. auto.
Qed.

Lemma neighbors_are_targets es id x :
  x ∈ neighbors_of (forward_adj es) id -> x ∈ targets_of es.
Proof.
  unfold neighbors_of, forward_adj, targets_of. destruct id as [k|]; [|inversion 1].
  intros Hx. apply forward_adj_fold in Hx as [Hx|Hx].
  - rewrite lookup_empty in Hx. inversion Hx.
  - apply elem_of_list_to_set. exact Hx.
Qed.

Lemma reach_neighbor_measure targets depth st neighbor :
  neighbor ∈ targets ->
  reach_measure targets (reach_neighbor depth st neighbor) = reach_measure targets st.
Proof.
  intros Hin. unfold reach_neighbor. case_bool_decide as Hseen; [reflexivity|].
  unfold reach_measure. simpl. rewrite length_app. simpl.
  rewrite (size_difference_step targets (r_visited st) neighbor) by assumption. lia.
Qed.

Lemma fold_reach_measure targets depth ns : forall st,
  (forall n, n ∈ ns -> n ∈ targets) ->
  reach_measure targets (fold_left (reach_neighbor depth) ns st) = reach_measure targets st.
Proof.
  induction ns as [|n ns IH]; intros st Hns; simpl; [reflexivity|].
  rewrite IH by (intros; apply Hns; now right).
  apply reach_neighbor_measure, Hns. now left.
Qed.

Lemma reach_returns es fuel : forall st,
  reach_measure (targets_of es) st <= fuel -> is_Some (reach fuel (forward_adj es) st).
Proof.
  induction fuel as [|fuel IH]; intros st Hfuel.
  - unfold reach_measure in Hfuel. destruct st as [seen [|[id depth] rest] m i]; simpl in *.
    + eauto.
    + lia.
  - destruct st as [seen [|[id depth] rest] m i]; simpl; [eauto|].
    apply IH. rewrite fold_reach_measure.
    + unfold reach_measure in *. simpl in *. lia.
    + intros n. apply neighbors_are_targets.
Qed.

Lemma reachability_returns graphMode g :
  exists r,
    reachability graphMode g
    = Some {| nodes := nodes g; edges := edges g;
              metadata :=
                {| unresolved_files := unresolved_files (metadata g);
                   total_files := total_files (metadata g);
                   total_imports := total_imports (metadata g);
                   resolved_imports := resolved_imports (metadata g);
                   max_depth_detected := maxDepth r;
                   indirect_nodes_found := indirectNodes r;
                   analysis_limit_reached :=
                     String.eqb graphMode "FAST" && (maxDepth r =? 1)%nat |} |}.
Proof.
  unfold reachability.
  destruct (reach_returns (edges g) (length (nodes g) + length (edges g))
              {| r_visited := list_to_set (Some <$> root_modules g);
                 r_queue := map (fun k => (Some k, 0)) (root_modules g);
                 maxDepth := 0; indirectNodes := 0 |}) as [r Hr].
  - unfold reach_measure. simpl. rewrite length_map.
    pose proof (subseteq_size
                  (targets_of (edges g) ∖ list_to_set (Some <$> root_modules g))
                  (targets_of (edges g)) ltac:(set_solver)).
    pose proof (size_list_to_set_le (Edge.to <$> edges g)) as Hle.
    rewrite length_fmap in Hle. fold (targets_of (edges g)) in Hle.
    assert (length (root_modules g) <= length (nodes g)).
    { unfold root_modules.
      etransitivity; [apply length_filter|]. etransitivity; [apply length_filter|].
      rewrite length_map. reflexivity. }
    lia.
  - rewrite Hr. eauto.
Qed.

(** ** A run of the builder *)

(** The builder throws exactly when a directory cannot be read;
    otherwise it processes every collected file and returns the graph,
    with the metadata of the post-pass. *)
Lemma parseToGraph_run host targetPath graphMode :
  let projectRoot := path_resolve1 host targetPath in
  match collectFiles host projectRoot projectRoot with
  | None => parseToGraph host targetPath graphMode = Throws
  | Some (files, relPaths) =>
      exists st g,
        process_all host projectRoot graphMode (length files) files
          (initial_builder files relPaths) = Some st
        /\ parseToGraph host targetPath graphMode = Returns g
        /\ nodes g = nodes (graph st) /\ edges g = edges (graph st)
        /\ unresolved_files (metadata g) = unresolved_files (metadata (graph st))
        /\ total_files (metadata g) = total_files (metadata (graph st))
        /\ total_imports (metadata g) = total_imports (metadata (graph st))
        /\ resolved_imports (metadata g) = resolved_imports (metadata (graph st))
  end.
Proof.
  intros projectRoot. unfold parseToGraph. fold projectRoot.
  destruct (collectFiles host projectRoot projectRoot) as [[files relPaths]|] eqn:Hcollect;
    [|reflexivity].
  destruct (collectFiles_collected _ _ _ _ Hcollect) as [Hnodup Hreg]. simpl in *.
  fold (initial_builder files relPaths).
  destruct (total_process_all host projectRoot graphMode files relPaths Hreg
              (length files) files (initial_builder files relPaths)) as [st Hst].
  - auto.
  - unfold stable. simpl. split; [reflexivity|]. split; [reflexivity|]. set_solver.
  - unfold pending. simpl.
    etransitivity; [apply subseteq_size with (Y := list_to_set files); set_solver|].
    apply size_list_to_set_le.
  - rewrite Hst. destruct (reachability_returns graphMode (graph st)) as [r Hr].
    rewrite Hr. eexists st, _. split; [reflexivity|]. split; [reflexivity|].
    simpl. repeat split; reflexivity.
Qed.

(** The recursion and the post-pass never run out of fuel. *)
Lemma parseToGraph_fuel host targetPath graphMode :
  parseToGraph host targetPath graphMode <> OutOfFuel.
Proof.
  pose proof (parseToGraph_run host targetPath graphMode) as Hrun. simpl in Hrun.
  destruct (collectFiles _ _ _) as [[files relPaths]|].
  - destruct Hrun as (st & g & _ & -> & _). discriminate.
  - rewrite Hrun. discriminate.
Qed.

(** What the run that ends in [Returns g] went through. *)
Lemma parseToGraph_returns host targetPath graphMode g :
  parseToGraph host targetPath graphMode = Returns g ->
  let projectRoot := path_resolve1 host targetPath in
  exists files relPaths st,
    collectFiles host projectRoot projectRoot = Some (files, relPaths)
    /\ process_all host projectRoot graphMode (length files) files
         (initial_builder files relPaths) = Some st
    /\ nodes g = nodes (graph st) /\ edges g = edges (graph st)
    /\ unresolved_files (metadata g) = unresolved_files (metadata (graph st))
    /\ total_files (metadata g) = total_files (metadata (graph st))
    /\ total_imports (metadata g) = total_imports (metadata (graph st))
    /\ resolved_imports (metadata g) = resolved_imports (metadata (graph st)).
Proof.
  intros Hg projectRoot.
  pose proof (parseToGraph_run host targetPath graphMode) as Hrun. simpl in Hrun.
  fold projectRoot in Hrun.
  destruct (collectFiles _ _ _) as [[files relPaths]|]; [|congruence].
  destruct Hrun as (st & g' & Hst & Hg' & Hrest).
  rewrite Hg in Hg'. injection Hg' as <-. exists files, relPaths, st. auto.
Qed.

Lemma initial_stable files relPaths : stable files relPaths (initial_builder files relPaths).
Proof. unfold stable. simpl. split; [reflexivity|]. split; [reflexivity|]. set_solver. Qed.

(** ** Metadata counters *)

Lemma counters_grow_run host projectRoot graphMode files relPaths fuel fs st st' :
  (forall f, f ∈ files -> relPaths !! f = Some (path_relative host projectRoot f)) ->
  (forall f, f ∈ fs -> f ∈ files) -> stable files relPaths st ->
  process_all host projectRoot graphMode fuel fs st = Some st' ->
  counters_grow st st'.
Proof.
  intros Hreg Hfs Hst Hrun.
  eapply (gt_process_all host projectRoot graphMode files relPaths Hreg counters_grow)
    in Hrun as ((HR & _) & _); try eassumption;
    unfold counters_grow; simpl; intros; lia.
Qed.

(** C10. Metadata counter consistency: for every project path and mode,
    the graph the builder returns has resolved_imports <= total_imports
    and unresolved_files <= total_files; the builder returns unless a
    directory of the project cannot be read. *)
Theorem metadata_counters_consistent host targetPath graphMode :
  match parseToGraph host targetPath graphMode with
  | Returns g =>
      resolved_imports (metadata g) <= total_imports (metadata g)
      /\ unresolved_files (metadata g) <= total_files (metadata g)
  | Throws =>
      collectFiles host (path_resolve1 host targetPath) (path_resolve1 host targetPath)
      = None
  | OutOfFuel => False
  end.
Proof.
  destruct (parseToGraph host targetPath graphMode) as [g| |] eqn:Hrun.
  - apply parseToGraph_returns in Hrun
      as (files & relPaths & st & Hcollect & Hst & _ & _ & -> & -> & -> & ->).
    apply collectFiles_collected in Hcollect as [_ Hreg].
    eapply counters_grow_run in Hst; [| exact Hreg | auto | apply initial_stable].
    unfold counters_grow in Hst. simpl in Hst. lia.
  - pose proof (parseToGraph_run host targetPath graphMode) as Hcases. simpl in Hcases.
    destruct (collectFiles _ _ _) as [[files relPaths]|]; [|reflexivity].
    destruct Hcases as (st & g & _ & Hg & _). congruence.
  - exact (parseToGraph_fuel _ _ _ Hrun).
Qed.

(** ** Node identifiers *)

Lemma elem_of_nodes_set k v l x : x ∈ nodes_set k v l -> x = (k, v) \/ x ∈ l.
Proof.
  induction l as [|[k' v'] l IH]; simpl.
  - intros Hx. apply list_elem_of_singleton in Hx. auto.
  - destruct (String.eqb k' k).
    + intros Hx. apply elem_of_cons in Hx as [->|Hx]; [auto|]. right. now right.
    + intros Hx. apply elem_of_cons in Hx as [->|Hx]; [right; now left|].
      destruct (IH Hx); [auto|]. right. now right.
Qed.

Lemma nodes_set_same k v l : (k, v) ∈ nodes_set k v l.
Proof.
  induction l as [|[k' v'] l IH]; simpl; [now left|].
  destruct (String.eqb k' k); [now left|now right].
Qed.

Lemma nodes_set_other k v l k' n : (k', n) ∈ l -> k' <> k -> (k', n) ∈ nodes_set k v l.
Proof.
  intros Hin Hne. induction l as [|[k0 v0] l IH]; [inversion Hin|]. cbn [nodes_set].
  apply elem_of_cons in Hin as [[= <- <-]|Hin].
  - destruct (String.eqb_spec k' k); [contradiction|now left].
  - destruct (String.eqb_spec k0 k); right; auto.
Qed.

Lemma keys_nodes_set k v l :
  fst <$> nodes_set k v l
  = if bool_decide (k ∈ fst <$> l) then fst <$> l else (fst <$> l) ++ [k].
Proof.
  induction l as [|[k' v'] l IH].
  - rewrite bool_decide_eq_false_2; [reflexivity|]. intros Hin. inversion Hin.
  - cbn [nodes_set]. destruct (String.eqb_spec k' k) as [->|Hne].
    + rewrite bool_decide_eq_true_2; [reflexivity|]. rewrite fmap_cons. now left.
    + rewrite !fmap_cons, IH. cbn [fst]. destruct (decide (k ∈ l.*1)) as [Hin|Hout].
      * rewrite !bool_decide_eq_true_2; [reflexivity|now right|assumption].
      * rewrite !bool_decide_eq_false_2; [reflexivity| |assumption].
        intros H. apply elem_of_cons in H as [->|H]; contradiction.
Qed.

Lemma NoDup_keys_nodes_set k v l :
  NoDup (fst <$> l) -> NoDup (fst <$> nodes_set k v l).
Proof.
  intros Hl. rewrite keys_nodes_set. case_bool_decide as Hin; [assumption|].
  apply NoDup_app. split; [assumption|]. split; [|apply NoDup_singleton].
  intros x Hx Hx'. apply list_elem_of_singleton in Hx'. subst x. contradiction.
Qed.

Lemma keyed_set_node k v st :
  key_shape k v -> keyed st -> keyed (set_node k v st).
Proof.
  intros Hshape [Hnodup Hkeys]. split; simpl.
  - apply NoDup_keys_nodes_set, Hnodup.
  - intros k' n Hin. apply elem_of_nodes_set in Hin as [[= -> ->]|Hin]; auto.
Qed.

Lemma key_shape_declared host projectRoot f nodeId n :
  node_shape host projectRoot f nodeId n -> key_shape nodeId n.
Proof.
  intros [(NAME & route & zone & ps & rt & a & _ & -> & ->)
         |(name & zone & ps & rt & a & -> & ->)]; reflexivity.
Qed.

Lemma keyed_run host projectRoot graphMode files relPaths fuel fs st st' :
  (forall f, f ∈ files -> relPaths !! f = Some (path_relative host projectRoot f)) ->
  (forall f, f ∈ fs -> f ∈ files) -> stable files relPaths st ->
  process_all host projectRoot graphMode fuel fs st = Some st' ->
  keyed st -> keyed st'.
Proof.
  intros Hreg Hfs Hst Hrun.
  assert (forall f s, f ∈ files -> stable files relPaths s -> keyed s ->
            keyed (enter_file host projectRoot f s)) as Henter.
  { intros f s Hf Hs Hk.
    destruct (stable_enter host projectRoot files relPaths Hreg f s Hs Hf)
      as (_ & _ & Hgraph).
    unfold keyed. rewrite Hgraph. apply keyed_set_node; [reflexivity|exact Hk]. }
  destruct (gt_process_all host projectRoot graphMode files relPaths Hreg
              (fun a b => keyed a -> keyed b))
    with (fuel := fuel) (fs := fs) (st := st) (st' := st') as ((HR & _) & _);
    try assumption.
  - auto.
  - auto.
  - intros f s script Hf Hs _ _. apply Henter; assumption.
  - intros f s message Hf Hs _ _ Hk. apply (Henter f s Hf Hs Hk).
  - intros f s s' body message Hf Hs _ _ _ Hin Hk. apply (Hin (Henter f s Hf Hs Hk)).
  - auto.
  - auto.
  - auto.
  - intros f body s nodeId n p _ _ _ Hshape Hk.
    apply (keyed_set_node nodeId n s); [|exact Hk].
    eapply key_shape_declared, Hshape.
Qed.

Lemma append_inv_tail (a b c : string) : a +:+ c = b +:+ c -> a = b.
Proof.
  assert (forall x y : string, String.length (x +:+ y) = String.length x + String.length y)
    as Hlen by (intros x y; induction x; simpl; auto).
  revert b. induction a as [|x a IH]; intros [|y b]; simpl; intros Heq.
  - reflexivity.
  - apply (f_equal String.length) in Heq. rewrite !Hlen in Heq. simpl in Heq. lia.
  - apply (f_equal String.length) in Heq. rewrite !Hlen in Heq. simpl in Heq. lia.
  - injection Heq as -> Heq. f_equal. apply IH, Heq.
Qed.

(** C9, as the specification states it, fails for API nodes: the two
    files [+page.js] and [+server.js] of the route directory
    [src/routes/users] each declare a function [GET], and both receive
    the identifier "GET /users" (the structural edges show it); the
    graph keeps one node for the two. *)
Lemma same_name_same_identifier :
  (fun g => (fst <$> nodes g,
             (fun e => (Edge.from e, Edge.to e)) <$> edges g))
    <$> returned (parseToGraph Routes.project "/proj" "FAST")
  = Some (["src/routes/users/+page.js"; "GET /users"; "src/routes/users/+server.js"],
          [("src/routes/users/+page.js", Some "GET /users");
           ("src/routes/users/+server.js", Some "GET /users")]).
Proof. vm_compute. reflexivity. Qed.

Lemma declaration_identified host projectRoot f p k n :
  declaration host projectRoot f (path_relative host projectRoot f) p = inr (Some (k, n)) ->
  identified host projectRoot f p k n.
Proof.
  unfold declaration, identified, found_name.
  destruct (function_name p) as [message|name]; [discriminate|].
  destruct (getRouteInfo host f projectRoot) as [message|route]; [discriminate|].
  destruct name as [x|]; cbn [default].
  - destruct (Js.truthy x) eqn:Hx; cbn [andb].
    + destruct route as [r|]; cbn [default].
      * destruct (Js.truthy r) eqn:Hr; cbn [andb].
        -- case_bool_decide as Hapi; intros [= <- <-]; exists x;
             (split; [reflexivity|]); (split; [reflexivity|]).
           ++ right. split; [reflexivity|]. exists r. auto.
           ++ left. auto.
        -- intros [= <- <-]. exists x. split; [reflexivity|]. split; [reflexivity|].
           left. auto.
      * intros [= <- <-]. exists x. split; [reflexivity|]. split; [reflexivity|].
        left. auto.
    + destruct (parentPath p) as [parent|]; [|discriminate].
      destruct (assigned_name _) as [y|]; [|discriminate].
      intros [= <- <-]. exists y. split; [reflexivity|]. split; [reflexivity|].
      left. auto.
  - cbn [andb]. destruct (parentPath p) as [parent|]; [|discriminate].
    destruct (assigned_name _) as [y|]; [|discriminate].
    intros [= <- <-]. exists y. split; [reflexivity|]. split; [reflexivity|].
    left. auto.
Qed.

Lemma declaration_plain host projectRoot f relPath p k n :
  declaration host projectRoot f relPath p = inr (Some (k, n)) -> is_module n = false.
Proof.
  unfold declaration. intros H. repeat case_match; simplify_eq; reflexivity.
Qed.

Lemma traceable_run host projectRoot graphMode files relPaths fuel fs st st' :
  (forall f, f ∈ files -> relPaths !! f = Some (path_relative host projectRoot f)) ->
  (forall f, f ∈ fs -> f ∈ files) -> stable files relPaths st ->
  process_all host projectRoot graphMode fuel fs st = Some st' ->
  traceable host projectRoot files (graph st) ->
  traceable host projectRoot files (graph st').
Proof.
  intros Hreg Hfs Hst Hrun.
  assert (forall f s, f ∈ files -> stable files relPaths s ->
            traceable host projectRoot files (graph s) ->
            traceable host projectRoot files (graph (enter_file host projectRoot f s)))
    as Henter.
  { intros f s Hf Hs Hinv k n Hin.
    destruct (stable_enter host projectRoot files relPaths Hreg f s Hs Hf)
      as (_ & _ & Hgraph).
    rewrite Hgraph in Hin. simpl in Hin.
    apply elem_of_nodes_set in Hin as [[= -> ->]|Hin]; [|apply Hinv, Hin].
    exists f. auto. }
  apply (tr_process_all host projectRoot graphMode files relPaths Hreg
           (fun a b => traceable host projectRoot files (graph a) ->
                       traceable host projectRoot files (graph b)))
    with (fuel := fuel) (fs := fs); try assumption.
  - auto.
  - auto.
  - intros f s script Hf Hs _ _. apply Henter; assumption.
  - intros f s message Hf Hs _ _ Hinv. apply (Henter f s Hf Hs Hinv).
  - intros f s s' body message Hf Hs _ _ _ Hrest Hinv. apply (Hrest (Henter f s Hf Hs Hinv)).
  - intros s target Hs Ht Hempty Hinv. exact Hinv.
  - intros f body s module kind Hf Hs _ Hkind Hinv. exact Hinv.
  - intros f body s target relTarget kind Hf Hs _ Hkind _ _ Hinv. exact Hinv.
  - intros f body s nodeId n p Hf Hs Hload Hp Hfun Hdecl Hinv k n' Hin.
    unfold declare in Hin. simpl in Hin.
    apply elem_of_nodes_set in Hin as [[= -> ->]|Hin]; [|apply Hinv, Hin].
    unfold origin. rewrite (declaration_plain _ _ _ _ _ _ _ Hdecl).
    exists f, body, p. auto.
Qed.

(** C9, amended. In every graph the builder returns, node identifiers
    are unique and say what the node is: a Module node is stored under
    its relative path, a Function node under its declaring file, "::"
    and its name, an API node under its upper-cased method name, a space
    and its route.  Every node comes from a collected file: a Module
    node is the node of the file, a Function or API node is what the
    function visitor declares, under that identifier, for a function of
    the file's tree.  The identifier the visitor declares a Function node
    under is the relative path of the declaring file, "::" and the name
    found for the function, so that two functions with the same name in
    files of different relative paths never receive the same identifier;
    the identifier of an API node is made of the method and the route,
    not of the file. *)
Theorem node_identifiers host targetPath graphMode g :
  parseToGraph host targetPath graphMode = Returns g ->
  let projectRoot := path_resolve1 host targetPath in
  let rel := path_relative host projectRoot in
  NoDup (fst <$> nodes g)
  /\ (forall k n, (k, n) ∈ nodes g -> key_shape k n)
  /\ (exists files relPaths,
        collectFiles host projectRoot projectRoot = Some (files, relPaths)
        /\ forall k n, (k, n) ∈ nodes g -> origin host projectRoot files k n)
  /\ (forall f p k n,
        declaration host projectRoot f (rel f) p = inr (Some (k, n)) ->
        identified host projectRoot f p k n)
  /\ (forall f1 f2 p1 p2 k1 k2 n1 n2,
        declaration host projectRoot f1 (rel f1) p1 = inr (Some (k1, n1)) ->
        declaration host projectRoot f2 (rel f2) p2 = inr (Some (k2, n2)) ->
        node_type n1 = "function" -> node_type n2 = "function" ->
        found_name p1 = found_name p2 -> rel f1 <> rel f2 ->
        k1 <> k2).
Proof.
  intros Hrun projectRoot rel.
  apply parseToGraph_returns in Hrun
    as (files & relPaths & st & Hcollect & Hst & Hnodes & _).
  fold projectRoot in Hcollect, Hst.
  pose proof Hcollect as Hcollected.
  apply collectFiles_collected in Hcollected as [_ Hreg]. simpl in Hreg.
  pose proof Hst as Hkeyed.
  eapply keyed_run in Hkeyed; [| exact Hreg | auto | apply initial_stable |].
  2:{ split; simpl; [apply NoDup_nil_2|]. intros k n Hin. inversion Hin. }
  destruct Hkeyed as [Hnodup Hkeys]. rewrite Hnodes.
  split; [exact Hnodup|]. split; [exact Hkeys|]. split; [|split].
  - exists files, relPaths. split; [exact Hcollect|].
    eapply traceable_run; [exact Hreg| |apply initial_stable|exact Hst|]; [auto|].
    intros k n Hin. inversion Hin.
  - intros f p k n. apply declaration_identified.
  - intros f1 f2 p1 p2 k1 k2 n1 n2 H1 H2 Ht1 Ht2 Hname Hfile Heq.
    apply declaration_identified in H1 as (x1 & Hx1 & _ & [(_ & _ & ->)|(Hapi & _)]);
      [|rewrite Ht1 in Hapi; discriminate].
    apply declaration_identified in H2 as (x2 & Hx2 & _ & [(_ & _ & ->)|(Hapi & _)]);
      [|rewrite Ht2 in Hapi; discriminate].
    rewrite Hx1, Hx2 in Hname. injection Hname as ->.
    apply append_inv_tail in Heq. exact (Hfile Heq).
Qed.

Lemma node_identifiers_witness :
  exists g,
    parseToGraph Scenario.project "/proj" "FAST" = Returns g
    /\ NoDup (fst <$> nodes g)
    /\ (forall k n, (k, n) ∈ nodes g -> key_shape k n)
    /\ (exists files relPaths,
          collectFiles Scenario.project "/proj" "/proj" = Some (files, relPaths)
          /\ forall k n, (k, n) ∈ nodes g -> origin Scenario.project "/proj" files k n)
    /\ (forall f p k n,
          declaration Scenario.project "/proj" f
            (path_relative Scenario.project "/proj" f) p = inr (Some (k, n)) ->
          identified Scenario.project "/proj" f p k n)
    /\ (forall f1 f2 p1 p2 k1 k2 n1 n2,
          declaration Scenario.project "/proj" f1
            (path_relative Scenario.project "/proj" f1) p1 = inr (Some (k1, n1)) ->
          declaration Scenario.project "/proj" f2
            (path_relative Scenario.project "/proj" f2) p2 = inr (Some (k2, n2)) ->
          node_type n1 = "function" -> node_type n2 = "function" ->
          found_name p1 = found_name p2 ->
          path_relative Scenario.project "/proj" f1
          <> path_relative Scenario.project "/proj" f2 ->
          k1 <> k2).
Proof.
  destruct (parseToGraph Scenario.project "/proj" "FAST") as [g| |] eqn:Hrun.
  - exists g. split; [reflexivity|].
    exact (node_identifiers Scenario.project "/proj" "FAST" g Hrun).
  - exfalso. vm_compute in Hrun. discriminate.
  - exfalso. vm_compute in Hrun. discriminate.
Defined.

(** ** Parse-failure isolation *)

(** The identifier of a function or API node holds "::" or a space. *)
Lemma declared_id_marked host projectRoot f nodeId n :
  node_shape host projectRoot f nodeId n ->
  is_module n = false
  /\ node_file n = Some (path_relative host projectRoot f)
  /\ (Js.includes "::" nodeId = true \/ Js.includes " " nodeId = true).
Proof.
  intros [(NAME & route & zone & ps & rt & a & _ & -> & ->)
         |(name & zone & ps & rt & a & -> & ->)];
    (split; [reflexivity|]; split; [reflexivity|]).
  - right. apply includes_append.
  - left. apply includes_append.
Qed.

Lemma module_count_fresh k v l :
  k ∉ fst <$> l ->
  module_count (nodes_set k v l) = module_count l + (if is_module v then 1 else 0).
Proof.
  unfold module_count. induction l as [|[k' v'] l IH]; intros Hk.
  - simpl. rewrite filter_cons. simpl. destruct (is_module v); reflexivity.
  - cbn [nodes_set]. rewrite fmap_cons in Hk. apply not_elem_of_cons in Hk as [Hne Hk].
    destruct (String.eqb_spec k' k) as [->|_]; [contradiction|].
    rewrite !filter_cons. simpl. destruct (is_module v'); simpl; rewrite IH; auto.
Qed.

Lemma module_count_plain k v l :
  (forall n, (k, n) ∈ l -> is_module n = false) -> is_module v = false ->
  module_count (nodes_set k v l) = module_count l.
Proof.
  unfold module_count. intros Hold Hv. induction l as [|[k' v'] l IH].
  - simpl. rewrite filter_cons. simpl. rewrite Hv. reflexivity.
  - cbn [nodes_set]. destruct (String.eqb_spec k' k) as [->|_].
    + rewrite !filter_cons. simpl. rewrite Hv, (Hold v') by now left. reflexivity.
    + rewrite !filter_cons. simpl.
      destruct (is_module v'); simpl;
        rewrite IH by (intros n Hn; apply Hold; now right); reflexivity.
Qed.

Lemma call_edges_from nodeId p e : e ∈ call_edges nodeId p -> Edge.from e = nodeId.
Proof.
  unfold call_edges. rewrite list_elem_of_In, in_flat_map. intros (q & _ & He).
  repeat case_match; simpl in He; try contradiction.
  destruct He as [<-|[]]. reflexivity.
Qed.

Section Isolation.

Variables (host : Host) (projectRoot graphMode : string).
Variables (files : list string) (relPaths : gmap string string) (bad : string).

#[local] Abbreviation rel f := (path_relative host projectRoot f).
#[local] Abbreviation Isolated := (isolated host projectRoot files bad).

Hypothesis files_registered : forall f, f ∈ files -> relPaths !! f = Some (rel f).
Hypothesis bad_file : bad ∈ files.
Hypothesis bad_unparsable : unparsable host bad.
Hypothesis others_parsable : forall f, f ∈ files -> f <> bad -> parsable host f.
Hypothesis routes_defined : forall f,
  f ∈ files -> f <> bad -> exists route, getRouteInfo host f projectRoot = inr route.
Hypothesis rel_injective : forall f f', f ∈ files -> f' ∈ files -> rel f = rel f' -> f = f'.
Hypothesis ids_apart : forall f f' body p k n,
  f ∈ files -> f' ∈ files -> load host f' = inr (Some (Program body)) ->
  p ∈ babelTraverse (Program body) ->
  declaration host projectRoot f' (rel f') p = inr (Some (k, n)) ->
  k <> rel f.

Lemma parsed_not_bad f script : load host f = inr script -> f <> bad.
Proof. intros Hload ->. destruct bad_unparsable as [message Hbad]. congruence. Qed.

Lemma unparsed_is_bad f message : f ∈ files -> load host f = inl message -> f = bad.
Proof.
  intros Hf Hload. destruct (decide (f = bad)) as [|Hne]; [assumption|].
  destruct (others_parsable f Hf Hne) as [script Hscript]. congruence.
Qed.



Lemma leaves_valid_set k v l e :
  (forall n, (k, n) ∈ l -> is_module n = false -> is_module v = false) ->
  leaves_valid host projectRoot files bad l e ->
  leaves_valid host projectRoot files bad (nodes_set k v l) e.
Proof.
  intros Hkeep [Hfile|(n & Hin & Hn)]; [left; exact Hfile|right].
  destruct (decide (Edge.from e = k)) as [Heq|Hne].
  - rewrite Heq in *. exists v. split; [apply nodes_set_same|eauto].
  - exists n. split; [apply nodes_set_other; assumption|exact Hn].
Qed.

Lemma leaves_parsed f script l e :
  f ∈ files -> load host f = inr script -> Edge.from e = rel f ->
  leaves_valid host projectRoot files bad l e.
Proof. intros Hf Hload Hfrom. left. exists f. eauto using parsed_not_bad. Qed.

(** Entering a file of the project. *)
Lemma isolated_enter f st :
  f ∈ files -> stable files relPaths st -> f ∉ processedFiles st ->
  Isolated st ->
  let st' := enter_file host projectRoot f st in
  total_files (metadata (graph st')) = size (processedFiles st')
  /\ unresolved_files (metadata (graph st')) = unresolved_files (metadata (graph st))
  /\ module_count (nodes (graph st')) = size (processedFiles st')
  /\ (forall k n, (k, n) ∈ nodes (graph st') ->
        if is_module n
        then exists f', f' ∈ processedFiles st' /\ k = rel f'
        else (forall f', f' ∈ files -> k <> rel f') /\ node_file n <> Some (rel bad))
  /\ (forall e, e ∈ edges (graph st') ->
        leaves_valid host projectRoot files bad (nodes (graph st')) e).
Proof.
  intros Hf Hst Hnew [Htotal Hunres Hmodules Hnodes Hedges].
  destruct (stable_enter host projectRoot files relPaths files_registered f st Hst Hf)
    as (Hst' & Hprocessed & Hgraph).
  destruct Hst as (_ & _ & Hsub).
  cbv zeta. rewrite Hgraph, Hprocessed. simpl.
  assert (size ({[f]} ∪ processedFiles st) = S (size (processedFiles st))) as Hsize.
  { rewrite size_union by set_solver. rewrite size_singleton. reflexivity. }
  rewrite Hsize.
  assert (rel f ∉ (nodes (graph st)).*1) as Hfresh.
  { intros Hin. apply list_elem_of_fmap in Hin as ([k n] & Hk & Hin). simpl in Hk. subst k.
    specialize (Hnodes _ _ Hin). destruct (is_module n).
    - destruct Hnodes as (f' & Hf' & Heq). apply rel_injective in Heq; [|assumption|].
      + subst f'. contradiction.
      + apply Hsub in Hf'. apply elem_of_list_to_set in Hf'. exact Hf'.
    - destruct Hnodes as [Hnot _]. apply (Hnot f Hf). reflexivity. }
  split; [lia|]. split; [reflexivity|]. split; [|split].
  - rewrite module_count_fresh by assumption. simpl. lia.
  - intros k n Hin. apply elem_of_nodes_set in Hin as [[= -> ->]|Hin].
    + simpl. exists f. split; [set_solver|reflexivity].
    + specialize (Hnodes _ _ Hin). destruct (is_module n); [|exact Hnodes].
      destruct Hnodes as (f' & Hf' & ->). exists f'. split; [set_solver|reflexivity].
  - intros e He. apply leaves_valid_set; [|exact (Hedges e He)].
    intros n Hin. exfalso. apply Hfresh.
    apply list_elem_of_fmap. exists (rel f, n). split; [reflexivity|exact Hin].
Qed.

Lemma isolated_run fuel fs st st' :
  (forall f, f ∈ fs -> f ∈ files) -> stable files relPaths st ->
  process_all host projectRoot graphMode fuel fs st = Some st' ->
  Isolated st -> Isolated st'.
Proof.
  intros Hfs Hst Hrun.
  destruct (tr_process_all host projectRoot graphMode files relPaths files_registered
              (fun a b => Isolated a -> Isolated b))
    with (fuel := fuel) (fs := fs) (st := st) (st' := st') as ((HR & _) & _);
    try assumption.
  - auto.
  - auto.
  - (* a parsable file is entered *)
    intros f s script Hf Hs Hnew Hload Hiso.
    destruct (isolated_enter f s Hf Hs Hnew Hiso) as (H1 & H2 & H3 & H4 & H5).
    destruct (stable_enter host projectRoot files relPaths files_registered f s Hs Hf)
      as (_ & Hprocessed & _).
    constructor; try assumption.
    rewrite H2, (iso_unresolved _ _ _ _ _ Hiso), Hprocessed.
    pose proof (parsed_not_bad f script Hload).
    repeat case_bool_decide; set_solver.
  - (* the unparsable file is entered and counted *)
    intros f s message Hf Hs Hnew Hload Hiso.
    destruct (isolated_enter f s Hf Hs Hnew Hiso) as (H1 & H2 & H3 & H4 & H5).
    destruct (stable_enter host projectRoot files relPaths files_registered f s Hs Hf)
      as (_ & Hprocessed & _).
    apply unparsed_is_bad in Hload; [|assumption]. subst f.
    constructor; try assumption.
    change (unresolved_files (metadata (graph (count_unresolved_file
              (enter_file host projectRoot bad s)))))
      with (unresolved_files (metadata (graph (enter_file host projectRoot bad s))) + 1).
    change (processedFiles (count_unresolved_file (enter_file host projectRoot bad s)))
      with (processedFiles (enter_file host projectRoot bad s)).
    rewrite H2, (iso_unresolved _ _ _ _ _ Hiso), Hprocessed.
    rewrite bool_decide_eq_false_2 by assumption.
    rewrite bool_decide_eq_true_2 by set_solver. reflexivity.
  - (* no parsable file throws *)
    intros f s s' body message Hf Hs Hnew Hload Hroute.
    destruct (routes_defined f Hf (parsed_not_bad f _ Hload)) as [route Hdefined].
    congruence.
  - intros s target Hs _ _ [Htotal Hunres Hmodules Hnodes Hedges].
    constructor; assumption.
  - intros f body s module kind Hf Hs Hload _ [Htotal Hunres Hmodules Hnodes Hedges].
    constructor; try assumption.
    intros e He. simpl in He. apply elem_of_app in He as [He|He]; [auto|].
    apply list_elem_of_singleton in He. subst e.
    apply (leaves_parsed f _) with (1 := Hf) (2 := Hload); reflexivity.
  - intros f body s target relTarget kind Hf Hs Hload _ _ _
      [Htotal Hunres Hmodules Hnodes Hedges].
    constructor; try assumption.
    intros e He. simpl in He. apply elem_of_app in He as [He|He]; [auto|].
    apply list_elem_of_singleton in He. subst e.
    apply (leaves_parsed f _) with (1 := Hf) (2 := Hload); reflexivity.
  - intros f body s nodeId n p Hf Hs Hload Hp Hfun Hdecl
      [Htotal Hunres Hmodules Hnodes Hedges].
    pose proof (declaration_shape host projectRoot f p nodeId n Hdecl) as Hshape.
    destruct (declared_id_marked _ _ _ _ _ Hshape) as (Hplain & Hfile & _).
    assert (forall f', f' ∈ files -> nodeId <> rel f') as Hmark
      by (intros f' Hf'; exact (ids_apart f' f body p nodeId n Hf' Hf Hload Hp Hdecl)).
    assert (rel f <> rel bad) as Hother.
    { intros Heq. apply rel_injective in Heq; try assumption.
      exact (parsed_not_bad f _ Hload Heq). }
    constructor; try assumption.
    + unfold declare. simpl. rewrite module_count_plain; [assumption| |assumption].
      intros old Hold. specialize (Hnodes _ _ Hold). destruct (is_module old); [|reflexivity].
      destruct Hnodes as (f' & Hf' & Heq). exfalso.
      destruct Hs as (_ & _ & Hsub). apply Hsub in Hf'.
      apply elem_of_list_to_set in Hf'. exact (Hmark f' Hf' Heq).
    + intros k n' Hin. unfold declare in Hin. simpl in Hin.
      apply elem_of_nodes_set in Hin as [[= -> ->]|Hin]; [|exact (Hnodes _ _ Hin)].
      rewrite Hplain. split; [exact Hmark|].
      rewrite Hfile. congruence.
    + intros e He. unfold declare in He |- *. simpl in He |- *.
      apply elem_of_app in He as [He|He]; [apply leaves_valid_set; auto|].
      apply elem_of_cons in He as [->|He];
        [apply (leaves_parsed f _) with (1 := Hf) (2 := Hload); reflexivity|].
      apply call_edges_from in He. right. exists n. rewrite He.
      split; [apply nodes_set_same|exact Hplain].
Qed.

(** An edge that leaves a valid file or a declared function does not
    leave the unparsable file. *)
Lemma leaves_valid_not_bad st e :
  Isolated st -> e ∈ edges (graph st) -> Edge.from e <> rel bad.
Proof.
  intros [_ _ _ Hnodes Hedges] He.
  destruct (Hedges e He) as [(f & Hf & Hne & ->)|(n & Hin & Hn)].
  - intros Heq. apply rel_injective in Heq; auto.
  - specialize (Hnodes _ _ Hin). rewrite Hn in Hnodes. apply Hnodes, bad_file.
Qed.

End Isolation.

Lemma NoDup_fmap_inj_on {A B : Type} (f : A -> B) (l : list A) x y :
  NoDup (f <$> l) -> x ∈ l -> y ∈ l -> f x = f y -> x = y.
Proof.
  induction l as [|a l IH]; intros Hnodup Hx Hy Heq; [inversion Hx|].
  rewrite fmap_cons in Hnodup. apply NoDup_cons in Hnodup as [Ha Hnodup].
  apply elem_of_cons in Hx as [->|Hx], Hy as [->|Hy]; auto.
  - exfalso. apply Ha. rewrite Heq. apply list_elem_of_fmap_2. exact Hy.
  - exfalso. apply Ha. rewrite <- Heq. apply list_elem_of_fmap_2. exact Hx.
Qed.

Lemma initial_isolated host projectRoot files relPaths bad :
  isolated host projectRoot files bad (initial_builder files relPaths).
Proof.
  assert (size (∅ : gset string) = 0) as Hempty by apply size_empty.
  constructor;
    cbn [initial_builder processedFiles graph empty_graph metadata nodes edges
         initial_metadata total_files unresolved_files].
  - symmetry. exact Hempty.
  - rewrite bool_decide_eq_false_2 by set_solver. reflexivity.
  - rewrite Hempty. reflexivity.
  - intros k n Hin. inversion Hin.
  - intros e He. inversion He.
Qed.

(** Relative paths that hold neither "::" nor a space are no identifiers
    of Function or API nodes. *)
Lemma plain_paths_apart host projectRoot files :
  Forall (fun f => Js.includes "::" (path_relative host projectRoot f) = false
                   /\ Js.includes " " (path_relative host projectRoot f) = false) files ->
  ids_apart host projectRoot files.
Proof.
  intros Hplain f f' body p k n Hf _ _ _ Hdecl Heq.
  rewrite Forall_forall in Hplain. destruct (Hplain f Hf) as [H1 H2].
  apply declaration_shape, declared_id_marked in Hdecl as (_ & _ & Hmark).
  rewrite Heq in Hmark. destruct Hmark; congruence.
Qed.

(** C2, as the specification states it, fails: of the ten files of this
    project only [f0.js] does not parse, the nine others load, and the
    graph has ten Module nodes, not nine. *)
Lemma unparsable_file_keeps_module_node :
  fst <$> collectFiles Ten.project "/proj" "/proj" = Some Ten.files
  /\ load Ten.project "/proj/f0.js" = inl "Unexpected token"
  /\ Forall (parsable Ten.project) (tl Ten.files)
  /\ (fun g => (module_count (nodes g), unresolved_files (metadata g)))
       <$> returned (parseToGraph Ten.project "/proj" "FAST")
     = Some (10, 1).
Proof.
  split; [vm_compute; reflexivity|]. split; [vm_compute; reflexivity|].
  split; [|vm_compute; reflexivity].
  repeat (apply Forall_cons_2; [eexists; vm_compute; reflexivity|]). apply Forall_nil_2.
Qed.

(** C2, amended. For every project of ten collected files of which
    exactly one does not load (reading or parsing it throws, or its
    traversal throws before the first visitor) while the nine others do
    (they are read and parsed, their traversal throws nothing, neither
    at its start nor from route extraction, the relative paths of the
    ten files are distinct, and none of them is the identifier a function
    of these files is declared under, as is the case when they hold
    neither "::" nor a space), building the graph returns without error,
    and the graph has exactly
    ten Module nodes, one per file, the file that does not load included,
    since a file gets its Module node before it is read; the
    unresolved-file count is 1 and the file count 10; no Function or API
    node is declared in the file that does not load and no edge leaves
    it: every edge leaves the Module node of a file that loads or a
    Function or API node of the graph. *)
Theorem parse_failure_isolation host targetPath graphMode files bad :
  let projectRoot := path_resolve1 host targetPath in
  fst <$> collectFiles host projectRoot projectRoot = Some files ->
  length files = 10 ->
  bad ∈ files -> unparsable host bad ->
  Forall (fun f => f <> bad -> parsable host f) files ->
  Forall (fun f => f <> bad ->
                   exists route, getRouteInfo host f projectRoot = inr route) files ->
  NoDup (path_relative host projectRoot <$> files) ->
  ids_apart host projectRoot files ->
  exists g,
    parseToGraph host targetPath graphMode = Returns g
    /\ module_count (nodes g) = 10
    /\ unresolved_files (metadata g) = 1
    /\ total_files (metadata g) = 10
    /\ (forall k n, (k, n) ∈ nodes g ->
          node_file n <> Some (path_relative host projectRoot bad))
    /\ (forall e, e ∈ edges g ->
          Edge.from e <> path_relative host projectRoot bad
          /\ leaves_valid host projectRoot files bad (nodes g) e).
Proof.
  intros projectRoot Hcollect Hten Hbad Hunparsable Hparsable Hroutes Hdistinct Hplain.
  rewrite Forall_forall in Hparsable, Hroutes.
  pose proof (parseToGraph_run host targetPath graphMode) as Hrun. simpl in Hrun.
  fold projectRoot in Hrun.
  destruct (collectFiles host projectRoot projectRoot) as [[files' relPaths]|] eqn:Hfiles;
    [|discriminate].
  injection Hcollect as ->.
  apply collectFiles_collected in Hfiles as [Hnodup Hreg]. simpl in Hnodup, Hreg.
  destruct Hrun as (st & g & Hst & Hg & Hnodes & Hedges & Hunres & Htotal & _).
  exists g. split; [exact Hg|]. rewrite Hnodes, Hedges, Hunres, Htotal.
  pose proof (isolated_run host projectRoot graphMode files relPaths bad Hreg
                Hbad Hunparsable Hparsable Hroutes
                (fun f f' => NoDup_fmap_inj_on _ files f f' Hdistinct) Hplain
                (length files) files (initial_builder files relPaths) st
                (fun f Hf => Hf) (initial_stable files relPaths) Hst
                (initial_isolated host projectRoot files relPaths bad))
    as Hiso.
  pose proof (leaves_valid_not_bad host projectRoot files bad Hbad
                (fun f f' => NoDup_fmap_inj_on _ files f f' Hdistinct) st) as Jleaves.
  destruct Hiso as [Jtotal Junres Jmodules Jnodes Jedges].
  destruct (gt_process_all host projectRoot graphMode files relPaths Hreg
              (fun _ _ => True))
    with (fuel := length files) (fs := files)
         (st := initial_builder files relPaths) (st' := st)
    as ((_ & (_ & _ & Hsub) & _) & Hall); auto using initial_stable.
  assert (processedFiles st = list_to_set files) as Hprocessed.
  { apply set_eq. intros f. rewrite elem_of_list_to_set. split; [|apply Hall].
    intros Hf. apply Hsub in Hf. apply elem_of_list_to_set in Hf. exact Hf. }
  assert (size (processedFiles st) = 10) as Hsize.
  { rewrite Hprocessed, size_list_to_set by assumption. exact Hten. }
  split; [congruence|]. split; [|split; [congruence|split]].
  - rewrite Junres, bool_decide_eq_true_2; [reflexivity|].
    rewrite Hprocessed. apply elem_of_list_to_set. exact Hbad.
  - intros k n Hin. specialize (Jnodes k n Hin). destruct n; simpl in *;
      [discriminate|apply Jnodes..].
  - intros e He. split; [|exact (Jedges e He)].
    apply Jleaves; [constructor; assumption|exact He].
Qed.

Lemma parse_failure_isolation_witness :
  fst <$> collectFiles Ten.project "/proj" "/proj" = Some Ten.files
  /\ "/proj/f0.js" ∈ Ten.files
  /\ unparsable Ten.project "/proj/f0.js"
  /\ exists g,
       parseToGraph Ten.project "/proj" "FAST" = Returns g
       /\ module_count (nodes g) = 10
       /\ unresolved_files (metadata g) = 1
       /\ total_files (metadata g) = 10
       /\ (forall k n, (k, n) ∈ nodes g -> node_file n <> Some "f0.js")
       /\ (forall e, e ∈ edges g ->
             Edge.from e <> "f0.js"
             /\ leaves_valid Ten.project "/proj" Ten.files "/proj/f0.js" (nodes g) e).
Proof.
  assert (fst <$> collectFiles Ten.project "/proj" "/proj" = Some Ten.files) as Hcollect
    by (vm_compute; reflexivity).
  assert ("/proj/f0.js" ∈ Ten.files) as Hbad by left.
  assert (unparsable Ten.project "/proj/f0.js") as Hunparsable
    by (exists "Unexpected token"; vm_compute; reflexivity).
  split; [exact Hcollect|]. split; [exact Hbad|]. split; [exact Hunparsable|].
  apply (parse_failure_isolation Ten.project "/proj" "FAST" Ten.files "/proj/f0.js"
           Hcollect eq_refl Hbad Hunparsable).
  - apply Forall_cons_2; [intros Hne; contradiction|].
    repeat (apply Forall_cons_2; [intros _; eexists; vm_compute; reflexivity|]).
    apply Forall_nil_2.
  - repeat (apply Forall_cons_2; [intros _; eexists; vm_compute; reflexivity|]).
    apply Forall_nil_2.
  - match goal with |- ?G => apply (bool_decide_eq_true_1 G) end.
    vm_compute. reflexivity.
  - apply plain_paths_apart.
    repeat (apply Forall_cons_2; [split; vm_compute; reflexivity|]).
    apply Forall_nil_2.
Defined.

(* ===================================================================== *)
(** * The end-to-end scenario *)
(* ===================================================================== *)

(** C1. End-to-end scenario: for the project whose root holds [a.js],
    exporting function [foo], and [b.js], importing [foo] from
    './a.js' and defining a function [bar] that calls [foo()] with no
    guards, the builder returns a graph on which the blast-radius
    traversal of "a.js::foo" yields exactly one impact, "b.js::bar"
    at depth 1, and the safety scan of [b.js] for "foo" yields one
    record, for that call site, with assumed-exists true,
    unsafe-dereference likelihood 0.85 and unhandled-error probability
    0.60. *)
Theorem end_to_end_scenario :
  exists g,
    parseToGraph Scenario.project "/proj" "FAST" = Returns g
    /\ calculateBlastRadius g "a.js::foo" = Some [scenario_impact]
    /\ Impact.id scenario_impact = "b.js::bar"
    /\ Impact.depth scenario_impact = 1
    /\ scanCallerSafety Scenario.project "/proj/b.js" "foo"
       = [Analysis "/proj/b.js" (Some 1) (Some 47) "foo"
            scenario_flags scenario_probabilities]
    /\ assumedExists scenario_flags = true
    /\ unsafeDereferenceLikelihood scenario_probabilities = 0.85%float
    /\ unhandledErrorProbability scenario_probabilities = 0.60%float.
Proof.
  destruct (parseToGraph Scenario.project "/proj" "FAST") as [g| |] eqn:Hrun;
    [|vm_compute in Hrun; discriminate..].
  exists g. split; [reflexivity|].
  assert (g = default empty_graph (returned (parseToGraph Scenario.project "/proj" "FAST")))
    as -> by (rewrite Hrun; reflexivity).
  repeat split; vm_compute; reflexivity.
Qed.

(* ===================================================================== *)
(** * Further properties of the caller-safety analysis *)
(* ===================================================================== *)

(** ** The scores *)

Lemma all_flags_complete (f : safetyFlags) : f ∈ all_flags.
Proof.
  destruct f as [[] [] [] [] [] []]; apply list_elem_of_In; cbv; tauto.
Qed.

(** X1. Both scores of [calculateSafetyProbabilities] lie between 0
    and 1, whatever the six flags are. *)
Theorem scores_within_unit_interval (f : safetyFlags) :
  (0 <=? dereference_risk f)%float = true
  /\ (dereference_risk f <=? 1)%float = true
  /\ (0 <=? error_risk f)%float = true
  /\ (error_risk f <=? 1)%float = true.
Proof. destruct f as [[] [] [] [] [] []]; vm_compute; auto. Qed.

(** X2. A call site that has a null check or is read through optional
    chaining gets an unsafe-dereference likelihood of exactly 0: the
    mitigations (-0.5, -0.4) always exceed the base of 0.1 they apply
    to, and the result is clamped at 0. *)
Theorem guarded_call_has_no_dereference_risk (f : safetyFlags) :
  hasNullCheck f || isOptionalChaining f = true ->
  dereference_risk f = 0%float.
Proof.
  destruct f as [[] [] [] [] [] []]; intros H;
    first [vm_compute in H; discriminate H | vm_compute; reflexivity].
Qed.

Lemma guarded_call_has_no_dereference_risk_witness :
  dereference_risk Chained.flags = 0%float.
Proof. apply (guarded_call_has_no_dereference_risk Chained.flags). reflexivity. Defined.

(** X3. Safety mechanisms never raise a score and risk factors never
    lower one: when a call site has every mechanism of another (try/catch,
    null check, optional chaining) and none of the risk factors the other
    lacks (immediate destructuring, assumed existence, async call),
    neither of its two scores is higher. *)
Theorem more_guarded_never_riskier (f f' : safetyFlags) :
  at_least_as_guarded f f' = true ->
  (dereference_risk f' <=? dereference_risk f)%float = true
  /\ (error_risk f' <=? error_risk f)%float = true.
Proof.
  intros Hguarded.
  assert (forallb (fun a =>
            forallb (fun b =>
              implb (at_least_as_guarded a b)
                ((dereference_risk b <=? dereference_risk a)%float
                 && (error_risk b <=? error_risk a)%float))
              all_flags) all_flags = true) as Hall by (vm_compute; reflexivity).
  rewrite forallb_forall in Hall.
  specialize (Hall f (proj1 (list_elem_of_In _ _) (all_flags_complete f))).
  rewrite forallb_forall in Hall.
  specialize (Hall f' (proj1 (list_elem_of_In _ _) (all_flags_complete f'))).
  rewrite Hguarded in Hall. cbn [implb] in Hall. apply andb_true_iff in Hall. exact Hall.
Qed.

Lemma more_guarded_never_riskier_witness :
  (dereference_risk safest_flags <=? dereference_risk nested_call_flags)%float = true
  /\ (error_risk safest_flags <=? error_risk nested_call_flags)%float = true.
Proof. apply (more_guarded_never_riskier nested_call_flags safest_flags). reflexivity. Defined.


(** ** The flags *)

Section MoreWalkFacts.

Variables (b : Binding) (call : Expr).

Lemma walk_step_try w q :
  w_try (walk_step b call w q) = w_try w || isTryStatement (path_node q).
Proof.
  destruct w as [t a n]. unfold walk_step.
  destruct (isTryStatement _), (isFunctionLike _ && node_async _), t, n; simpl;
    try reflexivity; destruct (guards _ _ _); reflexivity.
Qed.

Lemma walk_try qs : forall w,
  w_try (fold_left (walk_step b call) qs w)
  = w_try w || existsb isTryStatement (path_node <$> qs).
Proof.
  induction qs as [|q qs IH]; intros w; simpl.
  - now rewrite orb_false_r.
  - rewrite IH, walk_step_try, orb_assoc. reflexivity.
Qed.

Lemma guards_branch e : guards b call e = true -> isBranch (e_node e) = true.
Proof. unfold guards, isBranch. destruct (_ || _); [reflexivity|discriminate]. Qed.

Lemma walk_step_guard w q :
  w_null (walk_step b call w q) = true ->
  w_null w = true \/ isBranch (path_node q) = true.
Proof.
  destruct w as [t a n]. unfold walk_step.
  destruct (isTryStatement _), (isFunctionLike _ && node_async _), n; simpl; auto;
    destruct (guards b call (expr_of q)) eqn:Hg; simpl; auto;
    right; exact (guards_branch _ Hg).
Qed.

Lemma walk_guard qs : forall w,
  w_null (fold_left (walk_step b call) qs w) = true ->
  w_null w = true \/ existsb isBranch (path_node <$> qs) = true.
Proof.
  induction qs as [|q qs IH]; intros w; simpl; [auto|].
  intros H. apply IH in H as [H|H]; [|right; apply orb_true_iff; right; exact H].
  apply walk_step_guard in H as [H|H]; [auto|]. right. apply orb_true_iff. left. exact H.
Qed.

End MoreWalkFacts.

Lemma await_not_try n : isAwaitExpression n = true -> isTryStatement n = false.
Proof. destruct n; simpl; intros; try discriminate; reflexivity. Qed.

Lemma call_site_try p flags :
  call_site_flags p = inr flags ->
  hasTryCatch flags = existsb isTryStatement (enclosing p).
Proof.
  unfold call_site_flags. destruct (binding_of p) as [|b] eqn:Hb; [discriminate|].
  intros [= <-]. simpl.
  destruct (binding_walk_from _ _ Hb) as (parent & Hparent & Hfrom).
  unfold enclosing. rewrite Hparent.
  destruct Hfrom as [-> | (Hawait & grand & Hgrand & ->)]; simpl;
    rewrite walk_try; simpl; [reflexivity|].
  rewrite (upward_parent parent), Hgrand. simpl.
  rewrite (await_not_try _ Hawait). reflexivity.
Qed.

Lemma call_site_null p flags :
  call_site_flags p = inr flags ->
  hasNullCheck flags = true ->
  isOptionalChaining flags = true \/ existsb isBranch (enclosing p) = true.
Proof.
  unfold call_site_flags. destruct (binding_of p) as [|b] eqn:Hb; [discriminate|].
  intros [= <-]. simpl.
  destruct (binding_walk_from _ _ Hb) as (parent & Hparent & Hfrom).
  unfold enclosing. rewrite Hparent.
  destruct Hfrom as [-> | (Hawait & grand & Hgrand & ->)]; simpl;
    intros H; apply walk_guard in H as [H|H]; auto; right.
  rewrite (upward_parent parent), Hgrand. simpl. apply orb_true_iff. right. exact H.
Qed.

Lemma call_site_assumed p flags :
  call_site_flags p = inr flags ->
  assumedExists flags
  = negb (hasNullCheck flags) && negb (hasTryCatch flags)
    && negb (isDestructuredImmediately flags) && negb (isOptionalChaining flags).
Proof.
  unfold call_site_flags. destruct (binding_of p) as [|b]; [discriminate|].
  intros [= <-]. reflexivity.
Qed.

(** ** The records of a scan *)

Lemma visit_calls_analyses filePath target ps records err :
  visit_calls filePath target ps = (records, err) ->
  Forall (fun r => exists p flags,
            p ∈ ps /\ r = analysis_of filePath target p flags
            /\ call_site_flags p = inr flags) records.
Proof.
  intros Hv. apply Forall_forall. intros r Hr.
  exact (visit_calls_records _ _ _ _ _ _ Hv Hr).
Qed.

(** X4. The result of a scan is a run of call-site analyses followed by
    at most one note.  Every analysis names the scanned file, has the
    target as its callee and carries the scores computed from its own
    flags; the note, if any, names the scanned file. *)
Theorem scan_result_shape host filePath target :
  exists analyses notes,
    scanCallerSafety host filePath target = analyses ++ notes
    /\ Forall (fun r => exists line column flags,
                 r = Analysis filePath line column target flags
                       (calculateSafetyProbabilities flags)) analyses
    /\ length notes <= 1
    /\ Forall (fun r => is_analysis r = false /\ record_file r = filePath) notes.
Proof.
  unfold scanCallerSafety, scan_error.
  destruct (existsSync host filePath); cbn [negb].
  2:{ exists [], [Note filePath (Some target) "File not found for safety scan."].
      repeat split; auto. }
  destruct (readFileSync host filePath) as [message|code].
  { eexists [], [_]. repeat split; auto. }
  destruct (_ && _).
  { exists [], []. repeat split; auto. }
  destruct (parse host _) as [message|body].
  { eexists [], [_]. repeat split; auto. }
  destruct (traverse_error host _) as [message|].
  { eexists [], [_]. repeat split; auto. }
  destruct (visit_calls _ _ _) as [records err] eqn:Hvisit.
  apply visit_calls_analyses in Hvisit.
  assert (Forall (fun r => exists line column flags,
                    r = Analysis filePath line column target flags
                          (calculateSafetyProbabilities flags)) records) as Hrecords.
  { eapply Forall_impl; [exact Hvisit|]. intros r (p & flags & _ & -> & _).
    unfold analysis_of. eauto. }
  destruct err as [message|].
  - eexists records, [_]. repeat split; auto.
  - exists records, []. rewrite app_nil_r. repeat split; auto.
Qed.

Lemma scan_analyses host filePath target :
  Forall (fun r => forall flags, record_flags r = Some flags ->
            exists body p, analysed_at host filePath target r flags body p)
    (scanCallerSafety host filePath target).
Proof.
  apply Forall_forall. intros r Hr flags Hflags.
  destruct (scan_records _ _ _ _ Hr)
    as (code & body & p & flags' & _ & Hp & -> & Hsite & _ & Hload & Hcalls).
  { rewrite Hflags. eauto. }
  injection Hflags as <-. exists body, p. repeat split; assumption.
Qed.

(** X5. In every analysis a scan produces, assumed-exists is true
    exactly when the call site has no null check, no try/catch, no
    immediate destructuring and no optional chaining. *)
Theorem assumed_exists_means_unguarded host filePath target :
  Forall (fun r => forall flags, record_flags r = Some flags ->
            assumedExists flags
            = negb (hasNullCheck flags) && negb (hasTryCatch flags)
              && negb (isDestructuredImmediately flags)
              && negb (isOptionalChaining flags))
    (scanCallerSafety host filePath target).
Proof.
  eapply Forall_impl; [apply scan_analyses|]. intros r Hr flags Hflags.
  destruct (Hr flags Hflags) as (body & p & _ & _ & _ & Hsite & _).
  exact (call_site_assumed _ _ Hsite).
Qed.

(** X6. Every analysis a scan produces is the analysis of a call of
    the target in the tree the scanned file is parsed to, with the flags
    computed at that call, and its has-try-catch is true exactly when
    some syntax node above that call is a try statement, whichever part
    of it holds the call: the guarded block, the catch handler or the
    finalizer. *)
Theorem try_catch_reflects_any_enclosing_try host filePath target :
  Forall (fun r => forall flags, record_flags r = Some flags ->
            exists body p,
              analysed_at host filePath target r flags body p
              /\ hasTryCatch flags = existsb isTryStatement (enclosing p))
    (scanCallerSafety host filePath target).
Proof.
  eapply Forall_impl; [apply scan_analyses|]. intros r Hr flags Hflags.
  destruct (Hr flags Hflags) as (body & p & Hat).
  exists body, p. split; [exact Hat|].
  destruct Hat as (_ & _ & _ & Hsite & _). exact (call_site_try _ _ Hsite).
Qed.

(** X7. Every analysis a scan produces is the analysis of a call of
    the target in the tree the scanned file is parsed to, with the flags
    computed at that call, and a null check is credited only to a call
    read through optional chaining or lying under an if statement or a
    conditional expression: a guard written any other way (a logical
    operator or a loop condition, say) is not seen. *)
Theorem null_check_needs_branch host filePath target :
  Forall (fun r => forall flags, record_flags r = Some flags ->
            exists body p,
              analysed_at host filePath target r flags body p
              /\ (hasNullCheck flags = true ->
                  isOptionalChaining flags = true
                  \/ existsb isBranch (enclosing p) = true))
    (scanCallerSafety host filePath target).
Proof.
  eapply Forall_impl; [apply scan_analyses|]. intros r Hr flags Hflags.
  destruct (Hr flags Hflags) as (body & p & Hat).
  exists body, p. split; [exact Hat|]. intros Hnull.
  destruct Hat as (_ & _ & _ & Hsite & _). exact (call_site_null _ _ Hsite Hnull).
Qed.


(** ** Script blocks of a Svelte file *)

Lemma prefix_cons a s c t :
  String.prefix (String a s) (String c t)
  = if ascii_dec a c then String.prefix s t else false.
Proof. reflexivity. Qed.

Lemma script_blocks_plain s :
  Js.includes "<script" s = false -> script_blocks 0 s = "".
Proof.
  induction s as [|c s IH]; [reflexivity|].
  rewrite includes_unfold. destruct (String.prefix "<script" (String c s)) eqn:Hp;
    [discriminate|].
  intros Hs. cbn [script_blocks]. unfold script_match. rewrite Hp. apply IH, Hs.
Qed.

(** The closing tag cannot begin inside [a] and end inside itself: its
    first character occurs nowhere else in it. *)
Lemma closing_tag_boundary a b :
  String.prefix "</script>" (a +:+ "</script>" +:+ b) = true ->
  a = "" \/ String.prefix "</script>" a = true.
Proof.
  destruct a as [|c a]; [auto|]. intros H. right. revert H.
  change (String c a +:+ "</script>" +:+ b) with (String c (a +:+ "</script>" +:+ b)).
  rewrite !prefix_cons. destruct (ascii_dec _ c) as [<-|]; [|discriminate].
  do 8 (destruct a as [|c a]; [intros H; vm_compute in H; discriminate|];
        change (String c a +:+ "</script>" +:+ b)
          with (String c (a +:+ "</script>" +:+ b));
        rewrite !prefix_cons; destruct (ascii_dec _ c) as [<-|]; [|discriminate]).
  destruct a; reflexivity.
Qed.

Lemma cut_closing_tag a b :
  Js.includes "</script>" a = false ->
  Js.cut "</script>" (a +:+ "</script>" +:+ b) = Some (a, b).
Proof.
  induction a as [|c a IH]; intros Ha.
  { change ("" +:+ "</script>" +:+ b) with ("</script>" +:+ b).
    rewrite cut_unfold, prefix_append. reflexivity. }
  assert (String.prefix "</script>" (String c a +:+ "</script>" +:+ b) = false) as Hp.
  { destruct (String.prefix _ _) eqn:Hp; [|reflexivity].
    apply closing_tag_boundary in Hp as [Hp|Hp]; [discriminate|].
    rewrite includes_unfold, Hp in Ha. discriminate. }
  rewrite includes_unfold in Ha.
  destruct (String.prefix "</script>" (String c a)); [discriminate|].
  change (String c a +:+ "</script>" +:+ b) with (String c (a +:+ "</script>" +:+ b)) in *.
  rewrite cut_unfold, Hp, (IH Ha). reflexivity.
Qed.

Lemma script_blocks_skip a r :
  script_blocks (String.length a) (a +:+ r) = script_blocks 0 r.
Proof.
  induction a as [|c a IH]; [destruct r; reflexivity|]. exact IH.
Qed.

Lemma append_associative (a b c : string) : (a +:+ b) +:+ c = a +:+ (b +:+ c).
Proof.
  induction a as [|x a IH]; [reflexivity|].
  change (String x ((a +:+ b) +:+ c) = String x (a +:+ (b +:+ c))). rewrite IH. reflexivity.
Qed.

Lemma length_append (a b : string) :
  String.length (a +:+ b) = String.length a + String.length b.
Proof.
  induction a as [|c a IH]; [reflexivity|].
  change (S (String.length (a +:+ b)) = S (String.length a + String.length b)).
  rewrite IH. reflexivity.
Qed.

(** X8. Script extraction: markup that holds no script tag gives the
    empty script, and a text that begins with a plain script block gives
    the content of the block, a line feed, and what the rest of the text
    gives (the content ends at the first closing tag). *)
Theorem extractScriptContent_blocks :
  (forall markup,
      Js.includes "<script" markup = false -> extractScriptContent markup = "")
  /\ (forall content rest,
        Js.includes "</script>" content = false ->
        extractScriptContent ("<script>" +:+ content +:+ "</script>" +:+ rest)
        = content +:+ LF +:+ extractScriptContent rest).
Proof.
  split; [exact script_blocks_plain|].
  intros content rest Hcontent. unfold extractScriptContent.
  set (tail := "script>" +:+ content +:+ "</script>" +:+ rest).
  change ("<script>" +:+ content +:+ "</script>" +:+ rest) with (String "<" tail).
  cbn [script_blocks]. unfold script_match.
  change (String.prefix "<script" (String "<" tail)) with true. cbv iota.
  change (Js.drop 7 (String "<" tail)) with (">" +:+ content +:+ "</script>" +:+ rest).
  change (script_tag_end (">" +:+ content +:+ "</script>" +:+ rest))
    with (Some (content +:+ "</script>" +:+ rest)).
  cbv iota. rewrite (cut_closing_tag _ _ Hcontent).
  assert (tail = ("script>" +:+ content +:+ "</script>") +:+ rest) as Htail.
  { unfold tail. rewrite !append_associative. reflexivity. }
  clearbody tail.
  replace (String.length (String "<" tail) - String.length rest - 1)
    with (String.length ("script>" +:+ content +:+ "</script>")).
  - rewrite Htail, script_blocks_skip. reflexivity.
  - cbn [String.length]. rewrite Htail, (length_append _ rest). lia.
Qed.

(** X9. A Svelte file that can be read and holds no script tag yields
    no record at all, neither an analysis nor a note. *)
Theorem svelte_without_script_yields_nothing host filePath target code :
  existsSync host filePath = true ->
  readFileSync host filePath = inr code ->
  Js.endsWith ".svelte" filePath = true ->
  Js.includes "<script" code = false ->
  scanCallerSafety host filePath target = [].
Proof.
  intros Hexists Hread Hsvelte Hplain. unfold scanCallerSafety.
  rewrite Hexists, Hread, Hsvelte. cbn [negb].
  unfold extractScriptContent. rewrite (script_blocks_plain _ Hplain). reflexivity.
Qed.

Lemma svelte_without_script_yields_nothing_witness :
  scanCallerSafety Markup.project "/proj/e.svelte" "foo" = [].
Proof.
  apply (svelte_without_script_yields_nothing Markup.project "/proj/e.svelte" "foo"
           Markup.e_svelte); vm_compute; reflexivity.
Defined.


(* ===================================================================== *)
(** * Further properties of the blast-radius traversal *)
(* ===================================================================== *)

(** ** Orders and routes *)

Lemma nondecreasing_snoc l x :
  nondecreasing l -> Forall (fun a => a <= x) l -> nondecreasing (l ++ [x]).
Proof.
  intros Hl Hx j k a b Hjk Hj Hk.
  destruct (decide (k < length l)) as [Hlt|Hge].
  - rewrite lookup_app_l in Hj, Hk by lia. eauto.
  - rewrite lookup_app_r in Hk by lia.
    apply list_lookup_singleton_Some in Hk as [_ <-].
    destruct (decide (j < length l)) as [Hlt|Hge'].
    + rewrite lookup_app_l in Hj by lia.
      rewrite Forall_forall in Hx. apply Hx. eapply list_elem_of_lookup_2, Hj.
    + rewrite lookup_app_r in Hj by lia.
      apply list_lookup_singleton_Some in Hj as [_ <-]. lia.
Qed.

Lemma nondecreasing_tail x l : nondecreasing (x :: l) -> nondecreasing l.
Proof. intros Hl j k a b Hjk Hj Hk. apply (Hl (S j) (S k)); [lia|assumption..]. Qed.

Lemma nondecreasing_head x l : nondecreasing (x :: l) -> Forall (fun a => x <= a) l.
Proof.
  intros Hl. apply Forall_forall. intros a Ha.
  apply list_elem_of_lookup in Ha as (k & Hk). apply (Hl 0 (S k)); [lia|reflexivity|exact Hk].
Qed.

Lemma nondecreasing_cons x l :
  Forall (fun a => x <= a) l -> nondecreasing l -> nondecreasing (x :: l).
Proof.
  intros Hx Hl j k a b Hjk Hj Hk. destruct j as [|j], k as [|k]; simpl in *.
  - injection Hj as <-. injection Hk as <-. lia.
  - injection Hj as <-. rewrite Forall_forall in Hx. apply Hx.
    eapply list_elem_of_lookup_2, Hk.
  - lia.
  - apply (Hl j k); [lia|assumption..].
Qed.

Section Routes.

Variable adj : gmap string (list string).

Lemma linked_snoc path x :
  linked adj path ->
  (forall y, last path = Some y -> x ∈ dependents_of adj y) ->
  linked adj (path ++ [x]).
Proof.
  induction path as [|a path IH]; intros Hpath Hlast; [exact I|].
  destruct path as [|b path].
  - simpl. split; [apply Hlast; reflexivity|exact I].
  - destruct Hpath as [Hab Hrest]. split; [exact Hab|].
    apply IH; [exact Hrest|]. intros y Hy. apply Hlast. exact Hy.
Qed.

Lemma linked_snoc_inv path x :
  linked adj (path ++ [x]) ->
  linked adj path /\ forall y, last path = Some y -> x ∈ dependents_of adj y.
Proof.
  induction path as [|a path IH]; intros Hpath.
  - split; [exact I|]. intros y Hy. discriminate.
  - destruct path as [|b path].
    + destruct Hpath as [Hax _]. split; [exact I|]. intros y [= <-]. exact Hax.
    + destruct Hpath as [Hab Hrest]. apply IH in Hrest as [Hrest Hlast].
      split; [split; assumption|]. intros y Hy. apply Hlast. exact Hy.
Qed.

Lemma route_snoc source y x path :
  route adj source y path -> x ∈ dependents_of adj y ->
  route adj source x (path ++ [x]).
Proof.
  intros (Hhead & Hlast & Hlinked) Hx. split; [|split].
  - destruct path; [discriminate|exact Hhead].
  - apply last_snoc.
  - apply linked_snoc; [exact Hlinked|]. intros y' Hy'. congruence.
Qed.

End Routes.

(** ** The second loop invariant *)

Section Shape.

Variables (g : Graph) (targetId : string).

Let adj := build_adj (edges g).

Lemma discover_shape entry st dep :
  dep ∈ dependents_of adj (q_id entry) ->
  bfs_shape g targetId adj (entry :: queue st) (impacts st) ->
  let st' := discover g entry st dep in
  bfs_shape g targetId adj (entry :: queue st') (impacts st').
Proof.
  intros Hdep Hshape. unfold discover.
  case_bool_decide as Hvisited; simpl; [exact Hshape|].
  destruct Hshape as [Hqueue Hfound Hqs Hfs Hbound].
  destruct (Hbound entry eq_refl) as [Hq1 Hf1].
  pose proof (Forall_inv Hqueue) as [Hroute Hlen].
  assert (route adj targetId dep (q_chain entry ++ [dep])) as Hnew
    by (eapply route_snoc; eassumption).
  constructor.
  - rewrite app_comm_cons. apply Forall_app. split; [exact Hqueue|].
    apply Forall_singleton. split; simpl; [exact Hnew|].
    rewrite length_app, Hlen. simpl. lia.
  - apply Forall_app. split; [exact Hfound|]. apply Forall_singleton.
    exists (q_depth entry), (q_chain entry ++ [dep]). split; [reflexivity|].
    split; [exact Hnew|]. rewrite length_app, Hlen. simpl. lia.
  - rewrite fmap_cons, fmap_app. rewrite app_comm_cons. apply nondecreasing_snoc.
    + rewrite <- fmap_cons. exact Hqs.
    + rewrite <- fmap_cons. apply Forall_fmap. eapply Forall_impl; [exact Hq1|].
      simpl. intros e He. lia.
  - rewrite fmap_app. apply nondecreasing_snoc; [exact Hfs|].
    apply Forall_fmap. eapply Forall_impl; [exact Hf1|]. simpl. intros i Hi. lia.
  - intros h [= <-]. split.
    + rewrite app_comm_cons. apply Forall_app. split; [exact Hq1|].
      apply Forall_singleton. simpl. lia.
    + apply Forall_app. split; [exact Hf1|]. apply Forall_singleton. simpl. lia.
Qed.

Lemma fold_discover_shape entry deps : forall st,
  (forall dep, dep ∈ deps -> dep ∈ dependents_of adj (q_id entry)) ->
  bfs_shape g targetId adj (entry :: queue st) (impacts st) ->
  let st' := fold_left (discover g entry) deps st in
  bfs_shape g targetId adj (entry :: queue st') (impacts st').
Proof.
  induction deps as [|dep deps IH]; intros st Hdeps Hshape; simpl; [exact Hshape|].
  apply IH; [intros; apply Hdeps; now right|].
  apply discover_shape; [apply Hdeps; now left|exact Hshape].
Qed.

(** Once the entry is done, the rest of the queue keeps the shape. *)
Lemma bfs_shape_next entry q found :
  bfs_shape g targetId adj (entry :: q) found -> bfs_shape g targetId adj q found.
Proof.
  intros [Hqueue Hfound Hqs Hfs Hbound].
  destruct (Hbound entry eq_refl) as [Hq1 Hf1].
  constructor; try assumption.
  - exact (Forall_inv_tail Hqueue).
  - rewrite fmap_cons in Hqs. exact (nondecreasing_tail _ _ Hqs).
  - intros h Hh. destruct q as [|h' q]; [discriminate|]. injection Hh as ->.
    assert (q_depth entry <= q_depth h) as Hle.
    { apply (Hqs 0 1); [lia|reflexivity..]. }
    split.
    + apply Forall_inv_tail in Hq1. eapply Forall_impl; [exact Hq1|].
      simpl. intros e He. lia.
    + eapply Forall_impl; [exact Hf1|]. simpl. intros i Hi. lia.
Qed.

Lemma bfs_shape_final fuel : forall st l,
  bfs_shape g targetId adj (queue st) (impacts st) ->
  bfs fuel g adj st = Some l ->
  bfs_shape g targetId adj [] l.
Proof.
  induction fuel as [|fuel IH]; intros st l Hshape.
  - destruct st as [seen [|entry rest] found]; simpl in *; [|discriminate].
    intros [= <-]. exact Hshape.
  - destruct st as [seen [|entry rest] found]; simpl in *.
    { intros [= <-]. exact Hshape. }
    set (st0 := {| visited := seen; queue := rest; impacts := found |}).
    intros Hbfs. apply (IH _ _ (bfs_shape_next entry _ _
      (fold_discover_shape entry (dependents_of adj (q_id entry)) st0
         (fun _ H => H) Hshape)) Hbfs).
Qed.

Lemma bfs_shape_initial :
  bfs_shape g targetId adj
    [{| q_id := targetId; q_depth := 0; q_chain := [targetId] |}] [].
Proof.
  constructor.
  - apply Forall_singleton. repeat split.
  - apply Forall_nil_2.
  - intros j k a b Hjk Hj Hk. apply list_lookup_singleton_Some in Hj as [_ <-].
    apply list_lookup_singleton_Some in Hk as [_ <-]. lia.
  - intros j k a b _ Hj. inversion Hj.
  - intros h [= <-]. split; [apply Forall_singleton; simpl; lia|apply Forall_nil_2].
Qed.

Lemma calculateBlastRadius_shape l :
  calculateBlastRadius g targetId = Some l -> bfs_shape g targetId adj [] l.
Proof.
  unfold calculateBlastRadius. fold adj. intros Hl.
  eapply bfs_shape_final; [|exact Hl]. exact bfs_shape_initial.
Qed.

(** Both invariants, of the list the traversal returns. *)
Lemma calculateBlastRadius_facts :
  exists l done seen,
    calculateBlastRadius g targetId = Some l
    /\ bfs_inv targetId adj done [] seen l
    /\ bfs_shape g targetId adj [] l.
Proof.
  destruct (calculateBlastRadius_inv g targetId) as (l & done & seen & Hl & Hinv).
  exists l, done, seen. split; [exact Hl|]. split; [exact Hinv|].
  exact (calculateBlastRadius_shape l Hl).
Qed.

End Shape.

(** ** What the routes say about the returned list *)

Lemma made_depth g targetId adj i :
  well_made g targetId adj i ->
  exists path,
    route adj targetId (Impact.id i) path
    /\ length path = S (Impact.depth i)
    /\ Impact.chain i = Js.join arrow path.
Proof.
  intros (d & path & Hi & Hroute & Hlen). exists path.
  split; [exact Hroute|]. rewrite Hi. simpl. split; [lia|reflexivity].
Qed.

(** X10. Every impact is connected to the target: there is a chain of
    nodes from the target to the impact, each a dependent of the one
    before, with as many steps as the depth of the impact, and the chain
    field of the impact is that chain, joined by arrows. *)
Theorem impact_chain_is_a_route g targetId :
  exists l,
    calculateBlastRadius g targetId = Some l
    /\ forall i, i ∈ l ->
         exists path,
           route (build_adj (edges g)) targetId (Impact.id i) path
           /\ length path = S (Impact.depth i)
           /\ Impact.chain i = Js.join arrow path.
Proof.
  destruct (calculateBlastRadius_facts g targetId) as (l & _ & _ & Hl & _ & Hshape).
  exists l. split; [exact Hl|]. intros i Hi.
  destruct Hshape as [_ Hfound _ _ _]. rewrite Forall_forall in Hfound.
  exact (made_depth _ _ _ _ (Hfound i Hi)).
Qed.

(** X11. The impact list is in order of depth: no impact comes before
    an impact of smaller depth. *)
Theorem impacts_in_order_of_depth g targetId :
  exists l,
    calculateBlastRadius g targetId = Some l
    /\ nondecreasing (Impact.depth <$> l).
Proof.
  destruct (calculateBlastRadius_facts g targetId) as (l & _ & _ & Hl & _ & Hshape).
  exists l. split; [exact Hl|]. exact (shape_found_sorted _ _ _ _ _ Hshape).
Qed.

Lemma trail_depths targetId l :
  (trail targetId l).*2 = 0 :: (Impact.depth <$> l).
Proof. unfold trail. simpl. rewrite <- list_fmap_compose. reflexivity. Qed.

Lemma trail_lookup_S targetId l m x d :
  trail targetId l !! S m = Some (x, d) ->
  exists i, l !! m = Some i /\ Impact.id i = x /\ Impact.depth i = d.
Proof.
  unfold trail. simpl. rewrite list_lookup_fmap.
  destruct (l !! m) as [i|]; simpl; [|discriminate]. intros [= <- <-]. eauto.
Qed.

(** Whatever a route from the target leads to has been taken off the
    queue, at a depth no larger than the route is long. *)
Lemma route_in_trail g targetId l done seen :
  bfs_inv targetId (build_adj (edges g)) done [] seen l ->
  nondecreasing (Impact.depth <$> l) ->
  forall path x,
    route (build_adj (edges g)) targetId x path ->
    exists k d, trail targetId l !! k = Some (x, d) /\ S d <= length path.
Proof.
  intros [Htrail Hseen _ Hclosed Hfound] Hsorted.
  simpl in Htrail. rewrite app_nil_r in Htrail. subst done.
  assert (nondecreasing (trail targetId l).*2) as Htrail_sorted.
  { rewrite trail_depths. apply nondecreasing_cons; [|exact Hsorted].
    apply Forall_forall. intros; lia. }
  induction path as [|x' path IH] using rev_ind; intros x (Hhead & Hlast & Hlinked).
  { discriminate. }
  rewrite last_snoc in Hlast. injection Hlast as ->.
  destruct (decide (path = [])) as [->|Hne].
  { injection Hhead as ->. exists 0, 0. split; [reflexivity|]. simpl. lia. }
  apply linked_snoc_inv in Hlinked as [Hlinked Hstep].
  destruct (last path) as [y|] eqn:Hy; [|apply last_None in Hy; contradiction].
  destruct (IH y) as (k & d & Hk & Hd).
  { split; [|split; assumption]. destruct path; [contradiction|exact Hhead]. }
  specialize (Hstep y eq_refl).
  assert (x ∈ seen) as Hx.
  { apply (Hclosed (y, d)); [eapply list_elem_of_lookup_2, Hk|exact Hstep]. }
  apply Hseen in Hx. apply list_elem_of_fmap in Hx as ([x0 d'] & Hx0 & Hin).
  simpl in Hx0. subst x0. apply list_elem_of_lookup in Hin as (k' & Hk').
  exists k', d'. split; [exact Hk'|]. rewrite length_app. simpl.
  destruct k' as [|m].
  { injection Hk' as _ <-. lia. }
  apply trail_lookup_S in Hk' as (i & Hi & Hid & Hdepth).
  destruct (Hfound m i Hi) as (j & parent & _ & Hj & _ & Hparent & Hfirst).
  assert (j <= k) as Hjk.
  { destruct (decide (j <= k)) as [|Hgt]; [assumption|]. exfalso.
    apply (Hfirst k (y, d)); [lia|exact Hk|]. rewrite Hid. exact Hstep. }
  assert (parent.2 <= d) as Hle.
  { apply (Htrail_sorted j k); [exact Hjk|rewrite list_lookup_fmap, Hj|
                                rewrite list_lookup_fmap, Hk]; reflexivity. }
  lia.
Qed.

(** X12. The depth of an impact is the shortest distance from the
    target: whatever a chain of dependents links to the target is in the
    impact list (unless it is the target itself), at a depth no larger
    than the number of steps of the chain. *)
Theorem depth_is_shortest_distance g targetId :
  exists l,
    calculateBlastRadius g targetId = Some l
    /\ forall x path,
         route (build_adj (edges g)) targetId x path -> x <> targetId ->
         exists i, i ∈ l /\ Impact.id i = x /\ S (Impact.depth i) <= length path.
Proof.
  destruct (calculateBlastRadius_facts g targetId) as (l & done & seen & Hl & Hinv & Hshape).
  exists l. split; [exact Hl|]. intros x path Hroute Hne.
  destruct (route_in_trail g targetId l done seen Hinv
              (shape_found_sorted _ _ _ _ _ Hshape) path x Hroute)
    as (k & d & Hk & Hd).
  destruct k as [|m]; [injection Hk as -> _; contradiction|].
  apply trail_lookup_S in Hk as (i & Hi & Hid & Hdepth).
  exists i. split; [eapply list_elem_of_lookup_2, Hi|]. split; [exact Hid|]. lia.
Qed.

Lemma or_else_same (o : option string) (k : string) :
  (forall x, o = Some x -> x = k) -> or_else o k = k.
Proof.
  intros Hx. destruct o as [x|]; [|reflexivity].
  rewrite (Hx x eq_refl). simpl. destruct (Js.truthy k); reflexivity.
Qed.

Lemma inherited_name_cases k :
  or_else (inherited_name k) k = if String.eqb k "constructor" then "Object" else k.
Proof.
  unfold inherited_name. destruct (String.eqb k "constructor"); [reflexivity|].
  apply or_else_same. intros x. repeat case_match; congruence.
Qed.

(** X13. An impact that is not a key of the graph's own nodes is
    reported with the fallback values: type unresolved, zone
    External/Unresolved, file N/A, and its identifier as name, except
    that the identifier "constructor", which the node object inherits as
    the function Object, is named "Object".  An impact that is a node is
    reported with the type of the node and with the file and name of the
    node where it has them. *)
Theorem impact_fields_follow_the_node g targetId :
  exists l,
    calculateBlastRadius g targetId = Some l
    /\ forall i, i ∈ l ->
         match nodes_get (Impact.id i) (nodes g) with
         | None =>
             Impact.type i = "unresolved"
             /\ Impact.zone i = "External/Unresolved"
             /\ Impact.file i = "N/A"
             /\ Impact.name i
                = if String.eqb (Impact.id i) "constructor" then "Object"
                  else Impact.id i
         | Some n =>
             Impact.type i = node_type n
             /\ Impact.zone i = or_else (Some (node_zone n)) "External/Unresolved"
             /\ Impact.file i = or_else (node_file n) "N/A"
             /\ Impact.name i = or_else (node_label n) (Impact.id i)
         end.
Proof.
  destruct (calculateBlastRadius_facts g targetId) as (l & _ & _ & Hl & _ & Hshape).
  exists l. split; [exact Hl|]. intros i Hi.
  destruct Hshape as [_ Hfound _ _ _]. rewrite Forall_forall in Hfound.
  destruct (Hfound i Hi) as (d & path & Hmade & _).
  destruct (nodes_get (Impact.id i) (nodes g)) as [n|] eqn:Hn;
    rewrite Hmade; unfold make_impact; cbn [Impact.type Impact.zone Impact.file
      Impact.name Impact.id]; rewrite Hn.
  - destruct n; auto.
  - repeat split. apply inherited_name_cases.
Qed.

(** X14. Every impact is the caller of an edge that is not structural
    and has a callee, and the impact list is no longer than the list of
    edges. *)
Theorem impacts_are_callers g targetId :
  exists l,
    calculateBlastRadius g targetId = Some l
    /\ (forall i, i ∈ l ->
          exists e, e ∈ edges g /\ Edge.from e = Impact.id i /\ indexed e)
    /\ length l <= length (edges g).
Proof.
  destruct (calculateBlastRadius_facts g targetId) as (l & done & seen & Hl & Hinv & _).
  exists l. split; [exact Hl|].
  destruct Hinv as [_ _ Hnodup _ Hfound].
  assert (forall i, i ∈ l ->
            exists e, e ∈ edges g /\ Edge.from e = Impact.id i /\ indexed e) as Hcallers.
  { intros i Hi. apply list_elem_of_lookup in Hi as (k & Hk).
    destruct (Hfound k i Hk) as (j & parent & _ & _ & Hdep & _).
    apply dependents_of_spec in Hdep.
    rewrite !build_adj_spec in Hdep.
    destruct Hdep as [(e & He & Hfrom & Hs & c & Hc & _)|(e & He & Hfrom & Hs & c & Hc & _)];
      exists e; (split; [exact He|]); (split; [auto|]); split; eauto. }
  split; [exact Hcallers|].
  rewrite trail_ids in Hnodup. apply NoDup_cons in Hnodup as [_ Hnodup].
  rewrite <- (length_fmap Impact.id l), <- (length_fmap Edge.from (edges g)).
  apply submseteq_length, NoDup_submseteq; [exact Hnodup|].
  intros x Hx. apply list_elem_of_fmap in Hx as (i & -> & Hi).
  destruct (Hcallers i Hi) as (e & He & <- & _). apply list_elem_of_fmap_2. exact He.
Qed.



(* ===================================================================== *)
(** * Properties of the analysis steps of [run] *)
(* ===================================================================== *)

(** ** The summary of the impact list *)

Lemma filter_none {A : Type} (P : A -> Prop) `{forall x, Decision (P x)} (l : list A) :
  Forall (fun x => ~ P x) l -> filter P l = [].
Proof.
  induction l as [|a l IH]; intros Hl; [reflexivity|].
  apply Forall_cons in Hl as [Ha Hl]. rewrite filter_cons_False by assumption. auto.
Qed.

Lemma filter_all {A : Type} (P : A -> Prop) `{forall x, Decision (P x)} (l : list A) :
  Forall P l -> filter P l = l.
Proof.
  induction l as [|a l IH]; intros Hl; [reflexivity|].
  apply Forall_cons in Hl as [Ha Hl]. rewrite filter_cons_True by assumption.
  rewrite IH by assumption. reflexivity.
Qed.

Lemma direct_then_indirect (l : list Impact.t) :
  nondecreasing (Impact.depth <$> l) ->
  Forall (fun i => Impact.depth i <> 0) l ->
  direct_dependents l ++ indirect_dependents l = l.
Proof.
  unfold direct_dependents, indirect_dependents.
  induction l as [|a l IH]; intros Hsorted Hpositive; [reflexivity|].
  apply Forall_cons in Hpositive as [Ha Hpositive]. rewrite fmap_cons in Hsorted.
  assert (Forall (fun i => Impact.depth a <= Impact.depth i) l) as Hhead.
  { apply (Forall_fmap Impact.depth (fun d => Impact.depth a <= d)).
    exact (nondecreasing_head _ _ Hsorted). }
  destruct (decide (Impact.depth a = 1)) as [Hone|Hmore].
  - rewrite filter_cons_True by assumption.
    rewrite (filter_cons_False (fun i => 1 < Impact.depth i)) by lia.
    simpl. rewrite IH; [reflexivity|exact (nondecreasing_tail _ _ Hsorted)|assumption].
  - rewrite filter_cons_False by assumption.
    rewrite (filter_cons_True (fun i => 1 < Impact.depth i)) by lia.
    rewrite filter_none, filter_all; [reflexivity|..];
      (eapply Forall_impl; [exact Hhead|]); simpl; intros i Hi; lia.
Qed.

Lemma max_of_sorted (l : list nat) :
  nondecreasing l -> fold_right Nat.max 0 l = default 0 (last l).
Proof.
  induction l as [|a l IH]; intros Hsorted; [reflexivity|].
  simpl. rewrite IH by exact (nondecreasing_tail _ _ Hsorted).
  destruct l as [|b l]; [simpl; lia|].
  change (last (a :: b :: l)) with (last (b :: l)).
  destruct (last (b :: l)) as [z|] eqn:Hlast; [|apply last_None in Hlast; discriminate].
  simpl. apply last_Some in Hlast as (l' & Hl').
  assert (a <= z); [|lia].
  apply (Hsorted 0 (S (length l'))); [lia|reflexivity|].
  simpl. rewrite Hl'. rewrite lookup_app_r by lia.
  replace (length l' - length l') with 0 by lia. reflexivity.
Qed.

(** X15. The summary [run] derives from the impact list follows its
    order: the direct dependents (depth 1) followed by the indirect ones
    (depth above 1) are the whole list, in its order, and the maximal
    propagation depth is the depth of the last impact (0 when there is
    none). *)
Theorem summary_follows_depth_order g targetId :
  exists l,
    calculateBlastRadius g targetId = Some l
    /\ direct_dependents l ++ indirect_dependents l = l
    /\ max_propagation_depth l = default 0 (Impact.depth <$> last l).
Proof.
  destruct (calculateBlastRadius_facts g targetId) as (l & done & seen & Hl & Hinv & Hshape).
  pose proof (shape_found_sorted _ _ _ _ _ Hshape) as Hsorted.
  exists l. split; [exact Hl|]. split.
  - apply direct_then_indirect; [exact Hsorted|].
    apply Forall_forall. intros i Hi. apply list_elem_of_lookup in Hi as (k & Hk).
    destruct (inv_found _ _ _ _ _ _ Hinv k i Hk) as (j & parent & _ & _ & _ & -> & _).
    discriminate.
  - unfold max_propagation_depth. rewrite <- fmap_last.
    destruct l; [reflexivity|]. apply max_of_sorted, Hsorted.
Qed.

(** X16. No depth is skipped: for every impact, each depth from 1 up to
    its own is the depth of some impact of the list. *)
Theorem every_depth_is_populated g targetId :
  exists l,
    calculateBlastRadius g targetId = Some l
    /\ forall i d,
         i ∈ l -> 1 <= d <= Impact.depth i ->
         exists i', i' ∈ l /\ Impact.depth i' = d.
Proof.
  destruct (calculateBlastRadius_facts g targetId) as (l & done & seen & Hl & Hinv & _).
  exists l. split; [exact Hl|].
  destruct Hinv as [_ _ _ _ Hfound].
  assert (forall n i, i ∈ l -> Impact.depth i = n ->
            forall d, 1 <= d <= n -> exists i', i' ∈ l /\ Impact.depth i' = d) as Hlevels.
  { induction n as [|n IH]; intros i Hi Hn d Hd; [lia|].
    destruct (decide (d = S n)) as [->|Hless]; [eauto|].
    apply list_elem_of_lookup in Hi as (k & Hk).
    destruct (Hfound k i Hk) as (j & [x p] & _ & Hj & _ & Hdepth & _). simpl in Hdepth.
    destruct j as [|m]; [injection Hj as _ <-; lia|].
    apply trail_lookup_S in Hj as (i0 & Hi0 & _ & Hp).
    apply (IH i0); [eapply list_elem_of_lookup_2, Hi0|lia|lia]. }
  intros i d Hi Hd. exact (Hlevels _ i Hi eq_refl d Hd).
Qed.

(** ** Resolution of the target *)

Lemma nodes_get_key k l : k ∈ l.*1 -> is_Some (nodes_get k l).
Proof.
  induction l as [|[k' v] l IH]; intros Hk; [inversion Hk|]. simpl.
  destruct (String.eqb_spec k' k) as [->|Hne]; [eauto|].
  apply IH. rewrite fmap_cons in Hk. apply elem_of_cons in Hk as [->|Hk]; [contradiction|].
  exact Hk.
Qed.

Lemma truthy_false s : Js.truthy s = false -> s = "".
Proof. unfold Js.truthy. destruct (String.eqb_spec s ""); [auto|discriminate]. Qed.

(** X17. Resolution of the target of [run]: the node found is a node
    of the graph under a non-empty key that is the target, ends with
    "::" and the target, or begins with the target and a space; the
    exit for a found key without details is never taken; and the target
    is reported as not found only when no key matches it or when the
    target is the empty string. *)
Theorem target_resolution graph target :
  match resolve_target graph target with
  | Resolved k n =>
      nodes_get k (nodes graph) = Some n
      /\ k <> ""
      /\ (k = target
          \/ Js.endsWith ("::" +:+ target) k = true
          \/ Js.startsWith (target +:+ " ") k = true)
  | NotFound =>
      target = ""
      \/ forall k, k ∈ (nodes graph).*1 ->
           k <> target
           /\ Js.endsWith ("::" +:+ target) k = false
           /\ Js.startsWith (target +:+ " ") k = false
  | NoDetails _ => False
  end.
Proof.
  unfold resolve_target, find_target.
  destruct (find _ _) as [k|] eqn:Hfind.
  - apply find_some in Hfind as [Hin Hmatch].
    assert (k = target
            \/ Js.endsWith ("::" +:+ target) k = true
            \/ Js.startsWith (target +:+ " ") k = true) as Hk.
    { apply orb_true_iff in Hmatch as [Hmatch|Hmatch]; [|auto].
      apply orb_true_iff in Hmatch as [Hmatch|Hmatch]; [|auto].
      left. apply String.eqb_eq. exact Hmatch. }
    destruct (Js.truthy k) eqn:Htruthy.
    + destruct (nodes_get_key k (nodes graph)) as [n Hn].
      { apply list_elem_of_In. exact Hin. }
      rewrite Hn. split; [exact Hn|]. split; [|exact Hk].
      intros ->. discriminate.
    + apply truthy_false in Htruthy. subst k. left.
      destruct Hk as [Hk|[Hk|Hk]]; [auto|discriminate|].
      destruct target; discriminate.
  - right. intros k Hk. apply list_elem_of_In in Hk.
    pose proof (find_none _ _ Hfind k Hk) as Hno. simpl in Hno.
    apply orb_false_iff in Hno as [Hno Hstarts].
    apply orb_false_iff in Hno as [Heq Hends].
    split; [apply String.eqb_neq; exact Heq|]. split; assumption.
Qed.

(** ** The caller-safety scan of the impacted files *)

Lemma NoDup_fold_set_add l : forall s,
  NoDup s -> NoDup (fold_left (fun s x => set_add x s) l s).
Proof.
  induction l as [|x l IH]; intros s Hs; simpl; [exact Hs|].
  apply IH, NoDup_set_add, Hs.
Qed.

Lemma scan_cases host filePath name r :
  r ∈ scanCallerSafety host filePath name ->
  (exists line column flags,
      r = Analysis filePath line column name flags (calculateSafetyProbabilities flags))
  \/ (exists who text, r = Note filePath who text).
Proof.
  unfold scanCallerSafety, scan_error.
  destruct (existsSync host filePath); cbn [negb].
  2:{ intros Hr. apply list_elem_of_singleton in Hr. eauto. }
  destruct (readFileSync host filePath) as [message|code].
  { intros Hr. apply list_elem_of_singleton in Hr. eauto. }
  destruct (_ && _); [intros Hr; inversion Hr|].
  destruct (parse host _) as [message|body].
  { intros Hr. apply list_elem_of_singleton in Hr. eauto. }
  destruct (traverse_error host _) as [message|].
  { intros Hr. apply list_elem_of_singleton in Hr. eauto. }
  destruct (visit_calls _ _ _) as [records err] eqn:Hvisit.
  assert (r ∈ records ->
          exists line column flags,
            r = Analysis filePath line column name flags
                  (calculateSafetyProbabilities flags)) as Hrecords.
  { intros Hr. destruct (visit_calls_records _ _ _ _ _ _ Hvisit Hr) as (p & flags & _ & -> & _).
    unfold analysis_of. eauto. }
  destruct err as [message|]; [|auto].
  intros Hr. apply elem_of_app in Hr as [Hr|Hr]; [auto|].
  apply list_elem_of_singleton in Hr. eauto.
Qed.

Lemma scan_records_name_the_file host filePath name r :
  r ∈ scanCallerSafety host filePath name ->
  record_file r = filePath
  /\ (is_analysis r = true -> record_callee r = Some name)
  /\ (is_analysis r = false -> record_callee r = None).
Proof.
  intros Hr.
  destruct (scan_cases _ _ _ _ Hr) as [(line & column & flags & ->)|(who & text & ->)];
    simpl; (split; [reflexivity|]); split; first [reflexivity|discriminate].
Qed.

Lemma filter_agree {A : Type} (P Q : A -> Prop)
  `{forall x, Decision (P x)} `{forall x, Decision (Q x)} (l : list A) :
  (forall x, x ∈ l -> P x <-> Q x) -> filter P l = filter Q l.
Proof.
  induction l as [|a l IH]; intros Hl; [reflexivity|].
  rewrite !filter_cons. rewrite IH by (intros; apply Hl; now right).
  destruct (decide (P a)) as [Ha|Ha], (decide (Q a)) as [Ha'|Ha']; try reflexivity;
    exfalso; apply (Hl a) in Ha || apply (Hl a) in Ha'; try (now left); contradiction.
Qed.

(** X18. The caller-safety details [run] attaches to an impacted
    function or API node are the call-site analyses of the whole file of
    that node: the file is scanned once, every analysis of the scan is
    kept and notes are left out, so that two impacts declared in one
    file get the same details. *)
Theorem caller_safety_details_cover_the_file host projectPath name allImpacts impact :
  impact ∈ relevantImpacts allImpacts ->
  safetyForThisImpact host projectPath name
    (callerSafetyAnalysisResults host projectPath name allImpacts) impact
  = filter (fun r => is_analysis r)
      (scanCallerSafety host (path_join host projectPath (Impact.file impact)) name).
Proof.
  intros Himpact. unfold safetyForThisImpact, callerSafetyAnalysisResults.
  set (f := path_join host projectPath (Impact.file impact)).
  assert (f ∈ uniqueImpactedFiles host projectPath allImpacts) as Hf.
  { unfold uniqueImpactedFiles. apply elem_of_fold_set_add. left.
    apply list_elem_of_In.
    apply (in_map (fun i => path_join host projectPath (Impact.file i))).
    apply list_elem_of_In. exact Himpact. }
  assert (NoDup (uniqueImpactedFiles host projectPath allImpacts)) as Hfiles
    by apply NoDup_fold_set_add, NoDup_nil_2.
  induction (uniqueImpactedFiles host projectPath allImpacts) as [|f' files IH];
    [inversion Hf|].
  apply NoDup_cons in Hfiles as [Hfresh Hfiles]. cbn [flat_map]. rewrite filter_app.
  destruct (decide (f' = f)) as [->|Hother].
  - rewrite (filter_none _ (flat_map _ files)), app_nil_r.
    + apply filter_agree. intros r Hr.
      destruct (scan_records_name_the_file _ _ _ _ Hr) as (Hfile & Hyes & Hno).
      rewrite bool_decide_spec. destruct (is_analysis r); simpl.
      * rewrite Hyes by reflexivity. tauto.
      * rewrite Hno by reflexivity. split; [intros [_ ?]; discriminate|intros []].
    + apply Forall_forall. intros r Hr. apply list_elem_of_In, in_flat_map in Hr.
      destruct Hr as (f' & Hf' & Hr). apply list_elem_of_In in Hf', Hr.
      destruct (scan_records_name_the_file _ _ _ _ Hr) as (Hfile & _).
      rewrite bool_decide_spec. intros [Heq _]. congruence.
  - rewrite (filter_none _ (scanCallerSafety host f' name)).
    + apply IH; [|exact Hfiles]. apply elem_of_cons in Hf as [Hf|Hf]; [congruence|exact Hf].
    + apply Forall_forall. intros r Hr.
      destruct (scan_records_name_the_file _ _ _ _ Hr) as (Hfile & _).
      rewrite bool_decide_spec. intros [Heq _]. congruence.
Qed.

Lemma caller_safety_details_cover_the_file_witness :
  safetyForThisImpact Scenario.project "/proj" "foo"
    (callerSafetyAnalysisResults Scenario.project "/proj" "foo" [scenario_impact])
    scenario_impact
  = filter (fun r => is_analysis r)
      (scanCallerSafety Scenario.project
         (path_join Scenario.project "/proj" (Impact.file scenario_impact)) "foo").
Proof.
  apply (caller_safety_details_cover_the_file Scenario.project "/proj" "foo"
           [scenario_impact] scenario_impact).
  vm_compute. left.
Defined.



(* ===================================================================== *)
(** * Further properties of the code-graph builder *)
(* ===================================================================== *)

(** ** The graph stays well formed *)

Lemma keys_nodes_set_mono k v l x : x ∈ l.*1 -> x ∈ (nodes_set k v l).*1.
Proof. rewrite keys_nodes_set. case_bool_decide; [auto|]. intros Hx. apply elem_of_app. auto. Qed.

Lemma keys_nodes_set_new k v l : k ∈ (nodes_set k v l).*1.
Proof.
  apply list_elem_of_fmap. exists (k, v). split; [reflexivity|apply nodes_set_same].
Qed.

Lemma edge_ok_set host projectRoot files k v l e :
  edge_ok host projectRoot files l e ->
  edge_ok host projectRoot files (nodes_set k v l) e.
Proof.
  intros [Hfrom (callee & Hto & Hkind)]. split.
  - destruct Hfrom as [Hfrom|Hfrom]; [left; exact Hfrom|right].
    apply keys_nodes_set_mono, Hfrom.
  - exists callee. split; [exact Hto|].
    destruct Hkind as [Hdep|(Hs & Hk & Hc)]; [left; exact Hdep|right].
    split; [exact Hs|]. split; [exact Hk|]. apply keys_nodes_set_mono, Hc.
Qed.

Section WellFormed.

Variables (host : Host) (projectRoot graphMode : string).
Variables (files : list string) (relPaths : gmap string string).

Hypothesis files_registered :
  forall f, f ∈ files -> relPaths !! f = Some (path_relative host projectRoot f).

#[local] Abbreviation rel f := (path_relative host projectRoot f).
#[local] Abbreviation WellFormed := (well_formed host projectRoot files).

Lemma well_formed_enter f st :
  f ∈ files -> stable files relPaths st -> f ∉ processedFiles st ->
  WellFormed st -> WellFormed (enter_file host projectRoot f st).
Proof.
  intros Hf Hst Hnew [Htotal Hmodules Hnodes Hedges].
  destruct (stable_enter host projectRoot files relPaths files_registered f st Hst Hf)
    as (_ & Hprocessed & Hgraph).
  constructor; rewrite ?Hgraph, ?Hprocessed; simpl.
  - rewrite size_union by set_solver. rewrite size_singleton. lia.
  - intros t Ht. apply elem_of_union in Ht as [Ht|Ht].
    + apply elem_of_singleton in Ht. subst t. apply keys_nodes_set_new.
    + apply keys_nodes_set_mono, Hmodules, Ht.
  - intros k n Hin Hplain. apply elem_of_nodes_set in Hin as [[= -> ->]|Hin];
      [discriminate|eauto].
  - intros e He. apply edge_ok_set, Hedges, He.
Qed.

Lemma well_formed_counted st :
  WellFormed st -> WellFormed (count_unresolved_file st).
Proof. intros [Htotal Hmodules Hnodes Hedges]. constructor; assumption. Qed.

Lemma well_formed_push es st :
  Forall (edge_ok host projectRoot files (nodes (graph st))) es ->
  WellFormed st -> WellFormed (push_edges es st).
Proof.
  intros Hes [Htotal Hmodules Hnodes Hedges]. constructor; try assumption.
  intros e He. simpl in He. apply elem_of_app in He as [He|He]; [auto|].
  rewrite Forall_forall in Hes. exact (Hes e He).
Qed.

Lemma import_edge_ok f target kind l :
  f ∈ files ->
  edge_ok host projectRoot files l (dependency_edge (rel f) target kind None).
Proof.
  intros Hf. split; [left; eauto|]. exists target. split; [reflexivity|].
  left. split; [reflexivity|]. simpl. eauto.
Qed.

Lemma call_edges_ok nodeId p l :
  nodeId ∈ l.*1 ->
  Forall (edge_ok host projectRoot files l) (call_edges nodeId p).
Proof.
  intros Hkey. apply Forall_forall. intros e He.
  unfold call_edges in He. apply list_elem_of_In, in_flat_map in He.
  destruct He as (q & _ & He).
  repeat case_match; simpl in He; try contradiction.
  destruct He as [<-|[]]. split; [right; exact Hkey|].
  eexists. split; [reflexivity|]. left. split; [reflexivity|]. simpl. eauto.
Qed.

Lemma well_formed_run fuel fs st st' :
  (forall f, f ∈ fs -> f ∈ files) -> stable files relPaths st ->
  process_all host projectRoot graphMode fuel fs st = Some st' ->
  WellFormed st -> WellFormed st'.
Proof.
  intros Hfs Hst Hrun.
  destruct (gt_process_all host projectRoot graphMode files relPaths files_registered
              (fun a b => WellFormed a -> WellFormed b))
    with (fuel := fuel) (fs := fs) (st := st) (st' := st') as ((HR & _) & _);
    try assumption.
  - auto.
  - auto.
  - intros f s script Hf Hs Hnew _. apply well_formed_enter; assumption.
  - intros f s message Hf Hs Hnew _ Hwf.
    apply well_formed_counted, well_formed_enter; assumption.
  - intros f s s' body message Hf Hs Hnew _ _ Hrest Hwf.
    apply well_formed_counted, Hrest, well_formed_enter; assumption.
  - intros s Hs [Htotal Hmodules Hnodes Hedges]. constructor; assumption.
  - intros f body s module kind Hf Hs _ Hwf.
    apply well_formed_push.
    + apply Forall_singleton, import_edge_ok, Hf.
    + destruct Hwf as [Htotal Hmodules Hnodes Hedges]. constructor; assumption.
  - intros f body s target relTarget kind Hf Hs _ _ _ Hwf.
    apply well_formed_push.
    + apply Forall_singleton, import_edge_ok, Hf.
    + destruct Hwf as [Htotal Hmodules Hnodes Hedges]. constructor; assumption.
  - intros f body s nodeId n p Hf Hs _ Hshape [Htotal Hmodules Hnodes Hedges].
    destruct (declared_id_marked _ _ _ _ _ Hshape) as (Hplain & Hfile & _).
    unfold declare. apply well_formed_push.
    + apply Forall_cons. split.
      * split; [left; eauto|]. exists nodeId. split; [reflexivity|]. right.
        split; [reflexivity|]. split; [reflexivity|]. apply keys_nodes_set_new.
      * apply call_edges_ok, keys_nodes_set_new.
    + constructor; simpl; try assumption.
      * intros t Ht. apply keys_nodes_set_mono, Hmodules, Ht.
      * intros k n' Hin Hn'. apply elem_of_nodes_set in Hin as [[= -> ->]|Hin]; eauto.
      * intros e He. apply edge_ok_set, Hedges, He.
Qed.

End WellFormed.

Lemma initial_well_formed host projectRoot files relPaths :
  well_formed host projectRoot files (initial_builder files relPaths).
Proof.
  assert (size (∅ : gset string) = 0) as Hempty by apply size_empty.
  constructor;
    cbn [initial_builder processedFiles graph empty_graph metadata nodes edges
         initial_metadata total_files].
  - symmetry. exact Hempty.
  - intros f Hf. set_solver.
  - intros k n Hin. inversion Hin.
  - intros e He. inversion He.
Qed.

(** What a returned graph is: the result of a well-formed run over all
    the collected files. *)
Lemma parseToGraph_well_formed host targetPath graphMode g :
  parseToGraph host targetPath graphMode = Returns g ->
  let projectRoot := path_resolve1 host targetPath in
  exists files relPaths st,
    collectFiles host projectRoot projectRoot = Some (files, relPaths)
    /\ NoDup files
    /\ nodes g = nodes (graph st) /\ edges g = edges (graph st)
    /\ total_files (metadata g) = total_files (metadata (graph st))
    /\ processedFiles st = list_to_set files
    /\ well_formed host projectRoot files st.
Proof.
  intros Hg projectRoot.
  destruct (parseToGraph_returns _ _ _ _ Hg)
    as (files & relPaths & st & Hcollect & Hst & Hnodes & Hedges & _ & Htotal & _).
  fold projectRoot in Hcollect, Hst.
  destruct (collectFiles_collected _ _ _ _ Hcollect) as [Hnodup Hreg]. simpl in Hnodup, Hreg.
  exists files, relPaths, st. split; [exact Hcollect|]. split; [exact Hnodup|].
  split; [exact Hnodes|]. split; [exact Hedges|]. split; [exact Htotal|].
  destruct (gt_process_all host projectRoot graphMode files relPaths Hreg
              (fun _ _ => True))
    with (fuel := length files) (fs := files)
         (st := initial_builder files relPaths) (st' := st)
    as ((_ & (_ & _ & Hsub) & _) & Hall); auto using initial_stable.
  split.
  - apply set_eq. intros f. rewrite elem_of_list_to_set. split; [|apply Hall].
    intros Hf. apply Hsub in Hf. apply elem_of_list_to_set in Hf. exact Hf.
  - eapply well_formed_run; [exact Hreg| |apply initial_stable|exact Hst|
                             apply initial_well_formed]. auto.
Qed.

(** X19. In either mode every collected file is processed exactly
    once: the file count of the returned graph is the number of collected
    source files, and each of them has a node under its relative path. *)
Theorem every_collected_file_is_counted host targetPath graphMode g :
  parseToGraph host targetPath graphMode = Returns g ->
  let projectRoot := path_resolve1 host targetPath in
  exists files relPaths,
    collectFiles host projectRoot projectRoot = Some (files, relPaths)
    /\ total_files (metadata g) = length files
    /\ forall f, f ∈ files ->
         is_Some (nodes_get (path_relative host projectRoot f) (nodes g)).
Proof.
  intros Hg projectRoot.
  destruct (parseToGraph_well_formed _ _ _ _ Hg)
    as (files & relPaths & st & Hcollect & Hnodup & Hnodes & _ & Htotal & Hall & Hwf).
  fold projectRoot in Hcollect, Hwf.
  exists files, relPaths. split; [exact Hcollect|]. split.
  - rewrite Htotal, (wf_total _ _ _ _ Hwf), Hall. apply size_list_to_set, Hnodup.
  - intros f Hf. rewrite Hnodes. apply nodes_get_key, (wf_modules _ _ _ _ Hwf).
    rewrite Hall. apply elem_of_list_to_set, Hf.
Qed.

Lemma every_collected_file_is_counted_witness :
  exists g files relPaths,
    parseToGraph Scenario.project "/proj" "FULL" = Returns g
    /\ collectFiles Scenario.project "/proj" "/proj" = Some (files, relPaths)
    /\ total_files (metadata g) = length files
    /\ forall f, f ∈ files ->
         is_Some (nodes_get (path_relative Scenario.project "/proj" f) (nodes g)).
Proof.
  destruct (parseToGraph Scenario.project "/proj" "FULL") as [g| |] eqn:Hrun;
    [|exfalso; vm_compute in Hrun; discriminate..].
  destruct (every_collected_file_is_counted Scenario.project "/proj" "FULL" g Hrun)
    as (files & relPaths & Hfiles).
  exists g, files, relPaths. split; [reflexivity|]. exact Hfiles.
Defined.

(** X20. Every edge of a returned graph connects: it leaves a node of
    the graph and has a callee (never null or undefined, so that the
    traversal skips none for lack of one); it is a dependency edge with a
    kind, or a structural edge without kind that leads to a node of the
    graph. *)
Theorem edges_leave_nodes host targetPath graphMode g :
  parseToGraph host targetPath graphMode = Returns g ->
  forall e, e ∈ edges g ->
    is_Some (nodes_get (Edge.from e) (nodes g))
    /\ exists callee,
         Edge.to e = Some callee
         /\ ((Edge.type e = "dependency" /\ is_Some (Edge.kind e))
             \/ (Edge.type e = "structural" /\ Edge.kind e = None
                 /\ is_Some (nodes_get callee (nodes g)))).
Proof.
  intros Hg e He.
  destruct (parseToGraph_well_formed _ _ _ _ Hg)
    as (files & relPaths & st & _ & _ & Hnodes & Hedges & _ & Hall & Hwf).
  rewrite Hedges in He. rewrite Hnodes.
  destruct (wf_edges _ _ _ _ Hwf e He) as [Hfrom (callee & Hto & Hkind)]. split.
  - apply nodes_get_key. destruct Hfrom as [(f & Hf & ->)|Hfrom]; [|exact Hfrom].
    apply (wf_modules _ _ _ _ Hwf). rewrite Hall. apply elem_of_list_to_set, Hf.
  - exists callee. split; [exact Hto|].
    destruct Hkind as [Hdep|(Hs & Hk & Hc)]; [left; exact Hdep|right].
    split; [exact Hs|]. split; [exact Hk|]. apply nodes_get_key, Hc.
Qed.

Lemma edges_leave_nodes_witness :
  exists g,
    parseToGraph Scenario.project "/proj" "FAST" = Returns g
    /\ forall e, e ∈ edges g ->
         is_Some (nodes_get (Edge.from e) (nodes g))
         /\ exists callee,
              Edge.to e = Some callee
              /\ ((Edge.type e = "dependency" /\ is_Some (Edge.kind e))
                  \/ (Edge.type e = "structural" /\ Edge.kind e = None
                      /\ is_Some (nodes_get callee (nodes g)))).
Proof.
  destruct (parseToGraph Scenario.project "/proj" "FAST") as [g| |] eqn:Hrun;
    [|exfalso; vm_compute in Hrun; discriminate..].
  exists g. split; [reflexivity|].
  exact (edges_leave_nodes Scenario.project "/proj" "FAST" g Hrun).
Defined.

(** X21. Every Function or API node of a returned graph names as its
    file the relative path of a collected source file, and that path is
    itself a key of the graph. *)
Theorem declared_nodes_name_their_file host targetPath graphMode g :
  parseToGraph host targetPath graphMode = Returns g ->
  let projectRoot := path_resolve1 host targetPath in
  forall k n, (k, n) ∈ nodes g -> node_type n <> "module" ->
    exists files relPaths f,
      collectFiles host projectRoot projectRoot = Some (files, relPaths)
      /\ f ∈ files
      /\ node_file n = Some (path_relative host projectRoot f)
      /\ is_Some (nodes_get (path_relative host projectRoot f) (nodes g)).
Proof.
  intros Hg projectRoot k n Hin Hplain.
  destruct (parseToGraph_well_formed _ _ _ _ Hg)
    as (files & relPaths & st & Hcollect & _ & Hnodes & _ & _ & Hall & Hwf).
  fold projectRoot in Hcollect, Hwf. rewrite Hnodes in Hin |- *.
  destruct (wf_nodes _ _ _ _ Hwf k n Hin) as (f & Hf & Hfile).
  { destruct n; [contradiction|reflexivity..]. }
  exists files, relPaths, f. split; [exact Hcollect|]. split; [exact Hf|].
  split; [exact Hfile|]. apply nodes_get_key, (wf_modules _ _ _ _ Hwf).
  rewrite Hall. apply elem_of_list_to_set, Hf.
Qed.

Lemma declared_nodes_name_their_file_witness :
  exists g,
    parseToGraph Scenario.project "/proj" "FAST" = Returns g
    /\ forall k n, (k, n) ∈ nodes g -> node_type n <> "module" ->
         exists files relPaths f,
           collectFiles Scenario.project "/proj" "/proj" = Some (files, relPaths)
           /\ f ∈ files
           /\ node_file n = Some (path_relative Scenario.project "/proj" f)
           /\ is_Some (nodes_get (path_relative Scenario.project "/proj" f) (nodes g)).
Proof.
  destruct (parseToGraph Scenario.project "/proj" "FAST") as [g| |] eqn:Hrun;
    [|exfalso; vm_compute in Hrun; discriminate..].
  exists g. split; [reflexivity|].
  exact (declared_nodes_name_their_file Scenario.project "/proj" "FAST" g Hrun).
Defined.



(** ** File discovery *)

Section Discovery.

Variables (host : Host) (projectRoot : string).

Lemma found_in_cons dir file files f :
  found_in host dir (file :: files) f
  <-> found_in host dir [file] f \/ found_in host dir files f.
Proof.
  split.
  - intros Hf. inversion Hf as [? ? name Hin Hsrc|? ? name sub ? Hin Hex Hsub]; subst;
      apply elem_of_cons in Hin as [<-|Hin].
    + left. apply found_file; [left|exact Hsrc].
    + right. apply found_file; assumption.
    + left. eapply found_below; [left|eassumption..].
    + right. eapply found_below; eassumption.
  - intros [Hf|Hf];
      inversion Hf as [? ? name Hin Hsrc|? ? name sub ? Hin Hex Hsub]; subst.
    + apply list_elem_of_singleton in Hin. subst file. apply found_file; [left|exact Hsrc].
    + apply list_elem_of_singleton in Hin. subst file.
      eapply found_below; [left|eassumption..].
    + apply found_file; [right|]; assumption.
    + eapply found_below; [right|..]; eassumption.
Qed.

Lemma found_in_nil dir f : ~ found_in host dir [] f.
Proof. intros Hf. inversion Hf as [? ? ? Hin|? ? ? ? ? Hin]; inversion Hin. Qed.

Lemma collect_entry_found file : forall dir acc acc',
  collect_entry host projectRoot dir file acc = Some acc' ->
  forall f, f ∈ acc'.1 <-> f ∈ acc.1 \/ found_in host dir [file] f.
Proof.
  induction file as [name|name|name files IH] using dirent_ind';
    intros dir acc acc'; simpl.
  - destruct (is_source_file name) eqn:Hsrc; simpl; intros [= <-] f; simpl.
    + rewrite elem_of_set_add. split.
      * intros [->|Hf]; [right; apply found_file; [left|exact Hsrc]|auto].
      * intros [Hf|Hf]; [auto|]. left.
        inversion Hf as [? ? name' Hin|? ? ? ? ? Hin]; subst;
          apply list_elem_of_singleton in Hin; [|discriminate].
        injection Hin as <-. reflexivity.
    + split; [auto|]. intros [Hf|Hf]; [exact Hf|]. exfalso.
      inversion Hf as [? ? name' Hin Hsrc'|? ? ? ? ? Hin]; subst;
        apply list_elem_of_singleton in Hin; [|discriminate].
      injection Hin as <-. congruence.
  - case_bool_decide as Hex; [|discriminate]. intros [= <-] f.
    split; [auto|]. intros [Hf|Hf]; [exact Hf|]. exfalso.
    inversion Hf as [? ? ? Hin|? ? name' ? ? Hin Hex']; subst;
      apply list_elem_of_singleton in Hin; discriminate.
  - case_bool_decide as Hex.
    { intros [= <-] f. split; [auto|]. intros [Hf|Hf]; [exact Hf|]. exfalso.
      inversion Hf as [? ? ? Hin|? ? name' ? ? Hin Hex']; subst;
        apply list_elem_of_singleton in Hin; [discriminate|].
      injection Hin as <- <-. contradiction. }
    intros Hrun f.
    assert (f ∈ acc'.1 <-> f ∈ acc.1 \/ found_in host (path_join host dir name) files f)
      as Hinner.
    { revert Hrun. generalize (path_join host dir name). intros sub. revert acc acc'.
      induction IH as [|file files Hfile _ IHfiles]; intros acc acc'.
      - intros [= <-]. pose proof (found_in_nil sub f). tauto.
      - destruct (collect_entry host projectRoot sub file acc) as [acc1|] eqn:Hone;
          [|discriminate].
        intros Hrest.
        rewrite (IHfiles _ _ Hrest), (Hfile _ _ _ Hone f), (found_in_cons sub file files f).
        tauto. }
    rewrite Hinner. split; (intros [Hf|Hf]; [auto|right]).
    + eapply found_below; [left|exact Hex|exact Hf].
    + inversion Hf as [? ? ? Hin|? ? name' ? ? Hin Hex' Hsub]; subst;
        apply list_elem_of_singleton in Hin; [discriminate|].
      injection Hin as <- <-. exact Hsub.
Qed.

Lemma collect_entries_found dir files : forall acc acc',
  collect_entries host projectRoot dir files acc = Some acc' ->
  forall f, f ∈ acc'.1 <-> f ∈ acc.1 \/ found_in host dir files f.
Proof.
  induction files as [|file files IH]; intros acc acc'; simpl.
  - intros [= <-] f. pose proof (found_in_nil dir f). tauto.
  - destruct (collect_entry host projectRoot dir file acc) as [acc1|] eqn:Hone;
      [|discriminate].
    intros Hrest f.
    rewrite (IH _ _ Hrest), (collect_entry_found _ _ _ _ Hone f),
      (found_in_cons dir file files f). tauto.
Qed.

End Discovery.

(** X22. File discovery finds exactly the source files of the tree:
    a path is collected when, and only when, it is the path of a file
    with a recognized extension in the directory or below directories
    none of which is named node_modules, .git, dist or .svelte-kit; and
    no path is collected twice. *)
Theorem collectFiles_finds_the_source_files host projectRoot dir entries files relPaths :
  readdirSync host dir = Some entries ->
  collectFiles host projectRoot dir = Some (files, relPaths) ->
  NoDup files /\ forall f, f ∈ files <-> found_in host dir entries f.
Proof.
  intros Hdir Hcollect. split.
  - apply (collectFiles_collected _ _ _ _ Hcollect).
  - unfold collectFiles in Hcollect. rewrite Hdir in Hcollect.
    intros f. rewrite (collect_entries_found _ _ _ _ _ _ Hcollect f). simpl.
    rewrite elem_of_nil. tauto.
Qed.

Lemma collectFiles_finds_the_source_files_witness :
  NoDup ["/proj/src/routes/users/+page.js"; "/proj/src/routes/users/+server.js"]
  /\ forall f,
       f ∈ ["/proj/src/routes/users/+page.js"; "/proj/src/routes/users/+server.js"]
       <-> found_in Routes.project "/proj"
             [DirEntry "src"
                (Some [DirEntry "routes"
                         (Some [DirEntry "users"
                                  (Some [FileEntry "+page.js"; FileEntry "+server.js"])])])]
             f.
Proof.
  apply (collectFiles_finds_the_source_files Routes.project "/proj" "/proj" _ _
           (snd (default ([], ∅) (collectFiles Routes.project "/proj" "/proj"))));
    vm_compute; reflexivity.
Defined.

Lemma unreadable_in_cons file files :
  unreadable_in (file :: files) <-> unreadable_in [file] \/ unreadable_in files.
Proof.
  split.
  - intros Hu. inversion Hu as [? name Hin Hex|? name sub Hin Hex Hsub]; subst;
      apply elem_of_cons in Hin as [<-|Hin].
    + left. eapply unreadable_here; [left|exact Hex].
    + right. eapply unreadable_here; eassumption.
    + left. eapply unreadable_below; [left|eassumption..].
    + right. eapply unreadable_below; eassumption.
  - intros [Hu|Hu];
      inversion Hu as [? name Hin Hex|? name sub Hin Hex Hsub]; subst.
    + apply list_elem_of_singleton in Hin. subst file.
      eapply unreadable_here; [left|exact Hex].
    + apply list_elem_of_singleton in Hin. subst file.
      eapply unreadable_below; [left|eassumption..].
    + eapply unreadable_here; [right|]; eassumption.
    + eapply unreadable_below; [right|..]; eassumption.
Qed.

Lemma unreadable_in_nil : ~ unreadable_in [].
Proof. intros Hu. inversion Hu as [? ? Hin|? ? ? Hin]; inversion Hin. Qed.

Section Abort.

Variables (host : Host) (projectRoot : string).

Lemma collect_entry_aborts file : forall dir acc,
  collect_entry host projectRoot dir file acc = None <-> unreadable_in [file].
Proof.
  induction file as [name|name|name files IH] using dirent_ind'; intros dir acc; simpl.
  - split; [destruct (negb _); discriminate|]. intros Hu. exfalso.
    inversion Hu as [? ? Hin|? ? ? Hin]; subst;
      apply list_elem_of_singleton in Hin; discriminate.
  - case_bool_decide as Hex.
    + split; [discriminate|]. intros Hu. exfalso.
      inversion Hu as [? ? Hin Hex'|? ? ? Hin]; subst;
        apply list_elem_of_singleton in Hin; [|discriminate].
      injection Hin as <-. contradiction.
    + split; [|reflexivity]. intros _. eapply unreadable_here; [left|exact Hex].
  - case_bool_decide as Hex.
    { split; [discriminate|]. intros Hu. exfalso.
      inversion Hu as [? ? Hin|? ? ? Hin Hex']; subst;
        apply list_elem_of_singleton in Hin; [discriminate|].
      injection Hin as <- <-. contradiction. }
    transitivity (unreadable_in files).
    + generalize (path_join host dir name). intros sub. revert acc.
      induction IH as [|file files Hfile _ IHfiles]; intros acc.
      * split; [discriminate|]. intros Hu. destruct (unreadable_in_nil Hu).
      * rewrite (unreadable_in_cons file files).
        destruct (collect_entry host projectRoot sub file acc) as [acc1|] eqn:Hone.
        -- rewrite (IHfiles acc1). split; [auto|]. intros [Hu|Hu]; [|exact Hu].
           apply (Hfile sub acc) in Hu. congruence.
        -- split; [|reflexivity]. intros _. left. apply (Hfile sub acc). exact Hone.
    + split.
      * intros Hu. eapply unreadable_below; [left|exact Hex|exact Hu].
      * intros Hu. inversion Hu as [? ? Hin|? ? ? Hin Hex' Hsub]; subst;
          apply list_elem_of_singleton in Hin; [discriminate|].
        injection Hin as <- <-. exact Hsub.
Qed.

Lemma collect_entries_aborts dir files : forall acc,
  collect_entries host projectRoot dir files acc = None <-> unreadable_in files.
Proof.
  induction files as [|file files IH]; intros acc; simpl.
  - split; [discriminate|]. intros Hu. destruct (unreadable_in_nil Hu).
  - rewrite (unreadable_in_cons file files).
    destruct (collect_entry host projectRoot dir file acc) as [acc1|] eqn:Hone.
    + rewrite (IH acc1). split; [auto|]. intros [Hu|Hu]; [|exact Hu].
      apply (collect_entry_aborts file dir acc) in Hu. congruence.
    + split; [|reflexivity]. intros _. left. apply (collect_entry_aborts file dir acc).
      exact Hone.
Qed.

End Abort.

(** X23. File discovery, and with it the whole of [parseToGraph],
    fails exactly when the project directory cannot be read, or some
    directory below it that is not excluded (nor below an excluded one)
    cannot be read; an unreadable directory named node_modules, .git,
    dist or .svelte-kit does no harm. *)
Theorem parseToGraph_throws_on_unreadable_directory host targetPath graphMode :
  let projectRoot := path_resolve1 host targetPath in
  parseToGraph host targetPath graphMode = Throws
  <-> match readdirSync host projectRoot with
      | None => True
      | Some entries => unreadable_in entries
      end.
Proof.
  intros projectRoot.
  pose proof (parseToGraph_run host targetPath graphMode) as Hrun. simpl in Hrun.
  fold projectRoot in Hrun.
  assert (collectFiles host projectRoot projectRoot = None
          <-> match readdirSync host projectRoot with
              | None => True
              | Some entries => unreadable_in entries
              end) as Hcollect.
  { unfold collectFiles. destruct (readdirSync host projectRoot) as [entries|];
      [apply collect_entries_aborts|tauto]. }
  rewrite <- Hcollect.
  destruct (collectFiles host projectRoot projectRoot) as [[files relPaths]|].
  - destruct Hrun as (st & g & _ & -> & _). split; discriminate.
  - tauto.
Qed.



(** ** Routes *)

Lemma prefix_weaken a b s :
  String.prefix (a +:+ b) s = true -> String.prefix a s = true.
Proof.
  revert s. induction a as [|c a IH]; intros s; [destruct s; reflexivity|].
  change (String c a +:+ b) with (String c (a +:+ b)).
  destruct s as [|d s]; [discriminate|]. rewrite !prefix_cons.
  destruct (ascii_dec c d); [apply IH|discriminate].
Qed.

Lemma includes_weaken a b s :
  Js.includes (a +:+ b) s = true -> Js.includes a s = true.
Proof.
  induction s as [|c s IH].
  - rewrite (includes_unfold (a +:+ b) ""), (includes_unfold a "").
    destruct (String.prefix (a +:+ b) "") eqn:Hp; [|discriminate].
    rewrite (prefix_weaken _ _ _ Hp). reflexivity.
  - rewrite (includes_unfold (a +:+ b) (String c s)), (includes_unfold a (String c s)).
    destruct (String.prefix (a +:+ b) (String c s)) eqn:Hp.
    + rewrite (prefix_weaken _ _ _ Hp). reflexivity.
    + intros Hs. rewrite (IH Hs). destruct (String.prefix a _); reflexivity.
Qed.

Lemma route_of_outcomes parts sufs fallback :
  match route_of parts sufs fallback with
  | inl message => parts = None /\ message = TypeError "undefined" "replace"
  | inr None => False
  | inr (Some route) => is_Some parts /\ Js.startsWith "/" route = true
  end.
Proof.
  destruct parts as [parts|]; [|split; reflexivity]. unfold route_of.
  set (tail := Js.strip_first_suffix ["/"] (Js.strip_first_suffix sufs parts)).
  change (Js.truthy ("/" +:+ tail)) with true. cbv iota. split; [eauto|exact (prefix_append "/" tail)].
Qed.

Lemma split_1_none sep s : Js.split_1 sep s = None -> Js.includes sep s = false.
Proof.
  unfold Js.split_1. destruct (Js.cut sep s) as [[before rest]|] eqn:Hcut.
  - destruct (Js.cut sep rest) as [[piece other]|]; discriminate.
  - intros _. clear -Hcut. induction s as [|c s IH];
      rewrite cut_unfold in Hcut; rewrite includes_unfold;
      destruct (String.prefix sep _); try discriminate; [reflexivity|].
    destruct (Js.cut sep s) as [[before after]|]; [discriminate|]. auto.
Qed.

(** X24. What [getRouteInfo] makes of a file, by the relative path of
    the file with forward slashes: null exactly when the path holds none
    of the texts src/routes, app and pages (anywhere in it); otherwise a
    route that begins with a slash, or the TypeError of [replace] read on
    undefined, which is thrown only when the path holds one of the texts
    src/routes, app/api, pages/api, app and pages without holding that
    text followed by a slash. *)
Theorem getRouteInfo_outcomes host filePath projectRoot :
  let relPath := Js.slashes (path_relative host projectRoot filePath) in
  match getRouteInfo host filePath projectRoot with
  | inr None => routed relPath = false
  | inr (Some route) => routed relPath = true /\ Js.startsWith "/" route = true
  | inl message =>
      routed relPath = true
      /\ message = TypeError "undefined" "replace"
      /\ exists text,
           text ∈ ["src/routes"; "app/api"; "pages/api"; "app"; "pages"]
           /\ Js.includes text relPath = true
           /\ Js.includes (text +:+ "/") relPath = false
  end.
Proof.
  intros relPath. unfold getRouteInfo, routed. fold relPath.
  destruct (Js.includes "src/routes" relPath) eqn:H1.
  { match goal with |- context [route_of ?p ?s ?f] =>
      pose proof (route_of_outcomes p s f) as Hr; destruct (route_of p s f) as [m|[r|]]
    end; [|tauto|tauto].
    destruct Hr as [Hp ->]. apply split_1_none in Hp.
    split; [reflexivity|]. split; [reflexivity|]. exists "src/routes".
    split; [set_solver|auto]. }
  destruct (Js.includes "app/api" relPath) eqn:H2.
  { pose proof (includes_weaken "app" "/api" relPath H2) as Happ. rewrite Happ. simpl.
    match goal with |- context [route_of ?p ?s ?f] =>
      pose proof (route_of_outcomes p s f) as Hr; destruct (route_of p s f) as [m|[r|]]
    end; [|tauto|tauto].
    destruct Hr as [Hp ->]. apply split_1_none in Hp.
    split; [reflexivity|]. split; [reflexivity|]. exists "app/api".
    split; [set_solver|auto]. }
  destruct (Js.includes "pages/api" relPath) eqn:H3.
  { pose proof (includes_weaken "pages" "/api" relPath H3) as Hpages. rewrite Hpages.
    rewrite orb_true_r.
    match goal with |- context [route_of ?p ?s ?f] =>
      pose proof (route_of_outcomes p s f) as Hr; destruct (route_of p s f) as [m|[r|]]
    end; [|tauto|tauto].
    destruct Hr as [Hp ->]. apply split_1_none in Hp.
    split; [reflexivity|]. split; [reflexivity|]. exists "pages/api".
    split; [set_solver|auto]. }
  destruct (Js.includes "app" relPath) eqn:H4.
  { match goal with |- context [route_of ?p ?s ?f] =>
      pose proof (route_of_outcomes p s f) as Hr; destruct (route_of p s f) as [m|[r|]]
    end; [|tauto|tauto].
    destruct Hr as [Hp ->]. apply split_1_none in Hp.
    split; [reflexivity|]. split; [reflexivity|]. exists "app".
    split; [set_solver|auto]. }
  destruct (Js.includes "pages" relPath) eqn:H5; [|reflexivity].
  match goal with |- context [route_of ?p ?s ?f] =>
    pose proof (route_of_outcomes p s f) as Hr; destruct (route_of p s f) as [m|[r|]]
  end; [|tauto|tauto].
  destruct Hr as [Hp ->]. apply split_1_none in Hp.
  split; [reflexivity|]. split; [reflexivity|]. exists "pages".
  split; [set_solver|auto].
Qed.

(** ** Import resolution *)

#[local] Arguments resolveImportPath : simpl never.

(** X25. Import resolution: whatever [resolveImportPath] returns is a
    file of the project file set; a specifier that begins neither with a
    dot or a slash nor with one of the alias prefixes (a package name) is
    not resolved; and for a relative specifier the candidate with .js
    appended, when it is a project file, is chosen before every other
    candidate, the path as written included. *)
Theorem resolveImportPath_outcomes host importerPath importedModule allProjectFiles
  projectRoot :
  let result :=
    resolveImportPath host importerPath importedModule allProjectFiles projectRoot in
  let potentialPath :=
    path_resolve host (path_dirname host importerPath) importedModule in
  (forall resolved, result = Some resolved -> resolved ∈ allProjectFiles)
  /\ (Js.startsWith "." importedModule = false ->
      Js.startsWith "/" importedModule = false ->
      Forall (fun prefix => Js.startsWith prefix importedModule = false) ALIAS_PREFIXES ->
      result = None)
  /\ (Js.startsWith "." importedModule || Js.startsWith "/" importedModule = true ->
      potentialPath +:+ ".js" ∈ allProjectFiles ->
      result = Some (potentialPath +:+ ".js")).
Proof.
  intros result potentialPath. split; [|split].
  - intros resolved. apply resolveImportPath_in_files.
  - intros Hdot Hslash Halias. unfold result, resolveImportPath.
    rewrite Hdot, Hslash. cbn [orb].
    replace (existsb _ ALIAS_PREFIXES) with false; [reflexivity|].
    symmetry. apply not_true_is_false. intros Hex.
    apply existsb_exists in Hex as (prefix & Hin & Hstarts).
    rewrite Forall_forall in Halias. apply list_elem_of_In in Hin.
    rewrite (Halias prefix Hin) in Hstarts. discriminate.
  - intros Hrelative Hfile. unfold result, resolveImportPath.
    rewrite Hrelative. fold potentialPath. unfold resolve_candidate, EXTENSIONS.
    cbn [find]. unfold has_file at 1. rewrite bool_decide_eq_true_2 by exact Hfile.
    reflexivity.
Qed.



(** ** Direct dependents *)

(** X26. The impacts of depth 1 are exactly the callers, other than
    the target, of the edges that are not structural and whose callee
    matches the target: the callee, or its bare name, is the target
    identifier or the bare name of the target.  So a target
    [a.js::foo] is matched by a call to [foo] and also by a callee
    [b.js::foo]. *)
Theorem direct_impacts_are_the_matching_callers g targetId :
  exists l,
    calculateBlastRadius g targetId = Some l
    /\ forall x,
         (exists i, i ∈ l /\ Impact.id i = x /\ Impact.depth i = 1)
         <-> x <> targetId
             /\ exists e callee,
                  e ∈ edges g /\ Edge.from e = x
                  /\ Edge.type e <> "structural" /\ Edge.to e = Some callee
                  /\ (callee = targetId \/ callee = shortName targetId
                      \/ shortName callee = targetId
                      \/ shortName callee = shortName targetId).
Proof.
  destruct (calculateBlastRadius_facts g targetId) as (l & done & seen & Hl & Hinv & _).
  exists l. split; [exact Hl|]. intros x.
  assert (x ∈ dependents_of (build_adj (edges g)) targetId
          <-> exists e callee,
                e ∈ edges g /\ Edge.from e = x
                /\ Edge.type e <> "structural" /\ Edge.to e = Some callee
                /\ (callee = targetId \/ callee = shortName targetId
                    \/ shortName callee = targetId
                    \/ shortName callee = shortName targetId)) as Hdep.
  { rewrite dependents_of_spec, !build_adj_spec. unfold indexed_under. split.
    - intros [(e & He & -> & Hs & c & Hc & Hk)|(e & He & -> & Hs & c & Hc & Hk)];
        exists e, c; repeat split; auto; destruct Hk; auto.
    - intros (e & c & He & <- & Hs & Hc & [->|[->|[Hk|Hk]]]).
      + left. exists e. eauto 10.
      + right. exists e. eauto 10.
      + left. exists e. split; [exact He|]. split; [reflexivity|]. split; [exact Hs|].
        exists c. split; [exact Hc|]. right. symmetry. exact Hk.
      + right. exists e. split; [exact He|]. split; [reflexivity|]. split; [exact Hs|].
        exists c. split; [exact Hc|]. right. symmetry. exact Hk. }
  rewrite <- Hdep. destruct Hinv as [Htrail Hseen Hnodup Hclosed Hfound].
  split.
  - intros (i & Hi & <- & Hone). apply list_elem_of_lookup in Hi as (k & Hk). split.
    + rewrite trail_ids in Hnodup. apply NoDup_cons in Hnodup as [Hfresh _].
      intros Heq. apply Hfresh. rewrite <- Heq. apply list_elem_of_fmap_2.
      eapply list_elem_of_lookup_2, Hk.
    + destruct (Hfound k i Hk) as (j & [y d] & _ & Hj & Hin & Hdepth & _).
      simpl in Hin, Hdepth. assert (d = 0) as -> by lia.
      destruct j as [|m]; [injection Hj as <-; exact Hin|].
      apply trail_lookup_S in Hj as (i0 & Hi0 & _ & Hzero).
      destruct (Hfound m i0 Hi0) as (j' & parent' & _ & _ & _ & Hpositive & _). lia.
  - intros [Hne Hin].
    destruct (direct_dependent g targetId x Hin Hne) as (l' & i & Hl' & Hi).
    rewrite Hl in Hl'. injection Hl' as <-. eauto.
Qed.



(** ** Unresolved files *)

Lemma size_filter_add (P : string -> Prop) `{forall x, Decision (P x)}
  (f : string) (X : gset string) :
  f ∉ X ->
  size (filter P ({[f]} ∪ X)) = size (filter P X) + (if decide (P f) then 1 else 0).
Proof.
  intros Hf. rewrite filter_union_L, filter_singleton_L; [|apply _..].
  destruct (decide (P f)) as [Hp|Hp].
  - rewrite size_union by set_solver. rewrite size_singleton. lia.
  - rewrite union_empty_l_L. lia.
Qed.

Lemma size_filter_list_to_set (P : string -> Prop) `{forall x, Decision (P x)}
  (l : list string) :
  NoDup l -> size (filter P (list_to_set l : gset string)) = length (filter P l).
Proof.
  induction 1 as [|x l Hx Hl IH]; [reflexivity|].
  rewrite list_to_set_cons, size_filter_add by (rewrite elem_of_list_to_set; exact Hx).
  rewrite IH, filter_cons. destruct (decide (P x)); simpl; lia.
Qed.

Section Unresolved.

Variables (host : Host) (projectRoot graphMode : string).
Variables (files : list string) (relPaths : gmap string string).

Hypothesis files_registered :
  forall f, f ∈ files -> relPaths !! f = Some (path_relative host projectRoot f).
Hypothesis routes_defined : forall f script,
  f ∈ files -> load host f = inr script ->
  exists route, getRouteInfo host f projectRoot = inr route.

#[local] Abbreviation failed st :=
  (size (filter (fun f => load_fails host f) (processedFiles st))).

Lemma unresolved_run fuel fs st st' :
  (forall f, f ∈ fs -> f ∈ files) -> stable files relPaths st ->
  process_all host projectRoot graphMode fuel fs st = Some st' ->
  unresolved_files (metadata (graph st)) = failed st ->
  unresolved_files (metadata (graph st')) = failed st'.
Proof.
  intros Hfs Hst Hrun.
  destruct (gt_process_all host projectRoot graphMode files relPaths files_registered
              (fun a b => unresolved_files (metadata (graph a)) = failed a ->
                          unresolved_files (metadata (graph b)) = failed b))
    with (fuel := fuel) (fs := fs) (st := st) (st' := st') as ((HR & _) & _);
    try assumption.
  - auto.
  - auto.
  - intros f s script Hf Hs Hnew Hload Hcount.
    destruct (stable_enter host projectRoot files relPaths files_registered f s Hs Hf)
      as (_ & Hprocessed & Hgraph).
    assert (load_fails host f = false) as Hfine by (unfold load_fails; rewrite Hload; reflexivity).
    rewrite Hgraph, Hprocessed, size_filter_add by exact Hnew. simpl.
    destruct (decide _) as [Hd|_]; [rewrite Hfine in Hd; destruct Hd|]. lia.
  - intros f s message Hf Hs Hnew Hload Hcount.
    destruct (stable_enter host projectRoot files relPaths files_registered f s Hs Hf)
      as (_ & Hprocessed & Hgraph).
    change (processedFiles (count_unresolved_file (enter_file host projectRoot f s)))
      with (processedFiles (enter_file host projectRoot f s)).
    change (unresolved_files (metadata (graph (count_unresolved_file
              (enter_file host projectRoot f s)))))
      with (unresolved_files (metadata (graph (enter_file host projectRoot f s))) + 1).
    assert (load_fails host f = true) as Hfails by (unfold load_fails; rewrite Hload; reflexivity).
    rewrite Hgraph, Hprocessed, size_filter_add by exact Hnew. simpl.
    destruct (decide _) as [_|Hd]; [lia|]. rewrite Hfails in Hd. destruct Hd. exact I.
  - intros f s s' body message Hf Hs Hnew Hload Hroute.
    destruct (routes_defined f _ Hf Hload) as [route Hdefined]. congruence.
  - auto.
  - auto.
  - auto.
  - auto.
Qed.

End Unresolved.

Lemma process_all_processes_everything host projectRoot graphMode files relPaths st :
  (forall f, f ∈ files -> relPaths !! f = Some (path_relative host projectRoot f)) ->
  process_all host projectRoot graphMode (length files) files
    (initial_builder files relPaths) = Some st ->
  processedFiles st = list_to_set files.
Proof.
  intros Hreg Hst.
  destruct (gt_process_all host projectRoot graphMode files relPaths Hreg
              (fun _ _ => True))
    with (fuel := length files) (fs := files)
         (st := initial_builder files relPaths) (st' := st)
    as ((_ & (_ & _ & Hsub) & _) & Hall); auto using initial_stable.
  apply set_eq. intros f. rewrite elem_of_list_to_set. split; [|apply Hall].
  intros Hf. apply Hsub in Hf. apply elem_of_list_to_set in Hf. exact Hf.
Qed.

(** X27. When no file that loads makes [getRouteInfo] throw, the
    unresolved-file count of the returned graph is the number of
    collected files that do not load: those that cannot be read or
    parsed, and those whose traversal throws before its first visitor. *)
Theorem unresolved_files_are_the_unparsable_files host targetPath graphMode g :
  parseToGraph host targetPath graphMode = Returns g ->
  let projectRoot := path_resolve1 host targetPath in
  exists files relPaths,
    collectFiles host projectRoot projectRoot = Some (files, relPaths)
    /\ ((forall f script,
           f ∈ files -> load host f = inr script ->
           exists route, getRouteInfo host f projectRoot = inr route) ->
        unresolved_files (metadata g)
        = length (filter (fun f => load_fails host f) files)).
Proof.
  intros Hg projectRoot.
  destruct (parseToGraph_returns _ _ _ _ Hg)
    as (files & relPaths & st & Hcollect & Hst & _ & _ & Hunres & _).
  fold projectRoot in Hcollect, Hst.
  destruct (collectFiles_collected _ _ _ _ Hcollect) as [Hnodup Hreg]. simpl in Hnodup, Hreg.
  exists files, relPaths. split; [exact Hcollect|]. intros Hroutes.
  pose proof (process_all_processes_everything host projectRoot graphMode files relPaths
                st Hreg Hst) as Hall.
  rewrite Hunres.
  rewrite (unresolved_run host projectRoot graphMode files relPaths Hreg Hroutes
             (length files) files (initial_builder files relPaths) st
             (fun f Hf => Hf) (initial_stable files relPaths) Hst).
  - rewrite Hall. apply size_filter_list_to_set, Hnodup.
  - simpl.
    assert (filter (fun f => load_fails host f) (∅ : gset string) = ∅) as ->
      by set_solver.
    rewrite size_empty. reflexivity.
Qed.

Lemma unresolved_files_are_the_unparsable_files_witness :
  exists g files relPaths,
    parseToGraph Ten.project "/proj" "FAST" = Returns g
    /\ collectFiles Ten.project "/proj" "/proj" = Some (files, relPaths)
    /\ ((forall f script,
           f ∈ files -> load Ten.project f = inr script ->
           exists route, getRouteInfo Ten.project f "/proj" = inr route) ->
        unresolved_files (metadata g)
        = length (filter (fun f => load_fails Ten.project f) files)).
Proof.
  destruct (parseToGraph Ten.project "/proj" "FAST") as [g| |] eqn:Hrun;
    [|exfalso; vm_compute in Hrun; discriminate..].
  destruct (unresolved_files_are_the_unparsable_files Ten.project "/proj" "FAST" g Hrun)
    as (files & relPaths & Hfiles).
  exists g, files, relPaths. split; [reflexivity|]. exact Hfiles.
Defined.



(* ===================================================================== *)
(** * The traversal, child by child *)
(* ===================================================================== *)

Lemma many_labelled (at_ : position) (field : string) (self : NodePath)
  (ks : list node) : forall i,
  (fix many (i : nat) (ks : list node) {struct ks} : list NodePath :=
     match ks with
     | [] => []
     | k :: ks' => paths_of k (at_ ++ [(field, i)]) (Some self) ++ many (S i) ks'
     end) i ks
  = flat_map (fun c => paths_of c.2 (at_ ++ [c.1]) (Some self))
      (imap (fun j k => ((field, i + j), k)) ks).
Proof.
  induction ks as [|k ks IH]; intros i; [reflexivity|].
  rewrite imap_cons. cbn [flat_map fst snd]. rewrite Nat.add_0_r. f_equal.
  rewrite IH. f_equal. apply imap_ext. intros j x _. simpl. f_equal. f_equal. lia.
Qed.

(** The traversal of a node is the node, then the traversals of its
    children in order. *)
Lemma paths_of_fields n at_ parent :
  paths_of n at_ parent
  = MkPath n at_ parent :: paths_below (MkPath n at_ parent) (fields n).
Proof.
  destruct n; cbn [paths_of fields]; unfold paths_below, labelled, label1, label_opt;
    cbn [path_at]; f_equal;
    rewrite ?flat_map_app, ?many_labelled; cbn [flat_map fst snd plus];
    rewrite ?app_nil_r;
    repeat match goal with
           | |- context [match ?o with Some _ => _ | None => _ end] => destruct o
           end;
    cbn [flat_map fst snd app]; rewrite ?app_nil_r; reflexivity.
Qed.

Lemma imap_labels {L : Type} (ks : list node) : forall f : nat -> L,
  (imap (fun j k => (f j, k)) ks).*2 = ks.
Proof.
  induction ks as [|k ks IH]; intros f; [reflexivity|].
  rewrite imap_cons, fmap_cons. cbn [snd]. f_equal. exact (IH (f ∘ S)).
Qed.

Lemma fields_children n : (fields n).*2 = children n.
Proof.
  unfold fields, children. destruct n; unfold labelled, label1, label_opt;
    rewrite ?fmap_app, ?(imap_labels _ (fun j => (_, j)));
    repeat match goal with
           | |- context [match ?o with Some _ => _ | None => _ end] => destruct o
           end; reflexivity.
Qed.

(** Induction over syntax trees, by fields. *)
Lemma node_fields_ind (P : node -> Prop) :
  (forall n, Forall (fun c => P c.2) (fields n) -> P n) -> forall n, P n.
Proof.
  intros step. apply node_children_ind. intros n Hchildren. apply step.
  rewrite <- fields_children in Hchildren.
  exact (proj1 (Forall_fmap snd P (fields n)) Hchildren).
Qed.

(** ** Paths and their parents *)

(** The traversal below a path of the traversal is part of it. *)
Lemma paths_of_nested n : forall at_ parent p,
  p ∈ paths_of n at_ parent ->
  forall q, q ∈ paths_of (path_node p) (path_at p) (parentPath p) ->
  q ∈ paths_of n at_ parent.
Proof.
  induction n as [n IH] using node_fields_ind. intros at_ parent p Hp q Hq.
  rewrite paths_of_fields in Hp |- *.
  apply elem_of_cons in Hp as [->|Hp]; [rewrite <- paths_of_fields; exact Hq|].
  right. unfold paths_below in *. apply list_elem_of_In, in_flat_map in Hp.
  destruct Hp as (c & Hc & Hp). apply list_elem_of_In in Hc, Hp.
  apply list_elem_of_In, in_flat_map. exists c. split; [apply list_elem_of_In, Hc|].
  apply list_elem_of_In. rewrite Forall_forall in IH. exact (IH c Hc _ _ p Hp q Hq).
Qed.

(** The parent of a path of the traversal is a path of the traversal,
    unless the path is the one the traversal starts at. *)
Lemma paths_of_parent n : forall at_ parent p,
  p ∈ paths_of n at_ parent ->
  p = MkPath n at_ parent
  \/ exists q, parentPath p = Some q /\ q ∈ paths_of n at_ parent.
Proof.
  induction n as [n IH] using node_fields_ind. intros at_ parent p Hp.
  rewrite paths_of_fields in Hp. apply elem_of_cons in Hp as [->|Hp]; [auto|].
  right. unfold paths_below in Hp. apply list_elem_of_In, in_flat_map in Hp.
  destruct Hp as (c & Hc & Hp). apply list_elem_of_In in Hc, Hp.
  rewrite Forall_forall in IH. destruct (IH c Hc _ _ p Hp) as [->|(q & Hq & Hin)].
  - exists (MkPath n at_ parent). split; [reflexivity|].
    rewrite paths_of_fields. left.
  - exists q. split; [exact Hq|]. rewrite paths_of_fields. right.
    apply list_elem_of_In, in_flat_map. exists c. split; apply list_elem_of_In; assumption.
Qed.

(** In the traversal of a program every path but the first has a
    parent, and a path whose parent has none lies directly below the
    program. *)
Lemma traversal_parents body p :
  p ∈ babelTraverse (Program body) ->
  p = MkPath (Program body) [] None
  \/ exists q, parentPath p = Some q /\ q ∈ babelTraverse (Program body).
Proof. apply paths_of_parent. Qed.

(** ** The scan of a file that parses *)

Lemma call_site_total body p :
  p ∈ babelTraverse (Program body) -> isCallExpression (path_node p) = true ->
  exists flags, call_site_flags p = inr flags.
Proof.
  intros Hp Hcall.
  destruct (traversal_parents body p Hp) as [->|(q & Hq & Hin)]; [discriminate|].
  assert (exists b, binding_of p = inr b) as [b Hb].
  { unfold binding_of. rewrite Hq.
    destruct (isAwaitExpression (path_node q) && _) eqn:Hawait.
    - apply andb_true_iff in Hawait as [Hawait _].
      destruct (traversal_parents body q Hin) as [->|(r & -> & _)]; [discriminate|].
      repeat case_match; eauto.
    - repeat case_match; eauto. }
  unfold call_site_flags. rewrite Hb. eauto.
Qed.

Lemma visit_calls_complete filePath target body ps :
  (forall p, p ∈ ps -> p ∈ babelTraverse (Program body)) ->
  exists records,
    visit_calls filePath target ps = (records, None)
    /\ Forall2 (fun p r =>
                  exists flags,
                    call_site_flags p = inr flags
                    /\ r = analysis_of filePath target p flags)
         (filter (fun p => calls target p) ps) records.
Proof.
  induction ps as [|p ps IH]; intros Hps.
  { exists []. split; [reflexivity|constructor]. }
  destruct IH as (records & Hrest & Hall); [intros q Hq; apply Hps; now right|].
  cbn [visit_calls]. rewrite Hrest, filter_cons. unfold visit_call, calls.
  destruct (path_node p) eqn:Hnode; try (exists records; split; [reflexivity|];
    (destruct (decide _) as [[]|_]; exact Hall)).
  destruct (callee_name _) as [calleeName|];
    [|exists records; split; [reflexivity|]; destruct (decide _) as [[]|_]; exact Hall].
  destruct (String.eqb_spec calleeName target) as [->|Hne];
    [|exists records; split; [reflexivity|]; destruct (decide _) as [[]|_]; exact Hall].
  destruct (call_site_total body p) as [flags Hflags];
    [apply Hps; now left|rewrite Hnode; reflexivity|].
  rewrite Hflags. eexists. split; [reflexivity|].
  destruct (decide _) as [_|Hno]; [|destruct Hno; exact I].
  constructor; [|exact Hall]. exists flags. split; [exact Hflags|].
  unfold analysis_of. rewrite Hnode. reflexivity.
Qed.

(** The scan of a file that loads is the traversal of its tree. *)
Lemma scan_of_loaded host filePath target body :
  existsSync host filePath = true ->
  load host filePath = inr (Some (Program body)) ->
  scanCallerSafety host filePath target
  = (visit_calls filePath target (babelTraverse (Program body))).1
  /\ (visit_calls filePath target (babelTraverse (Program body))).2 = None.
Proof.
  intros Hexists Hload. unfold scanCallerSafety. rewrite Hexists. cbn [negb].
  unfold load in Hload.
  destruct (readFileSync host filePath) as [message|code]; [discriminate|].
  destruct (_ && _); [discriminate|].
  destruct (parse host _) as [message|body']; [discriminate|].
  destruct (traverse_error host _) as [message|]; [discriminate|].
  injection Hload as ->.
  destruct (visit_calls_complete filePath target body (babelTraverse (Program body)))
    as (records & -> & Hall); auto.
Qed.

Lemma scan_matches host filePath target body :
  existsSync host filePath = true ->
  load host filePath = inr (Some (Program body)) ->
  Forall2 (fun p r =>
             exists flags,
               call_site_flags p = inr flags
               /\ r = analysis_of filePath target p flags)
    (filter (fun p => calls target p) (babelTraverse (Program body)))
    (scanCallerSafety host filePath target).
Proof.
  intros Hexists Hload.
  destruct (scan_of_loaded host filePath target body Hexists Hload) as [-> _].
  destruct (visit_calls_complete filePath target body (babelTraverse (Program body)))
    as (records & -> & Hall); auto.
Qed.

(** X28. When a file exists, is read and parsed, and the traversal of
    its tree starts without an exception, its scan reports exactly the
    call expressions of the file whose callee name is the target, one
    analysis for each, in the order of the traversal, and no note:
    computing the flags of a call site never throws. *)
Theorem scan_reports_the_matching_calls host filePath target body :
  existsSync host filePath = true ->
  load host filePath = inr (Some (Program body)) ->
  Forall2 (fun p r =>
             exists flags,
               call_site_flags p = inr flags
               /\ r = analysis_of filePath target p flags)
    (filter (fun p => calls target p) (babelTraverse (Program body)))
    (scanCallerSafety host filePath target).
Proof.
  intros Hexists Hload.
  destruct (scan_of_loaded host filePath target body Hexists Hload) as [Hscan Hnone].
  rewrite Hscan.
  destruct (visit_calls_complete filePath target body (babelTraverse (Program body)))
    as (records & Hvisit & Hall); [auto|].
  rewrite Hvisit. exact Hall.
Qed.

Lemma scan_reports_the_matching_calls_witness :
  Forall2 (fun p r =>
             exists flags,
               call_site_flags p = inr flags
               /\ r = analysis_of "/proj/b.js" "foo" p flags)
    (filter (fun p => calls "foo" p) (babelTraverse (Program Scenario.b_ast)))
    (scanCallerSafety Scenario.project "/proj/b.js" "foo").
Proof.
  apply (scan_reports_the_matching_calls Scenario.project "/proj/b.js" "foo"
           Scenario.b_ast); vm_compute; reflexivity.
Defined.




(** ** Import counters and import edges *)

Lemma count_app {A : Type} (P : A -> Prop) `{forall x, Decision (P x)} (l k : list A) :
  length (filter P (l ++ k)) = length (filter P l) + length (filter P k).
Proof. rewrite filter_app, length_app. reflexivity. Qed.

Lemma call_edges_kind nodeId p :
  Forall (fun e => Edge.kind e = Some "call") (call_edges nodeId p).
Proof.
  apply Forall_forall. intros e He.
  unfold call_edges in He. apply list_elem_of_In, in_flat_map in He.
  destruct He as (q & _ & He).
  repeat case_match; simpl in He; try contradiction.
  destruct He as [<-|[]]. reflexivity.
Qed.

Lemma declared_edges_are_no_imports relPath nodeId p :
  filter internal_import (structural_edge relPath nodeId :: call_edges nodeId p) = []
  /\ filter external_import (structural_edge relPath nodeId :: call_edges nodeId p) = [].
Proof.
  split; apply filter_none; (apply Forall_cons; split; [simpl; auto|]);
    eapply Forall_impl; try apply call_edges_kind;
    intros e He; unfold internal_import, external_import; rewrite He; simpl; auto.
Qed.

Lemma imports_counted_run host projectRoot graphMode files relPaths fuel fs st st' exact :
  (forall f, f ∈ files -> relPaths !! f = Some (path_relative host projectRoot f)) ->
  (exact -> forall f, f ∈ files -> path_relative host projectRoot f <> "") ->
  (forall f, f ∈ fs -> f ∈ files) -> stable files relPaths st ->
  process_all host projectRoot graphMode fuel fs st = Some st' ->
  imports_counted exact (graph st) -> imports_counted exact (graph st').
Proof.
  intros Hreg Hexact Hfs Hst Hrun.
  apply (tr_process_all host projectRoot graphMode files relPaths Hreg
           (fun a b => imports_counted exact (graph a) -> imports_counted exact (graph b)))
    with (fuel := fuel) (fs := fs); try assumption.
  - auto.
  - auto.
  - intros f s script Hf Hs Hnew _ Hinv. exact Hinv.
  - intros f s message Hf Hs Hnew _ Hinv. exact Hinv.
  - intros f s s' body message Hf Hs Hnew _ _ Hrest Hinv. apply Hrest. exact Hinv.
  - intros s target Hs Ht Hempty (Hres & Hle & Heq).
    unfold imports_counted. simpl. split; [exact Hres|]. split; [lia|].
    intros He. destruct (Hexact He target Ht). apply truthy_false, Hempty.
  - intros f body s module kind Hf Hs _ Hkind (Hres & Hle & Heq).
    assert (internal_import (dependency_edge (path_relative host projectRoot f) module
                               (kind +:+ "_external") None) = false
            /\ external_import (dependency_edge (path_relative host projectRoot f) module
                                  (kind +:+ "_external") None) = true) as [Hint Hext].
    { unfold IMPORT_KINDS in Hkind.
      repeat (apply elem_of_cons in Hkind as [->|Hkind]; [split; reflexivity|]).
      inversion Hkind. }
    unfold imports_counted. simpl. rewrite !count_app.
    rewrite (filter_cons_False internal_import) by (rewrite Hint; auto).
    rewrite (filter_cons_True external_import) by (rewrite Hext; exact I).
    simpl. split; [lia|]. split; [lia|]. intros He. specialize (Heq He). lia.
  - intros f body s target relTarget kind Hf Hs _ Hkind _ _ (Hres & Hle & Heq).
    assert (internal_import (dependency_edge (path_relative host projectRoot f) relTarget
                               kind None) = true
            /\ external_import (dependency_edge (path_relative host projectRoot f) relTarget
                                  kind None) = false) as [Hint Hext].
    { unfold IMPORT_KINDS in Hkind.
      repeat (apply elem_of_cons in Hkind as [->|Hkind]; [split; reflexivity|]).
      inversion Hkind. }
    unfold imports_counted. simpl. rewrite !count_app.
    rewrite (filter_cons_True internal_import) by (rewrite Hint; exact I).
    rewrite (filter_cons_False external_import) by (rewrite Hext; auto).
    simpl. split; [lia|]. split; [lia|]. intros He. specialize (Heq He). lia.
  - intros f body s nodeId n p Hf Hs _ _ _ _ (Hres & Hle & Heq).
    destruct (declared_edges_are_no_imports (path_relative host projectRoot f) nodeId p)
      as [Hint Hext].
    unfold imports_counted, declare. simpl. rewrite !count_app, Hint, Hext. simpl.
    split; [lia|]. split; [lia|]. intros He. specialize (Heq He). lia.
Qed.

(** X29. The import counters of a returned graph count its edges:
    [resolved_imports] is the number of import, re-export and barrel
    edges between project files, and [total_imports] is at least that
    plus the number of external import edges, and exactly that when no
    collected file has an empty relative path. *)
Theorem import_counters_count_the_edges host targetPath graphMode g :
  parseToGraph host targetPath graphMode = Returns g ->
  let projectRoot := path_resolve1 host targetPath in
  resolved_imports (metadata g) = length (filter internal_import (edges g))
  /\ resolved_imports (metadata g) + length (filter external_import (edges g))
     <= total_imports (metadata g)
  /\ forall files relPaths,
       collectFiles host projectRoot projectRoot = Some (files, relPaths) ->
       (forall f, f ∈ files -> path_relative host projectRoot f <> "") ->
       total_imports (metadata g)
       = resolved_imports (metadata g) + length (filter external_import (edges g)).
Proof.
  intros Hg projectRoot.
  destruct (parseToGraph_returns _ _ _ _ Hg)
    as (files & relPaths & st & Hcollect & Hst & _ & Hedges & _ & _ & Htotal & Hresolved).
  fold projectRoot in Hcollect, Hst.
  destruct (collectFiles_collected _ _ _ _ Hcollect) as [_ Hreg]. simpl in Hreg.
  destruct (imports_counted_run host projectRoot graphMode files relPaths
              (length files) files (initial_builder files relPaths) st
              (forall f, f ∈ files -> path_relative host projectRoot f <> "")
              Hreg) as (Hres & Hle & Heq); auto using initial_stable.
  { split; [reflexivity|]. split; [simpl; lia|]. reflexivity. }
  rewrite Hedges, Htotal, Hresolved. split; [exact Hres|]. split; [exact Hle|].
  intros files' relPaths' Hcollect' Hnonempty.
  rewrite Hcollect in Hcollect'. injection Hcollect' as <- <-. apply Heq, Hnonempty.
Qed.

Lemma import_counters_count_the_edges_witness :
  exists g,
    parseToGraph Scenario.project "/proj" "FAST" = Returns g
    /\ resolved_imports (metadata g) = length (filter internal_import (edges g))
    /\ resolved_imports (metadata g) + length (filter external_import (edges g))
       <= total_imports (metadata g)
    /\ forall files relPaths,
         collectFiles Scenario.project "/proj" "/proj" = Some (files, relPaths) ->
         (forall f, f ∈ files -> path_relative Scenario.project "/proj" f <> "") ->
         total_imports (metadata g)
         = resolved_imports (metadata g) + length (filter external_import (edges g)).
Proof.
  destruct (parseToGraph Scenario.project "/proj" "FAST") as [g| |] eqn:Hrun;
    [|exfalso; vm_compute in Hrun; discriminate..].
  exists g. split; [reflexivity|].
  exact (import_counters_count_the_edges Scenario.project "/proj" "FAST" g Hrun).
Defined.

(** ** Call edges and call expressions *)

Lemma traversed_below body p q :
  p ∈ babelTraverse (Program body) -> q ∈ path_traverse p ->
  q ∈ babelTraverse (Program body).
Proof.
  intros Hp Hq. unfold babelTraverse in *. apply (paths_of_nested _ _ _ p Hp).
  unfold path_traverse in Hq.
  destruct (paths_of (path_node p) (path_at p) (parentPath p)); [inversion Hq|].
  right. exact Hq.
Qed.

Lemma call_edges_traced host projectRoot f body p nodeId n e :
  p ∈ babelTraverse (Program body) -> isFunctionLike (path_node p) = true ->
  declaration host projectRoot f (path_relative host projectRoot f) p
  = inr (Some (nodeId, n)) ->
  e ∈ call_edges nodeId p ->
  exists q, call_of host projectRoot f body p q e.
Proof.
  intros Hp Hfun Hdecl He.
  unfold call_edges in He. apply list_elem_of_In, in_flat_map in He.
  destruct He as (q & Hq & He). apply list_elem_of_In in Hq.
  destruct (path_node q) eqn:Hnode; try contradiction.
  destruct (callee_name _) as [name|] eqn:Hname; [|contradiction].
  destruct (Js.truthy name) eqn:Htruthy; [|contradiction].
  destruct He as [<-|[]].
  exists q. split; [exact Hp|]. split; [exact Hfun|]. split; [exact Hq|].
  exists n. do 3 eexists. simpl.
  repeat split; try eassumption; reflexivity.
Qed.

Lemma calls_traced_run host projectRoot graphMode files relPaths fuel fs st st' :
  (forall f, f ∈ files -> relPaths !! f = Some (path_relative host projectRoot f)) ->
  (forall f, f ∈ fs -> f ∈ files) -> stable files relPaths st ->
  process_all host projectRoot graphMode fuel fs st = Some st' ->
  calls_traced host projectRoot files (graph st) ->
  calls_traced host projectRoot files (graph st').
Proof.
  intros Hreg Hfs Hst Hrun.
  assert (forall s kind from to,
            calls_traced host projectRoot files (graph s) -> kind <> "call" ->
            calls_traced host projectRoot files
              (graph (push_edges [dependency_edge from to kind None] s))) as Hpush.
  { intros s kind from to Hinv Hkind e' He' Hcall. simpl in He'.
    apply elem_of_app in He' as [He'|He']; [apply Hinv; assumption|].
    apply list_elem_of_singleton in He' as ->. simpl in Hcall. congruence. }
  apply (tr_process_all host projectRoot graphMode files relPaths Hreg
           (fun a b => calls_traced host projectRoot files (graph a) ->
                       calls_traced host projectRoot files (graph b)))
    with (fuel := fuel) (fs := fs); try assumption.
  - auto.
  - auto.
  - intros f s script Hf Hs Hnew _ Hinv. exact Hinv.
  - intros f s message Hf Hs Hnew _ Hinv. exact Hinv.
  - intros f s s' body message Hf Hs Hnew _ _ Hrest Hinv. apply Hrest. exact Hinv.
  - intros s target Hs Ht Hempty Hinv. exact Hinv.
  - intros f body s module kind Hf Hs _ Hkind Hinv.
    apply (Hpush (count_import s)); [exact Hinv|].
    unfold IMPORT_KINDS in Hkind.
    repeat (apply elem_of_cons in Hkind as [->|Hkind]; [discriminate|]). inversion Hkind.
  - intros f body s target relTarget kind Hf Hs _ Hkind _ _ Hinv.
    apply (Hpush (count_resolved_import (count_import s))); [exact Hinv|].
    unfold IMPORT_KINDS in Hkind.
    repeat (apply elem_of_cons in Hkind as [->|Hkind]; [discriminate|]). inversion Hkind.
  - intros f body s nodeId n p Hf Hs Hload Hp Hfun Hdecl Hinv e He Hcall.
    unfold declare in He. simpl in He.
    apply elem_of_app in He as [He|He]; [apply Hinv; assumption|].
    apply elem_of_cons in He as [->|He]; [discriminate|].
    destruct (call_edges_traced host projectRoot f body p nodeId n e Hp Hfun Hdecl He)
      as [q Hq].
    exists f, body, p, q. auto.
Qed.

Lemma scan_finds_call host f body target q :
  existsSync host f = true -> load host f = inr (Some (Program body)) ->
  q ∈ babelTraverse (Program body) -> calls target q = true ->
  exists flags,
    call_site_flags q = inr flags
    /\ analysis_of f target q flags ∈ scanCallerSafety host f target.
Proof.
  intros Hexists Hload Hq Hcalls.
  pose proof (scan_matches host f target body Hexists Hload) as Hall.
  assert (q ∈ filter (fun p => calls target p) (babelTraverse (Program body))) as Hin.
  { apply list_elem_of_filter. split; [rewrite Hcalls; exact I|exact Hq]. }
  apply list_elem_of_lookup in Hin as [i Hi].
  destruct (Forall2_lookup_l _ _ _ _ _ Hall Hi) as (r & Hr & flags & Hflags & ->).
  exists flags. split; [exact Hflags|]. eapply list_elem_of_lookup_2, Hr.
Qed.

(** X30. Every call edge of a returned graph is a call expression of a
    collected file that loads: the file's tree holds a function-like
    path for which the function visitor declares the node the edge
    leaves, and below that path a call expression whose callee name is
    the edge's callee and whose location is the edge's call path.  The
    flags of that call site are computed without an exception, and the
    safety scan of that file for that name, when the file exists, reports
    the analysis of that very call. *)
Theorem call_edges_are_scanned_calls host targetPath graphMode g :
  parseToGraph host targetPath graphMode = Returns g ->
  let projectRoot := path_resolve1 host targetPath in
  forall e, e ∈ edges g -> Edge.kind e = Some "call" ->
    exists files relPaths f body p q n callee args name flags,
      collectFiles host projectRoot projectRoot = Some (files, relPaths)
      /\ f ∈ files
      /\ load host f = inr (Some (Program body))
      /\ p ∈ babelTraverse (Program body)
      /\ isFunctionLike (path_node p) = true
      /\ declaration host projectRoot f (path_relative host projectRoot f) p
         = inr (Some (Edge.from e, n))
      /\ q ∈ path_traverse p
      /\ q ∈ babelTraverse (Program body)
      /\ path_node q = CallExpression (Edge.callPath e) callee args
      /\ callee_name callee = Some name
      /\ Edge.to e = Some name
      /\ call_site_flags q = inr flags
      /\ (existsSync host f = true ->
          analysis_of f name q flags ∈ scanCallerSafety host f name).
Proof.
  intros Hg projectRoot e He Hcall.
  destruct (parseToGraph_returns _ _ _ _ Hg)
    as (files & relPaths & st & Hcollect & Hst & _ & Hedges & _).
  fold projectRoot in Hcollect, Hst.
  destruct (collectFiles_collected _ _ _ _ Hcollect) as [_ Hreg]. simpl in Hreg.
  rewrite Hedges in He.
  destruct (calls_traced_run host projectRoot graphMode files relPaths
              (length files) files (initial_builder files relPaths) st Hreg)
    with (e := e)
    as (f & body & p & q & Hf & Hload & Hp & Hfun & Hq & n & callee & args & name
        & Hdecl & Hnode & Hname & _ & Hto);
    auto using initial_stable.
  { intros e' He'. inversion He'. }
  assert (q ∈ babelTraverse (Program body)) as Hin
    by (eapply traversed_below; eassumption).
  assert (calls name q = true) as Hcalls
    by (unfold calls; rewrite Hnode, Hname; apply String.eqb_refl).
  destruct (call_site_total body q Hin) as [flags Hflags];
    [rewrite Hnode; reflexivity|].
  exists files, relPaths, f, body, p, q, n, callee, args, name, flags.
  repeat (split; [assumption|]).
  intros Hexists.
  destruct (scan_finds_call host f body name q Hexists Hload Hin Hcalls)
    as (flags' & Hflags' & Hscan).
  rewrite Hflags in Hflags'. injection Hflags' as <-. exact Hscan.
Qed.

Lemma call_edges_are_scanned_calls_witness :
  exists g,
    parseToGraph Scenario.project "/proj" "FAST" = Returns g
    /\ forall e, e ∈ edges g -> Edge.kind e = Some "call" ->
         exists files relPaths f body p q n callee args name flags,
           collectFiles Scenario.project "/proj" "/proj" = Some (files, relPaths)
           /\ f ∈ files
           /\ load Scenario.project f = inr (Some (Program body))
           /\ p ∈ babelTraverse (Program body)
           /\ isFunctionLike (path_node p) = true
           /\ declaration Scenario.project "/proj" f
                (path_relative Scenario.project "/proj" f) p
              = inr (Some (Edge.from e, n))
           /\ q ∈ path_traverse p
           /\ q ∈ babelTraverse (Program body)
           /\ path_node q = CallExpression (Edge.callPath e) callee args
           /\ callee_name callee = Some name
           /\ Edge.to e = Some name
           /\ call_site_flags q = inr flags
           /\ (existsSync Scenario.project f = true ->
               analysis_of f name q flags ∈ scanCallerSafety Scenario.project f name).
Proof.
  destruct (parseToGraph Scenario.project "/proj" "FAST") as [g| |] eqn:Hrun;
    [|exfalso; vm_compute in Hrun; discriminate..].
  exists g. split; [reflexivity|].
  exact (call_edges_are_scanned_calls Scenario.project "/proj" "FAST" g Hrun).
Defined.

(** ** The async flag of a call site *)

(** C8, amended. For every call site the scan matches, is-async-call is
    true exactly when some function-like construct enclosing the call
    (function declaration, arrow function, function expression or object
    method), at any distance above it, is marked asynchronous: the walk
    does not stop at the innermost one.  Every analysis of a scan is the
    analysis of such a call site of the tree the scanned file is parsed
    to, with the flags computed there; and when the file exists and
    loads, the analyses are those of the calls of the target in the
    file's tree, one for each in the order of the traversal, each with
    that value of the flag. *)
Theorem async_call_reflects_any_enclosing_function host filePath target :
  (forall r flags,
      r ∈ scanCallerSafety host filePath target -> record_flags r = Some flags ->
      exists body p,
        analysed_at host filePath target r flags body p
        /\ isAsyncCall flags = existsb isAsyncFunction (enclosing p))
  /\ (forall body,
        existsSync host filePath = true ->
        load host filePath = inr (Some (Program body)) ->
        Forall2 (fun p r =>
                   exists flags,
                     call_site_flags p = inr flags
                     /\ r = analysis_of filePath target p flags
                     /\ isAsyncCall flags = existsb isAsyncFunction (enclosing p))
          (filter (fun p => calls target p) (babelTraverse (Program body)))
          (scanCallerSafety host filePath target)).
Proof.
  split.
  - intros r flags Hr Hflags.
    pose proof (scan_analyses host filePath target) as Hall.
    rewrite Forall_forall in Hall.
    destruct (Hall r Hr flags Hflags) as (body & p & Hat).
    exists body, p. split; [exact Hat|].
    destruct Hat as (_ & _ & _ & Hsite & _). exact (call_site_async _ _ Hsite).
  - intros body Hexists Hload.
    eapply Forall2_impl; [exact (scan_matches host filePath target body Hexists Hload)|].
    intros p r (flags & Hsite & ->). exists flags.
    split; [exact Hsite|]. split; [reflexivity|]. exact (call_site_async _ _ Hsite).
Qed.

Lemma async_call_reflects_any_enclosing_function_witness :
  exists body p,
    analysed_at Nested.project "/proj/c.js" "foo"
      (analysis_of "/proj/c.js" "foo" nested_call_path nested_call_flags)
      nested_call_flags body p
    /\ isAsyncCall nested_call_flags = existsb isAsyncFunction (enclosing p).
Proof.
  assert (analysis_of "/proj/c.js" "foo" nested_call_path nested_call_flags
            ∈ scanCallerSafety Nested.project "/proj/c.js" "foo") as Hin.
  { replace (scanCallerSafety Nested.project "/proj/c.js" "foo")
      with [analysis_of "/proj/c.js" "foo" nested_call_path nested_call_flags]
      by (vm_compute; reflexivity).
    left. }
  exact (proj1 (async_call_reflects_any_enclosing_function Nested.project "/proj/c.js" "foo")
           _ nested_call_flags Hin eq_refl).
Defined.
